(** * channel-list-tool: the /channel-list slash command

    A shallow embedding of the two variants of the command handler kept in
    the repository:

    - [Http]   is [src/app.js] (HTTP receiver, signing secret);
    - [Socket] is the Socket Mode variant of the same file
      ([src/unnamed/part_000]).

    Both variants parse the command text into user IDs, resolve the users,
    page through [users.conversations] for each of them and answer with one
    message.  The definitions follow the JavaScript statement by statement.
    Everything the handler awaits ([ack], [say], [users.info],
    [users.conversations]) is answered by an arbitrary upstream and
    recorded, with its outcome, in the trace of the invocation.  The members
    of a [Promise.all] are in flight together: the upstream also decides in
    which order their requests are answered, and the requests that are still
    in flight when a [Promise.all] rejects are answered later, while the
    [catch] clause runs or after it. *)

From Stdlib Require Import Ascii String Lia FunctionalExtensionality.
From stdpp Require Import base decidable option list sets gmap strings pretty.

Local Open Scope string_scope.
Local Open Scope list_scope.
Local Open Scope nat_scope.

(** ** Data model *)

(** A channel object as the handler reads it: [c.id] and [c.name]. *)
Record Channel := mkChannel { ch_id : string; ch_name : string }.

(** The [user] object of a [users.info] response.  [real_name] may be
    absent ([undefined]). *)
Record User := mkUser {
  u_id : string;
  u_real_name : option string;
  u_name : string
}.

(** The argument of [app.client.users.conversations]. *)
Record ConvReq := mkConvReq {
  rq_user : string;
  rq_types : string;
  rq_limit : nat;
  rq_cursor : option string
}.

Record ResponseMetadata := mkMetadata { next_cursor : option string }.

(** A page of [users.conversations]: the [channels] array and the optional
    [response_metadata] with its optional [next_cursor]. *)
Record ConvResponse := mkConvResponse {
  channels : list Channel;
  response_metadata : option ResponseMetadata
}.

(** The argument of [say]: Block Kit blocks (absent in the error message)
    and the fallback text. *)
Inductive Block :=
| MrkdwnSection (body : string)
| Divider.

Record Message := mkMessage {
  blocks : option (list Block);
  text : string
}.

(** What the outside world sees of one invocation, in the order in which
    it happens.  A call is recorded with its outcome, at the moment it
    settles.  For a remote call [inl msg] is a rejection with an [Error]
    whose [message] is [msg]; for [ack] and [say], which resolve to nothing,
    [Some msg] is such a rejection and [None] is success. *)
Inductive Event :=
| EvAck (r : option string)
| EvUsersInfo (user : string) (r : string + User)
| EvConversations (req : ConvReq) (r : string + ConvResponse)
| EvLog (e : string)
| EvSay (m : Message) (r : option string).

(** The other side of the handler: the Slack Web API behind [app.client]
    and the [ack] and [say] functions of the listener.  It is an arbitrary
    deterministic service: every answer may depend on everything that
    happened before it is given.  The service also fixes the timing.  When
    [n] requests are in flight, [answered_next h n] tells which of them is
    answered next, counted from the oldest (the number is taken modulo
    [n]); and while the handler is about to log or waits for a [say], with
    requests left in flight by a rejected [Promise.all],
    [answered_meanwhile h] of them are answered first. *)
Record Upstream := mkUpstream {
  users_info : list Event → string → string + User;
  users_conversations : list Event → ConvReq → string + ConvResponse;
  ack_result : list Event → option string;
  say_result : list Event → Message → option string;
  answered_next : list Event → nat → nat;
  answered_meanwhile : list Event → nat
}.

(** ** JavaScript strings

    A string is a sequence of code units; the model keeps the code units
    below 256, so the white space of [\s] and [trim] is the part of it
    that lies in this range. *)

Definition nl : string := String (ascii_of_nat 10) EmptyString.

(** Template-literal interpolation of a number. *)
Definition num (n : nat) : string := pretty n.

(** [xs.join(sep)]. *)
Definition join (sep : string) (xs : list string) : string :=
  String.concat sep xs.

(** White space of [\s] and of [String.prototype.trim]: TAB, LF, VT, FF,
    CR, SPACE and NBSP. *)
Definition is_space (c : ascii) : bool :=
  let n := N_of_ascii c in
  ((9 <=? n) && (n <=? 13) || (n =? 32) || (n =? 160))%N.

(** The character class [[A-Z0-9]]. *)
Definition is_id_char (c : ascii) : bool :=
  let n := N_of_ascii c in
  ((65 <=? n) && (n <=? 90) || (48 <=? n) && (n <=? 57))%N.

(** [s.trimStart()] and [s.trimEnd()], the two halves of [s.trim()]. *)
Fixpoint trimStart (s : string) : string :=
  match s with
  | EmptyString => EmptyString
  | String c s' => if is_space c then trimStart s' else s
  end.

Fixpoint trimEnd (s : string) : string :=
  match s with
  | EmptyString => EmptyString
  | String c s' =>
      match trimEnd s' with
      | EmptyString => if is_space c then EmptyString else String c EmptyString
      | r => String c r
      end
  end.

(** [s.trim()]. *)
Definition trim (s : string) : string := trimEnd (trimStart s).

(** [s.split(/\s+/)]: the pieces between the maximal runs of white space.
    [in_sep] says that the previous character belonged to a separator;
    [cur] is the piece read so far.  A separator at the start or at the end
    leaves an empty piece there, and the empty string splits into one
    empty piece. *)
Fixpoint split_go (in_sep : bool) (cur s : string) : list string :=
  match s with
  | EmptyString => [cur]
  | String c s' =>
      if is_space c then
        if in_sep then split_go true EmptyString s'
        else cur :: split_go true EmptyString s'
      else split_go false (cur +:+ String c EmptyString) s'
  end.

Definition split_ws (s : string) : list string := split_go false EmptyString s.

(** The longest prefix of [[A-Z0-9]] characters, and what follows it. *)
Fixpoint id_run (s : string) : string * string :=
  match s with
  | EmptyString => (EmptyString, EmptyString)
  | String c s' =>
      if is_id_char c then
        let '(run, rest) := id_run s' in (String c run, rest)
      else (EmptyString, s)
  end.

(** An attempt to match [/<@([A-Z0-9]+)>/] at the start of [s]; the result
    is the captured group.  The quantifier is greedy and [>] is not in the
    class, so the group is the whole run. *)
Definition match_here (s : string) : option string :=
  match s with
  | String "<" (String "@" r) =>
      match id_run r with
      | (String a run, String ">" _) => Some (String a run)
      | _ => None
      end
  | _ => None
  end.

(** [s.match(/<@([A-Z0-9]+)>/)], group 1: the leftmost match. *)
Fixpoint regex_match (s : string) : option string :=
  match match_here s with
  | Some g => Some g
  | None =>
      match s with
      | EmptyString => None
      | String _ s' => regex_match s'
      end
  end.

(** [extractUserId], the same in both variants:
    [match ? match[1] : null]. *)
Definition extractUserId (mention : string) : option string :=
  match regex_match mention with
  | Some g => Some g
  | None => None
  end.

(** [xs.filter(id => id !== null)]. *)
Definition filterNotNull (xs : list (option string)) : list string :=
  omap id xs.

(** [Boolean(x)] for a string or null. *)
Definition truthy (x : option string) : bool :=
  match x with
  | Some s => negb (String.eqb s EmptyString)
  | None => false
  end.

(** [xs.filter(Boolean)] on an array of strings or nulls. *)
Definition filterBoolean (xs : list (option string)) : list string :=
  omap (λ x, if truthy x then x else None) xs.

(** ** Effects

    An [async] computation reads the history (the events before it
    started) and returns its outcome together with the events it emitted.
    [Thrown e] is a rejected promise or a thrown [Error] with message [e].
    The [do ... while] loops of the fetchers need not terminate, so they
    run on an iteration budget, and [OutOfFuel] marks a computation that
    waits for a loop cut off by it. *)

Inductive Outcome (A : Type) :=
| Done (a : A)
| Thrown (e : string)
| OutOfFuel.
Arguments Done {A} a.
Arguments Thrown {A} e.
Arguments OutOfFuel {A}.

Definition M (A : Type) : Type := list Event → Outcome A * list Event.

(** The outcome of awaiting a promise that resolves to nothing. *)
Definition settled (r : option string) : Outcome unit :=
  match r with
  | None => Done tt
  | Some e => Thrown e
  end.

(** *** Calls in flight

    Calling an [async] function starts it: it runs to its first [await]
    of a remote call, where the request leaves, and goes on from there
    when the reply has come.  A [Fiber] is such a call as far as it has
    got: resolved, rejected, or waiting for the reply to a request, with
    what it does with the reply.  None of the [async] functions of the
    handlers catches anything, so a rejected request rejects the call that
    awaits it.  [Starved] is a loop cut off by the iteration budget. *)
Inductive Fiber (A : Type) : Type :=
| Resolved (a : A)
| Rejected (e : string)
| Starved
| AwaitInfo (user : string) (k : User → Fiber A)
| AwaitConversations (req : ConvReq) (k : ConvResponse → Fiber A).
Arguments Resolved {A} a.
Arguments Rejected {A} e.
Arguments Starved {A}.
Arguments AwaitInfo {A} user k.
Arguments AwaitConversations {A} req k.

(** The call waits for a reply. *)
Definition waiting {A} (f : Fiber A) : bool :=
  match f with
  | AwaitInfo _ _ | AwaitConversations _ _ => true
  | _ => false
  end.

(** The number of requests in flight. *)
Definition pending {A} (fs : list (Fiber A)) : nat :=
  length (filter (λ f, waiting f = true) fs).

(** A call whose result nobody waits for any more. *)
Fixpoint detach {A} (f : Fiber A) : Fiber unit :=
  match f with
  | Resolved _ => Resolved tt
  | Rejected e => Rejected e
  | Starved => Starved
  | AwaitInfo id k => AwaitInfo id (λ u, detach (k u))
  | AwaitConversations req k => AwaitConversations req (λ res, detach (k res))
  end.

(** What a [Promise.all] over the calls [fs] has come to: rejected as soon
    as a member is rejected, fulfilled with all results when every member
    is resolved. *)
Fixpoint rejection {A} (fs : list (Fiber A)) : option string :=
  match fs with
  | [] => None
  | Rejected e :: _ => Some e
  | _ :: fs' => rejection fs'
  end.

Definition starved {A} (fs : list (Fiber A)) : bool :=
  existsb (λ f, match f with Starved => true | _ => false end) fs.

Fixpoint results {A} (fs : list (Fiber A)) : option (list A) :=
  match fs with
  | [] => Some []
  | Resolved a :: fs' => cons a <$> results fs'
  | _ => None
  end.

(** The requests left in flight by a rejected [Promise.all], with the
    number of replies that can still come. *)
Record Pool := mkPool {
  reserve : nat;
  inflight : list (Fiber unit)
}.

Definition idle : Pool := mkPool 0 [].

(** The handler itself: it reads the history and the requests in flight,
    and returns its outcome, the events emitted and the requests then in
    flight. *)
Definition P (A : Type) : Type :=
  list Event → Pool → Outcome A * list Event * Pool.

Definition ret {A} (a : A) : P A := λ _ bg, (Done a, [], bg).

Definition throw {A} (e : string) : P A := λ _ bg, (Thrown e, [], bg).

Definition bind {A B} (m : P A) (f : A → P B) : P B :=
  λ h bg,
    match m h bg with
    | (Done a, es, bg') =>
        let '(r, es', bg'') := f a (h ++ es) bg' in (r, es ++ es', bg'')
    | (Thrown e, es, bg') => (Thrown e, es, bg')
    | (OutOfFuel, es, bg') => (OutOfFuel, es, bg')
    end.

Notation "'let!' x ':=' m 'in' k" := (bind m (λ x, k))
  (at level 10, x name, m at level 100, k at level 200).
Notation "'do!' m 'in' k" := (bind m (λ _, k))
  (at level 10, m at level 100, k at level 200).

(** A computation during which nothing else is in flight. *)
Definition lift {A} (m : M A) : P A :=
  λ h bg, let '(r, es) := m h in (r, es, bg).

(** [try { body } catch (error) { handler }]. *)
Definition tryCatch {A} (body : P A) (handler : string → P A) : P A :=
  λ h bg,
    match body h bg with
    | (Thrown e, es, bg') =>
        let '(r, es', bg'') := handler e (h ++ es) bg' in (r, es ++ es', bg'')
    | other => other
    end.

(** Reading a property of [xs[i]]: a [TypeError] when the element is
    [undefined]. *)
Definition element {A} (xs : list A) (i : nat) (prop : string) : P A :=
  match xs !! i with
  | Some x => ret x
  | None =>
      throw ("Cannot read properties of undefined (reading '" +:+ prop +:+ "')")
  end.

(** [async (id) => { const response = await app.client.users.info({ user:
    id }); return response.user; }], called with [id]. *)
Definition usersInfo (id : string) : Fiber User := AwaitInfo id Resolved.

Section Client.

Variable U : Upstream.

(** The reply to the request of a waiting call arrives. *)
Definition deliver {A} (f : Fiber A) (h : list Event)
    : Fiber A * list Event :=
  match f with
  | AwaitInfo id k =>
      let r := users_info U h id in
      (match r with inl e => Rejected e | inr u => k u end,
       [EvUsersInfo id r])
  | AwaitConversations req k =>
      let r := users_conversations U h req in
      (match r with inl e => Rejected e | inr res => k res end,
       [EvConversations req r])
  | _ => (f, [])
  end.

(** [await f], with nothing else in flight: the replies come one after
    another. *)
Fixpoint await {A} (f : Fiber A) : M A :=
  λ h,
    match f with
    | Resolved a => (Done a, [])
    | Rejected e => (Thrown e, [])
    | Starved => (OutOfFuel, [])
    | AwaitInfo id k =>
        let r := users_info U h id in
        match r with
        | inl e => (Thrown e, [EvUsersInfo id r])
        | inr u =>
            let '(o, es) := await (k u) (h ++ [EvUsersInfo id r]) in
            (o, EvUsersInfo id r :: es)
        end
    | AwaitConversations req k =>
        let r := users_conversations U h req in
        match r with
        | inl e => (Thrown e, [EvConversations req r])
        | inr res =>
            let '(o, es) := await (k res) (h ++ [EvConversations req r]) in
            (o, EvConversations req r :: es)
        end
    end.

(** The reply to the [i]-th of the requests in flight arrives. *)
Fixpoint serve {A} (i : nat) (fs : list (Fiber A)) (h : list Event)
    : list (Fiber A) * list Event :=
  match fs with
  | [] => ([], [])
  | f :: fs' =>
      if waiting f then
        match i with
        | O => let '(f', ev) := deliver f h in (f' :: fs', ev)
        | S i' => let '(fs'', ev) := serve i' fs' h in (f :: fs'', ev)
        end
      else let '(fs'', ev) := serve i fs' h in (f :: fs'', ev)
  end.

(** The next reply, as the upstream times it. *)
Definition reply {A} (fs : list (Fiber A)) (h : list Event)
    : list (Fiber A) * list Event :=
  serve (answered_next U h (pending fs) `mod` pending fs) fs h.

(** [Promise.all] over calls in flight: replies arrive, in the order the
    upstream chooses, until a member is rejected or all are resolved; [n]
    bounds the number of replies.  The members that still wait when it is
    over are returned with what is left of [n]. *)
Fixpoint settleAll {A} (n : nat) (fs : list (Fiber A)) (h : list Event)
    : Outcome (list A) * list Event * (nat * list (Fiber A)) :=
  match rejection fs with
  | Some e => (Thrown e, [], (n, fs))
  | None =>
      if starved fs then (OutOfFuel, [], (n, fs))
      else
        match results fs with
        | Some xs => (Done xs, [], (n, fs))
        | None =>
            match n with
            | O => (OutOfFuel, [], (n, fs))
            | S n' =>
                let '(fs', ev) := reply fs h in
                let '(o, es, rest) := settleAll n' fs' (h ++ ev) in
                (o, ev ++ es, rest)
            end
        end
  end.

(** [await Promise.all(ps)], the members called in array order before
    anything is awaited.  A rejection leaves the other members in
    flight. *)
Definition promiseAll {A} (n : nat) (ps : list (Fiber A)) : P (list A) :=
  λ h bg,
    let '(o, es, (n', fs)) := settleAll n ps h in
    (o, es,
     match o with
     | Thrown _ =>
         mkPool (reserve bg + n')
           (inflight bg ++ (detach <$> filter (λ f, waiting f = true) fs))
     | _ => bg
     end).

(** At most [n] replies to requests that nobody waits for arrive. *)
Fixpoint advance (n : nat) (fs : list (Fiber unit)) (h : list Event)
    : list Event * list (Fiber unit) :=
  match n with
  | O => ([], fs)
  | S n' =>
      if decide (pending fs = 0) then ([], fs)
      else
        let '(fs', ev) := reply fs h in
        let '(es, fs'') := advance n' fs' (h ++ ev) in
        (ev ++ es, fs'')
  end.

(** What arrives while the handler is held up. *)
Definition meanwhile (bg : Pool) (h : list Event) : list Event * Pool :=
  let '(es, fs) :=
    advance (reserve bg `min` answered_meanwhile U h) (inflight bg) h in
  (es, mkPool (reserve bg - length es) fs).

(** [await ack()]. *)
Definition ack : P unit :=
  λ h bg, let r := ack_result U h in (settled r, [EvAck r], bg).

(** [console.error(...)] with the error [e]. *)
Definition console_error (e : string) : P unit :=
  λ h bg, let '(es, bg') := meanwhile bg h in (Done tt, es ++ [EvLog e], bg').

(** [await say(m)]. *)
Definition say (m : Message) : P unit :=
  λ h bg,
    let '(es, bg') := meanwhile bg h in
    let r := say_result U (h ++ es) m in
    (settled r, es ++ [EvSay m r], bg').

(** One invocation of a listener: nothing is in flight when it starts,
    and what it leaves in flight is answered after it has returned. *)
Definition invocation (body : P unit) : M unit :=
  λ h,
    let '(o, es, bg) := body h idle in
    let '(es', _) := advance (reserve bg) (inflight bg) (h ++ es) in
    (o, es ++ es').

End Client.

(** ** The comparison of two channel lists

    [new Set(cs.map(c => c.id))] is a finite set of strings; [s.has(x)] is
    membership in it. *)

Definition idSet (cs : list Channel) : gset string :=
  list_to_set (ch_id <$> cs).

(** The link line of a channel, [`- <#${c.id}|${c.name}>`]. *)
Definition channelLink (c : Channel) : string :=
  "- <#" +:+ ch_id c +:+ "|" +:+ ch_name c +:+ ">".

(** ** src/app.js *)

Module Http.

(** Lines 27-30: [users] and [userIds]. *)
Definition users (command_text : string) : list string :=
  split_ws (trim command_text).

Definition userIds (command_text : string) : list string :=
  filterNotNull (extractUserId <$> users command_text).

(** [`${user.real_name}`]: an absent property prints as [undefined]. *)
Definition real_name (u : User) : string :=
  match u_real_name u with
  | Some s => s
  | None => "undefined"
  end.

(** Lines 34-45: the answer when no user is mentioned. *)
Definition usageHint : Message :=
  {| blocks := Some [MrkdwnSection
       ("Please specify one or two users to get their channel list. "
        +:+ nl +:+ nl +:+ "*Usage:* `/channel-list @user1 [@user2]`")];
     text := "Please specify one or two users to get their channel list. Usage: /channel-list @user1 [@user2]" |}.

(** Lines 174-185: the answer when more than two users are mentioned. *)
Definition tooManyUsers : Message :=
  {| blocks := Some [MrkdwnSection
       ("This command supports a maximum of two users. "
        +:+ nl +:+ nl +:+ "*Usage:* `/channel-list @user1 [@user2]`")];
     text := "This command supports a maximum of two users." |}.

(** Lines 190-192: the answer of the [catch] clause. *)
Definition errorMessage (error_message : string) : Message :=
  {| blocks := None;
     text := "An error occurred while processing your request. Please check the permissions and try again. Error: "
             +:+ error_message |}.

(** Lines 78-90: the single-user report. *)
Definition channelList (chans : list Channel) : string :=
  join nl ((λ c, "- #" +:+ ch_name c) <$> chans).

Definition singleReport (user1Info : User) (chans : list Channel) : Message :=
  {| blocks := Some [MrkdwnSection
       ("*Here is the list of channels for " +:+ real_name user1Info +:+ ":*"
        +:+ nl +:+ nl +:+ "Total Channels: " +:+ num (length chans)
        +:+ nl +:+ nl +:+ channelList chans)];
     text := "Channel list for " +:+ real_name user1Info +:+ "." |}.

(** Lines 103-108. *)
Definition channels1Ids (channels1 : list Channel) : gset string :=
  idSet channels1.
Definition channels2Ids (channels2 : list Channel) : gset string :=
  idSet channels2.

Definition sharedChannels (channels1 channels2 : list Channel) : list Channel :=
  filter (λ c, ch_id c ∈ channels2Ids channels2) channels1.
Definition user1UniqueChannels (channels1 channels2 : list Channel) : list Channel :=
  filter (λ c, ¬ ch_id c ∈ channels2Ids channels2) channels1.
Definition user2UniqueChannels (channels1 channels2 : list Channel) : list Channel :=
  filter (λ c, ¬ ch_id c ∈ channels1Ids channels1) channels2.

(** Lines 110-125. *)
Definition getChannelText (channel : Channel) : string :=
  let link := "<#" +:+ ch_id channel +:+ "|" +:+ ch_name channel +:+ ">" in
  "- " +:+ link.

Definition sharedChannelList (shared : list Channel) : string :=
  if decide (0 < length shared) then join nl (getChannelText <$> shared)
  else "No shared channels found.".

Definition userUniqueList (userInfo : User) (unique : list Channel) : string :=
  if decide (0 < length unique) then join nl (getChannelText <$> unique)
  else real_name userInfo +:+ " has no unique channels.".

(** Lines 127-171: the two-user report. *)
Definition comparisonReport (user1Info user2Info : User)
    (channels1 channels2 : list Channel) : Message :=
  let shared := sharedChannels channels1 channels2 in
  let unique1 := user1UniqueChannels channels1 channels2 in
  let unique2 := user2UniqueChannels channels1 channels2 in
  {| blocks := Some [
       MrkdwnSection
         ("*Channel Membership Report for " +:+ real_name user1Info
          +:+ " and " +:+ real_name user2Info +:+ "*");
       Divider;
       MrkdwnSection
         ("*Total Channels:* " +:+ num (length channels1) +:+ " for "
          +:+ real_name user1Info +:+ ", " +:+ num (length channels2)
          +:+ " for " +:+ real_name user2Info +:+ nl
          +:+ "*Shared Channels:* " +:+ num (length shared) +:+ nl
          +:+ "*Unique Channels:* " +:+ num (length unique1) +:+ " for "
          +:+ real_name user1Info +:+ ", " +:+ num (length unique2)
          +:+ " for " +:+ real_name user2Info);
       Divider;
       MrkdwnSection ("*Shared Channels*" +:+ nl +:+ sharedChannelList shared);
       MrkdwnSection
         ("*Channels Unique to " +:+ real_name user1Info +:+ "*" +:+ nl
          +:+ userUniqueList user1Info unique1);
       MrkdwnSection
         ("*Channels Unique to " +:+ real_name user2Info +:+ "*" +:+ nl
          +:+ userUniqueList user2Info unique2)];
     text := "Channel membership report." |}.

Section Handler.

Variable U : Upstream.

(** Lines 56-70: the [do ... while (cursor)] loop of
    [fetchUserChannels]; [fuel] bounds the number of iterations. *)
Fixpoint fetchLoop (fuel : nat) (userId : string)
    (allChannels : list Channel) (cursor : option string)
    : Fiber (list Channel) :=
  match fuel with
  | O => Starved
  | S fuel' =>
      AwaitConversations
        {| rq_user := userId;
           rq_types := "public_channel,private_channel";
           rq_limit := 100;
           rq_cursor := cursor |}
        (λ result,
           let allChannels := allChannels ++ channels result in
           let cursor :=
             match response_metadata result with
             | Some metadata => next_cursor metadata
             | None => None
             end in
           if truthy cursor then fetchLoop fuel' userId allChannels cursor
           else Resolved allChannels)
  end.

(** The call [fetchUserChannels(userId)]: the loop, in flight. *)
Definition fetchUserChannelsAsync (fuel : nat) (userId : string)
    : Fiber (list Channel) :=
  fetchLoop fuel userId [] None.

(** [await fetchUserChannels(userId)]. *)
Definition fetchUserChannels (fuel : nat) (userId : string)
    : M (list Channel) :=
  await U (fetchUserChannelsAsync fuel userId).

(** Lines 25-187: the body of the [try] block.  Every lookup is answered
    once, and each of the two loops at most [fuel] times. *)
Definition tryBlock (fuel : nat) (command_text : string) : P unit :=
  let userIds := userIds command_text in
  if decide (length userIds = 0) then say U usageHint
  else
    let! userInfo := promiseAll U (length userIds) (usersInfo <$> userIds) in
    if decide (length userIds = 1) then
      let! user1Info := element userInfo 0 "id" in
      let! chans := lift (fetchUserChannels fuel (u_id user1Info)) in
      say U (singleReport user1Info chans)
    else if decide (length userIds = 2) then
      let! user1Info := element userInfo 0 "id" in
      let! user2Info := element userInfo 1 "id" in
      let! both := promiseAll U (fuel + fuel)
        [fetchUserChannelsAsync fuel (u_id user1Info);
         fetchUserChannelsAsync fuel (u_id user2Info)] in
      let! channels1 := element both 0 "map" in
      let! channels2 := element both 1 "map" in
      say U (comparisonReport user1Info user2Info channels1 channels2)
    else say U tooManyUsers.

(** Lines 21-194: the [/channel-list] command handler. *)
Definition handler (fuel : nat) (command_text : string) : M unit :=
  invocation U
    (do! ack U in
     tryCatch (tryBlock fuel command_text)
       (λ error, do! console_error U error in say U (errorMessage error))).

End Handler.

End Http.

(** ** The Socket Mode variant (src/unnamed/part_000) *)

Module Socket.

(** Lines 31-32: [users] and [userIds].  [(command.text || '')] is the
    text itself for a string. *)
Definition users (command_text : string) : list string :=
  filter (λ s, s ≠ EmptyString) (split_ws (trim command_text)).

Definition userIds (command_text : string) : list string :=
  filterBoolean (extractUserId <$> users command_text).

(** [u.real_name || u.name]. *)
Definition displayName (u : User) : string :=
  if truthy (u_real_name u) then default EmptyString (u_real_name u)
  else u_name u.

(** Lines 35-43: the usage answer. *)
Definition usageHint : Message :=
  {| blocks := Some [MrkdwnSection
       ("Please specify *one or two* users." +:+ nl +:+ nl
        +:+ "*Usage:* `/channel-list @user1 [@user2]`")];
     text := "Please specify one or two users. Usage: /channel-list @user1 [@user2]" |}.

(** Line 106: the answer of the [catch] clause. *)
Definition errorMessage (err_message : string) : Message :=
  {| blocks := None; text := "An error occurred: " +:+ err_message |}.

(** Line 88 (and line 70, the same template). *)
Definition link (c : Channel) : string :=
  "- <#" +:+ ch_id c +:+ "|" +:+ ch_name c +:+ ">".

(** [list || '_No channels found._']: the empty string is falsy. *)
Definition listOr (list placeholder : string) : string :=
  if truthy (Some list) then list else placeholder.

(** Lines 70-79: the single-user report. *)
Definition singleReport (u1 : User) (ch : list Channel) : Message :=
  let list := join nl (link <$> ch) in
  {| blocks := Some [MrkdwnSection
       ("*Channels for " +:+ displayName u1 +:+ ":*" +:+ nl +:+ nl
        +:+ "*Total:* " +:+ num (length ch) +:+ nl +:+ nl
        +:+ listOr list "_No channels found._")];
     text := "Channel list for " +:+ displayName u1 +:+ "." |}.

(** Lines 83-87. *)
Definition s1 (c1 : list Channel) : gset string := idSet c1.
Definition s2 (c2 : list Channel) : gset string := idSet c2.

Definition shared (c1 c2 : list Channel) : list Channel :=
  filter (λ c, ch_id c ∈ s2 c2) c1.
Definition u1Only (c1 c2 : list Channel) : list Channel :=
  filter (λ c, ¬ ch_id c ∈ s2 c2) c1.
Definition u2Only (c1 c2 : list Channel) : list Channel :=
  filter (λ c, ¬ ch_id c ∈ s1 c1) c2.

(** [xs.length ? xs.map(link).join('\n') : placeholder]. *)
Definition linksOr (xs : list Channel) (placeholder : string) : string :=
  if decide (length xs ≠ 0) then join nl (link <$> xs) else placeholder.

(** Lines 90-102: the two-user report. *)
Definition comparisonReport (u1 u2 : User) (c1 c2 : list Channel) : Message :=
  {| blocks := Some [
       MrkdwnSection
         ("*Channel Membership Report for " +:+ displayName u1 +:+ " and "
          +:+ displayName u2 +:+ "*");
       Divider;
       MrkdwnSection
         ("*Totals:* " +:+ num (length c1) +:+ " for " +:+ displayName u1
          +:+ ", " +:+ num (length c2) +:+ " for " +:+ displayName u2 +:+ nl
          +:+ "*Shared:* " +:+ num (length (shared c1 c2)) +:+ nl
          +:+ "*Unique:* " +:+ num (length (u1Only c1 c2)) +:+ " vs "
          +:+ num (length (u2Only c1 c2)));
       Divider;
       MrkdwnSection
         ("*Shared Channels*" +:+ nl
          +:+ linksOr (shared c1 c2) "_No shared channels found._");
       MrkdwnSection
         ("*Unique to " +:+ displayName u1 +:+ "*" +:+ nl
          +:+ linksOr (u1Only c1 c2)
                ("_" +:+ displayName u1 +:+ " has no unique channels._"));
       MrkdwnSection
         ("*Unique to " +:+ displayName u2 +:+ "*" +:+ nl
          +:+ linksOr (u2Only c1 c2)
                ("_" +:+ displayName u2 +:+ " has no unique channels._"))];
     text := "Channel membership report." |}.

Section Handler.

Variable U : Upstream.

(** Lines 52-65: the [do ... while (cursor)] loop of
    [fetchUserChannels]; [fuel] bounds the number of iterations.
    [res.channels || []] is the array itself. *)
Fixpoint fetchLoop (fuel : nat) (userId : string)
    (all : list Channel) (cursor : option string) : Fiber (list Channel) :=
  match fuel with
  | O => Starved
  | S fuel' =>
      AwaitConversations
        {| rq_user := userId;
           rq_types := "public_channel,private_channel";
           rq_limit := 100;
           rq_cursor := cursor |}
        (λ res,
           let all := all ++ channels res in
           let next := response_metadata res ≫= next_cursor in
           let cursor := if truthy next then next else None in
           if truthy cursor then fetchLoop fuel' userId all cursor
           else Resolved all)
  end.

(** The call [fetchUserChannels(userId)]: the loop, in flight. *)
Definition fetchUserChannelsAsync (fuel : nat) (userId : string)
    : Fiber (list Channel) :=
  fetchLoop fuel userId [] None.

(** [await fetchUserChannels(userId)]. *)
Definition fetchUserChannels (fuel : nat) (userId : string)
    : M (list Channel) :=
  await U (fetchUserChannelsAsync fuel userId).

(** Lines 30-103: the body of the [try] block.  Every lookup is answered
    once, and each of the two loops at most [fuel] times. *)
Definition tryBlock (fuel : nat) (command_text : string) : P unit :=
  let userIds := userIds command_text in
  if decide (length userIds = 0 ∨ 2 < length userIds) then say U usageHint
  else
    let! userInfo := promiseAll U (length userIds) (usersInfo <$> userIds) in
    if decide (length userIds = 1) then
      let! u1 := element userInfo 0 "id" in
      let! ch := lift (fetchUserChannels fuel (u_id u1)) in
      say U (singleReport u1 ch)
    else
      let! u1 := element userInfo 0 "id" in
      let! u2 := element userInfo 1 "id" in
      let! both := promiseAll U (fuel + fuel)
        [fetchUserChannelsAsync fuel (u_id u1);
         fetchUserChannelsAsync fuel (u_id u2)] in
      let! c1 := element both 0 "map" in
      let! c2 := element both 1 "map" in
      say U (comparisonReport u1 u2 c1 c2).

(** Lines 27-108: the [/channel-list] command handler. *)
Definition handler (fuel : nat) (command_text : string) : M unit :=
  invocation U
    (do! ack U in
     tryCatch (tryBlock fuel command_text)
       (λ err, do! console_error U err in say U (errorMessage err))).

End Handler.

End Socket.

(** ** The Input Parser in the words of the specification *)

Fixpoint string_forall (p : ascii → bool) (s : string) : bool :=
  match s with
  | EmptyString => true
  | String c s' => p c && string_forall p s'
  end.

(** "Split on whitespace, empty tokens discarded": the tokens are the
    maximal runs of characters that are not white space.  [cur] is the run
    read so far. *)
Definition flush (cur : string) : list string :=
  if decide (cur = EmptyString) then [] else [cur].

Fixpoint spec_tokens_go (cur s : string) : list string :=
  match s with
  | EmptyString => flush cur
  | String c s' =>
      if is_space c then flush cur ++ spec_tokens_go EmptyString s'
      else spec_tokens_go (cur +:+ String c EmptyString) s'
  end.

Definition spec_tokens (text : string) : list string :=
  spec_tokens_go EmptyString text.

(** The same tokens, described rather than computed: the text is white
    space, then a word (a non-empty run without white space) that ends at
    the end of the text or before a white-space character, and so on. *)
Definition blank (s : string) : Prop := string_forall is_space s = true.

Definition word (s : string) : Prop :=
  s ≠ EmptyString ∧ string_forall (λ c, negb (is_space c)) s = true.

Definition boundary (s : string) : Prop :=
  match s with
  | EmptyString => True
  | String c _ => is_space c = true
  end.

Inductive tokens_of : string → list string → Prop :=
| tokens_blank ws : blank ws → tokens_of ws []
| tokens_word ws t rest toks :
    blank ws → word t → boundary rest → tokens_of rest toks →
    tokens_of (ws +:+ t +:+ rest) (t :: toks).

(** "Extract a user ID from each via the mention pattern; tokens that do
    not match are silently dropped": one ID per matching token, in token
    order, duplicates kept. *)
Definition spec_parse (text : string) : list string :=
  omap extractUserId (spec_tokens text).

(** The mention pattern: angle bracket, [@], a non-empty ID of upper-case
    letters and digits, closing angle bracket; [pre] and [post] are what
    the token has around it. *)
Definition mention_at (tok pre id post : string) : Prop :=
  tok = pre +:+ "<@" +:+ id +:+ ">" +:+ post
  ∧ id ≠ EmptyString
  ∧ string_forall is_id_char id = true.

(** What extraction owes to a token: the ID of its leftmost mention, or
    nothing when the token has no mention. *)
Definition extract_spec (tok : string) (r : option string) : Prop :=
  match r with
  | Some id =>
      ∃ pre post, mention_at tok pre id post
        ∧ ∀ pre' id' post', mention_at tok pre' id' post' →
            (String.length pre ≤ String.length pre')%nat
  | None => ∀ pre id post, ¬ mention_at tok pre id post
  end.

(** ** Vocabulary for the Channel Fetcher *)

(** The request both loops send for a user and a cursor. *)
Definition page_request (userId : string) (cursor : option string) : ConvReq :=
  {| rq_user := userId;
     rq_types := "public_channel,private_channel";
     rq_limit := 100;
     rq_cursor := cursor |}.

(** The non-empty next cursor of a page, if it carries one. *)
Definition page_cursor (res : ConvResponse) : option string :=
  let next := response_metadata res ≫= next_cursor in
  if truthy next then next else None.

Definition page_event (userId : string) (cursor : option string)
    (r : string + ConvResponse) : Event :=
  EvConversations (page_request userId cursor) r.

(** The upstream serves the pages [pages] to a pagination for [userId] that
    starts with [cursor] after history [h]: every page but the last carries
    a non-empty next cursor, which the next request presents. *)
Inductive serves (U : Upstream) (userId : string)
    : list Event → option string → list ConvResponse → Prop :=
| serves_last h cursor res :
    users_conversations U h (page_request userId cursor) = inr res →
    page_cursor res = None →
    serves U userId h cursor [res]
| serves_more h cursor res k pages :
    users_conversations U h (page_request userId cursor) = inr res →
    page_cursor res = Some k →
    serves U userId (h ++ [page_event userId cursor (inr res)]) (Some k) pages →
    serves U userId h cursor (res :: pages).

(** The requests of a pagination that receives [pages]. *)
Fixpoint page_events (userId : string) (cursor : option string)
    (pages : list ConvResponse) : list Event :=
  match pages with
  | [] => []
  | res :: pages' =>
      page_event userId cursor (inr res)
      :: page_events userId (page_cursor res) pages'
  end.

(** The upstream ends a pagination after finitely many requests: some
    request fails, or some page comes without a non-empty next cursor. *)
Inductive halts (U : Upstream) (userId : string)
    : list Event → option string → Prop :=
| halts_error h cursor e :
    users_conversations U h (page_request userId cursor) = inl e →
    halts U userId h cursor
| halts_last h cursor res :
    users_conversations U h (page_request userId cursor) = inr res →
    page_cursor res = None →
    halts U userId h cursor
| halts_more h cursor res k :
    users_conversations U h (page_request userId cursor) = inr res →
    page_cursor res = Some k →
    halts U userId (h ++ [page_event userId cursor (inr res)]) (Some k) →
    halts U userId h cursor.

(** A timing for the concrete upstreams below: requests in flight together
    are answered in turn, the oldest first and the loops one page each. *)
Definition is_page (ev : Event) : bool :=
  match ev with
  | EvConversations _ _ => true
  | _ => false
  end.

Definition taking_turns (h : list Event) (n : nat) : nat :=
  length (filter (λ ev, is_page ev = true) h).

(** An upstream that answers every page request with one channel and the
    same non-empty cursor. *)
Definition repeating_upstream : Upstream :=
  {| users_info := λ _ id, inr (mkUser id None id);
     users_conversations := λ _ _,
       inr {| channels := [mkChannel "C1" "general"];
              response_metadata := Some {| next_cursor := Some "again" |} |};
     ack_result := λ _, None;
     say_result := λ _ _, None;
     answered_next := taking_turns;
     answered_meanwhile := λ _, 1 |}.

(** The upstream ends every pagination for [userId] that has come to
    [cursor] within [n] further pages, whatever else has happened: a page
    with a non-empty next cursor is followed by at most [n - 1] more. *)
Fixpoint paginates_within (U : Upstream) (userId : string)
    (cursor : option string) (n : nat) {struct n} : Prop :=
  ∀ h res k,
    users_conversations U h (page_request userId cursor) = inr res →
    page_cursor res = Some k →
    match n with
    | O => False
    | S n' => paginates_within U userId (Some k) n'
    end.

(** ** Vocabulary for traces *)

Definition is_remote (ev : Event) : bool :=
  match ev with
  | EvUsersInfo _ _ | EvConversations _ _ => true
  | _ => false
  end.

(** The message of the failure an event records, if it records one. *)
Definition failure (ev : Event) : option string :=
  match ev with
  | EvUsersInfo _ (inl e) | EvConversations _ (inl e) => Some e
  | _ => None
  end.

(** The messages the handler tried to say, in order. *)
Definition says (t : list Event) : list Message :=
  omap (λ ev, match ev with EvSay m _ => Some m | _ => None end) t.

(** The content responses that were sent: the messages whose [say]
    succeeded. *)
Definition delivered (t : list Event) : list Message :=
  omap (λ ev, match ev with EvSay m None => Some m | _ => None end) t.

(** The remote calls of a trace, in order. *)
Definition remote_calls (t : list Event) : list Event :=
  filter (λ ev, is_remote ev = true) t.

(** The failure messages recorded in a trace, in order. *)
Definition failures (t : list Event) : list string := omap failure t.

Definition is_ack (ev : Event) : bool :=
  match ev with
  | EvAck _ => true
  | _ => false
  end.

(** The upstream never rejects [ack] or [say]. *)
Definition reliable_outbound (U : Upstream) : Prop :=
  (∀ h, ack_result U h = None) ∧ (∀ h m, say_result U h m = None).

(** Remote calls only. *)
Definition remote (t : list Event) : Prop :=
  Forall (λ ev, is_remote ev = true) t.

(** Remote calls that all succeeded. *)
Definition clean (t : list Event) : Prop :=
  Forall (λ ev, is_remote ev = true ∧ failure ev = None) t.

(** An event that records an answer of the upstream [U] to a remote
    call. *)
Definition answer_of (U : Upstream) (ev : Event) : Prop :=
  match ev with
  | EvUsersInfo id r => ∃ h, users_info U h id = r
  | EvConversations req r => ∃ h, users_conversations U h req = r
  | _ => False
  end.

(** A call that is rejected only by a rejected request. *)
Fixpoint honest {A} (f : Fiber A) : Prop :=
  match f with
  | Rejected _ => False
  | Resolved _ | Starved => True
  | AwaitInfo _ k => ∀ u, honest (k u)
  | AwaitConversations _ k => ∀ res, honest (k res)
  end.

(** The call comes to an end within [n] replies, whatever the upstream [U]
    answers and whatever else happens meanwhile. *)
Fixpoint lasts {A} (U : Upstream) (f : Fiber A) (n : nat) : Prop :=
  match f with
  | Resolved _ | Rejected _ => True
  | Starved => False
  | AwaitInfo id k =>
      match n with
      | O => False
      | S n' => ∀ h u, users_info U h id = inr u → lasts U (k u) n'
      end
  | AwaitConversations req k =>
      match n with
      | O => False
      | S n' =>
          ∀ h res, users_conversations U h req = inr res → lasts U (k res) n'
      end
  end.

(** A stage of the [try] block that only talks to the directory service,
    started with nothing in flight: its remote calls succeeded and it is
    done; or they succeeded up to one that failed, which is the last event
    and the error thrown, with requests possibly left in flight; or they
    succeeded and something else was thrown; or a loop was cut off. *)
Inductive stage {A} : Outcome A * list Event * Pool → Prop :=
| stage_done a pre :
    clean pre → stage (Done a, pre, idle)
| stage_failed e pre ev bg :
    clean pre → is_remote ev = true → failure ev = Some e →
    stage (Thrown e, pre ++ [ev], bg)
| stage_threw e pre :
    clean pre → stage (Thrown e, pre, idle)
| stage_starved pre :
    clean pre → stage (OutOfFuel, pre, idle).

(** The [try] block as a whole: stages, and then one [say], whose outcome
    is the outcome of the block. *)
Inductive attempt (U : Upstream) : Outcome unit * list Event * Pool → Prop :=
| attempt_said pre m h :
    clean pre →
    attempt U (settled (say_result U h m),
               pre ++ [EvSay m (say_result U h m)], idle)
| attempt_failed e pre ev bg :
    clean pre → is_remote ev = true → failure ev = Some e →
    attempt U (Thrown e, pre ++ [ev], bg)
| attempt_threw e pre :
    clean pre → attempt U (Thrown e, pre, idle)
| attempt_starved pre :
    clean pre → attempt U (OutOfFuel, pre, idle).

Definition Stage {A} (m : P A) : Prop := ∀ h, stage (m h idle).
Definition Attempt (U : Upstream) (m : P unit) : Prop :=
  ∀ h, attempt U (m h idle).

(** The common frame of both handlers: acknowledge, try, catch. *)
Definition frame (U : Upstream) (body : P unit)
    (errorMessage : string → Message) : M unit :=
  invocation U
    (do! ack U in
     tryCatch body (λ e, do! console_error U e in say U (errorMessage e))).

(** The runs of a handler whose [catch] clause says [errorMessage e]:
    the acknowledgment was rejected; or the remote calls succeeded and the
    answer was said; or they succeeded, the answer was rejected and the
    [catch] clause said the error; or a remote call failed, and the
    [catch] clause logged and said the error while the requests left in
    flight ([b1], [b2], [b3]) were answered; or something else was thrown
    and the [catch] clause said the error; or a pagination was cut off by
    the budget.  The outcomes of [ack] and [say] are answers of the
    upstream. *)
Inductive run_shape (U : Upstream) (errorMessage : string → Message)
    : Outcome unit * list Event → Prop :=
| run_unacknowledged h e :
    ack_result U h = Some e →
    run_shape U errorMessage (Thrown e, [EvAck (Some e)])
| run_answered pre m h :
    clean pre →
    say_result U h m = None →
    run_shape U errorMessage (Done tt, EvAck None :: pre ++ [EvSay m None])
| run_answer_rejected pre m e r h h' :
    clean pre →
    say_result U h m = Some e →
    say_result U h' (errorMessage e) = r →
    run_shape U errorMessage
      (settled r,
       EvAck None :: pre
         ++ [EvSay m (Some e); EvLog e; EvSay (errorMessage e) r])
| run_failed pre ev e b1 b2 b3 r h' :
    clean pre → is_remote ev = true → failure ev = Some e →
    remote b1 → remote b2 → remote b3 →
    say_result U h' (errorMessage e) = r →
    run_shape U errorMessage
      (settled r,
       EvAck None :: pre ++ [ev] ++ b1 ++ [EvLog e] ++ b2
         ++ [EvSay (errorMessage e) r] ++ b3)
| run_threw pre e r h' :
    clean pre →
    say_result U h' (errorMessage e) = r →
    run_shape U errorMessage
      (settled r, EvAck None :: pre ++ [EvLog e; EvSay (errorMessage e) r])
| run_cut_off pre :
    clean pre →
    run_shape U errorMessage (OutOfFuel, EvAck None :: pre).

(** ** The two variants side by side *)

Inductive Variant := AppJs | SocketMode.

Definition handler_of (v : Variant) (U : Upstream) (fuel : nat)
    (command_text : string) : M unit :=
  match v with
  | AppJs => Http.handler U fuel command_text
  | SocketMode => Socket.handler U fuel command_text
  end.

Definition tryBlock_of (v : Variant) (U : Upstream) (fuel : nat)
    (command_text : string) : P unit :=
  match v with
  | AppJs => Http.tryBlock U fuel command_text
  | SocketMode => Socket.tryBlock U fuel command_text
  end.

Definition errorMessage_of (v : Variant) : string → Message :=
  match v with
  | AppJs => Http.errorMessage
  | SocketMode => Socket.errorMessage
  end.

Definition fetchUserChannels_of (v : Variant) (U : Upstream) (fuel : nat)
    (userId : string) : M (list Channel) :=
  match v with
  | AppJs => Http.fetchUserChannels U fuel userId
  | SocketMode => Socket.fetchUserChannels U fuel userId
  end.

Definition fetchLoop_of (v : Variant)
    : nat → string → list Channel → option string → Fiber (list Channel) :=
  match v with
  | AppJs => Http.fetchLoop
  | SocketMode => Socket.fetchLoop
  end.

Definition userIds_of (v : Variant) (command_text : string) : list string :=
  match v with
  | AppJs => Http.userIds command_text
  | SocketMode => Socket.userIds command_text
  end.

(** The IDs a variant looks up: all of them in app.js (line 50), none in
    the Socket Mode variant when more than two are given (line 34). *)
Definition looked_up (v : Variant) (ids : list string) : list string :=
  match v with
  | AppJs => ids
  | SocketMode => if decide (2 < length ids) then [] else ids
  end.

(** A user whom the upstream never resolves is among [ids]. *)
Definition unresolvable (U : Upstream) (ids : list string) : Prop :=
  ∃ id, id ∈ ids ∧ ∀ h, ∃ e, users_info U h id = inl e.

(** The upstream resolves every user and refuses every page request. *)
Definition unlistable (U : Upstream) : Prop :=
  (∀ h id, ∃ u, users_info U h id = inr u)
  ∧ ∀ h req, ∃ e, users_conversations U h req = inl e.

(** A member of the [Promise.all] of the lookups, for the user [id]:
    waiting, resolved by an answer of the upstream, or rejected. *)
Definition looking (U : Upstream) (id : string) (f : Fiber User) : Prop :=
  f = usersInfo id
  ∨ (∃ u h, users_info U h id = inr u ∧ f = Resolved u)
  ∨ (∃ e h, users_info U h id = inl e ∧ f = Rejected e).

(** Computations that are never cut off. *)
Definition finishing {A} (m : P A) : Prop :=
  ∀ h bg, (m h bg).1.1 ≠ OutOfFuel.

(** ** Concrete upstreams *)

Definition alice : User := mkUser "U111" (Some "Alice") "alice".
Definition bob : User := mkUser "U222" (Some "Bob") "bob".

Definition general : Channel := mkChannel "C1" "general".
Definition eng : Channel := mkChannel "C2" "eng".
Definition ops : Channel := mkChannel "C3" "ops".

(** A page without channels and without a next cursor. *)
Definition no_channels_page : ConvResponse :=
  {| channels := []; response_metadata := Some {| next_cursor := Some "" |} |}.

(** Every user ID resolves, and nobody is in any channel. *)
Definition empty_upstream : Upstream :=
  {| users_info := λ _ id, inr (mkUser id (Some id) id);
     users_conversations := λ _ _, inr no_channels_page;
     ack_result := λ _, None;
     say_result := λ _ _, None;
     answered_next := taking_turns;
     answered_meanwhile := λ _, 1 |}.

(** Alice is in [general] and [eng], served on two pages; Bob is in [eng]
    and [ops], served on one page; nobody else is known, and the channels
    of an unknown user cannot be listed. *)
Definition alice_page1 : ConvResponse :=
  {| channels := [general];
     response_metadata := Some {| next_cursor := Some "page2" |} |}.
Definition alice_page2 : ConvResponse :=
  {| channels := [eng]; response_metadata := Some {| next_cursor := Some "" |} |}.
Definition bob_page : ConvResponse :=
  {| channels := [eng; ops]; response_metadata := None |}.

Definition scenario_upstream : Upstream :=
  {| users_info := λ _ id,
       if String.eqb id "U111" then inr alice
       else if String.eqb id "U222" then inr bob
       else inl "user_not_found";
     users_conversations := λ _ req,
       if String.eqb (rq_user req) "U111" then
         match rq_cursor req with
         | None => inr alice_page1
         | Some _ => inr alice_page2
         end
       else if String.eqb (rq_user req) "U222" then inr bob_page
       else inl "missing_scope";
     ack_result := λ _, None;
     say_result := λ _ _, None;
     answered_next := taking_turns;
     answered_meanwhile := λ _, 1 |}.

(** Alice resolves, but listing her channels is refused. *)
Definition refusing_upstream : Upstream :=
  {| users_info := λ _ _, inr alice;
     users_conversations := λ _ _, inl "missing_scope";
     ack_result := λ _, None;
     say_result := λ _ _, None;
     answered_next := taking_turns;
     answered_meanwhile := λ _, 1 |}.

(** Nobody is in any channel, and the first [say] of an invocation is
    rejected. *)
Definition first_say_rejected : Upstream :=
  {| users_info := λ _ id, inr (mkUser id (Some id) id);
     users_conversations := λ _ _, inr no_channels_page;
     ack_result := λ _, None;
     say_result := λ h _,
       match says h with
       | [] => Some "invalid_blocks"
       | _ => None
       end;
     answered_next := taking_turns;
     answered_meanwhile := λ _, 1 |}.


(** The acknowledgment is rejected. *)
Definition unacknowledging_upstream : Upstream :=
  {| users_info := λ _ id, inr (mkUser id (Some id) id);
     users_conversations := λ _ _, inr no_channels_page;
     ack_result := λ _, Some "expired_trigger";
     say_result := λ _ _, None;
     answered_next := taking_turns;
     answered_meanwhile := λ _, 1 |}.

(** Every [say] is rejected. *)
Definition muted_upstream : Upstream :=
  {| users_info := λ _ id, inr (mkUser id (Some id) id);
     users_conversations := λ _ _, inr no_channels_page;
     ack_result := λ _, None;
     say_result := λ _ _, Some "channel_not_found";
     answered_next := taking_turns;
     answered_meanwhile := λ _, 1 |}.

(** Alice and Bob are known; Alice's first page arrives and her second is
    refused; Bob's channels cannot be listed. *)
Definition two_failures_upstream : Upstream :=
  {| users_info := λ _ id,
       if String.eqb id "U222" then inr bob else inr alice;
     users_conversations := λ _ req,
       if String.eqb (rq_user req) "U111" then
         match rq_cursor req with
         | None => inr alice_page1
         | Some _ => inl "ratelimited"
         end
       else inl "missing_scope";
     ack_result := λ _, None;
     say_result := λ _ _, None;
     answered_next := taking_turns;
     answered_meanwhile := λ _, 1 |}.

(** ** The set invariant of the comparison *)

Definition ids (cs : list Channel) : list string := ch_id <$> cs.

(** The invariant of the data model, for channel lists [c1], [c2] and the
    three derived lists.  Set equality is taken by channel identity, which
    is the channel ID. *)
Record set_invariant (c1 c2 sh only1 only2 : list Channel) : Prop := {
  inv_first : ∀ c, c ∈ c1 ↔ c ∈ sh ∨ c ∈ only1;
  inv_first_count : sh ++ only1 ≡ₚ c1;
  inv_second : ∀ i, i ∈ ids c2 ↔ i ∈ ids sh ∨ i ∈ ids only2;
  inv_second_records :
    (∀ a b, a ∈ c1 → b ∈ c2 → ch_id a = ch_id b → a = b) →
    ∀ c, c ∈ c2 ↔ c ∈ sh ∨ c ∈ only2;
  inv_only1_not_second : ∀ i, i ∈ ids only1 → i ∉ ids c2;
  inv_disj_sh_only1 : ∀ i, i ∈ ids sh → i ∉ ids only1;
  inv_disj_sh_only2 : ∀ i, i ∈ ids sh → i ∉ ids only2;
  inv_disj_only1_only2 : ∀ i, i ∈ ids only1 → i ∉ ids only2;
  inv_order_sh : sublist sh c1;
  inv_order_only1 : sublist only1 c1;
  inv_order_only2 : sublist only2 c2
}.

(** ** Vocabulary for further properties of the code *)

(** The mention of a user as it arrives in the command text,
    e.g. [<@U123456789>]. *)
Definition mention (id : string) : string := "<@" +:+ id +:+ ">".

(** A non-empty ID of upper-case letters and digits. *)
Definition valid_id (id : string) : Prop :=
  id ≠ EmptyString ∧ string_forall is_id_char id = true.

(** Not the opening angle bracket. *)
Definition not_open (c : ascii) : bool := negb (Ascii.eqb c "<").

Definition usageHint_of (v : Variant) : Message :=
  match v with
  | AppJs => Http.usageHint
  | SocketMode => Socket.usageHint
  end.

Definition singleReport_of (v : Variant) : User → list Channel → Message :=
  match v with
  | AppJs => Http.singleReport
  | SocketMode => Socket.singleReport
  end.

Definition comparisonReport_of (v : Variant)
    : User → User → list Channel → list Channel → Message :=
  match v with
  | AppJs => Http.comparisonReport
  | SocketMode => Socket.comparisonReport
  end.

(** The numbers of user IDs for which a variant answers with its usage
    hint before it looks anybody up: app.js tests for zero (line 33), the
    Socket Mode variant for zero or more than two (line 34). *)
Definition rejects_at_once (v : Variant) (n : nat) : Prop :=
  match v with
  | AppJs => n = 0
  | SocketMode => n = 0 ∨ 2 < n
  end.

(** The upstream serves [pages], each with a non-empty next cursor, and
    then fails the next request with message [e]. *)
Inductive breaks (U : Upstream) (userId : string)
    : list Event → option string → list ConvResponse → string → Prop :=
| breaks_now h cursor e :
    users_conversations U h (page_request userId cursor) = inl e →
    breaks U userId h cursor [] e
| breaks_later h cursor res k pages e :
    users_conversations U h (page_request userId cursor) = inr res →
    page_cursor res = Some k →
    breaks U userId (h ++ [page_event userId cursor (inr res)]) (Some k)
      pages e →
    breaks U userId h cursor (res :: pages) e.

(** The cursor in hand after [pages]. *)
Fixpoint cursor_after (cursor : option string) (pages : list ConvResponse)
    : option string :=
  match pages with
  | [] => cursor
  | res :: pages' => cursor_after (page_cursor res) pages'
  end.

(** A well-formed pagination for [userId] from [cursor]: every event is a
    page request for this user that presents the cursor in hand; a page
    with a non-empty next cursor hands that cursor to the next request;
    nothing follows a failure or a page without such a cursor. *)
Fixpoint chained (userId : string) (cursor : option string)
    (es : list Event) : Prop :=
  match es with
  | [] => True
  | ev :: rest =>
      ∃ r, ev = page_event userId cursor r
           ∧ match r with
             | inl _ => rest = []
             | inr res =>
                 match page_cursor res with
                 | Some k => chained userId (Some k) rest
                 | None => rest = []
                 end
             end
  end.

(** The lines of a text: its pieces between newline characters. *)
Fixpoint lines_go (cur s : string) : list string :=
  match s with
  | EmptyString => [cur]
  | String c s' =>
      if Ascii.eqb c (ascii_of_nat 10) then cur :: lines_go EmptyString s'
      else lines_go (cur +:+ String c EmptyString) s'
  end.

Definition lines (s : string) : list string := lines_go EmptyString s.

(** No newline in the ID or in the name. *)
Definition one_line (c : Channel) : Prop :=
  string_forall (λ a, negb (Ascii.eqb a (ascii_of_nat 10))) (ch_id c) = true
  ∧ string_forall (λ a, negb (Ascii.eqb a (ascii_of_nat 10))) (ch_name c)
    = true.

(** The three derived lists of a variant. *)
Definition shared_of (v : Variant) (c1 c2 : list Channel) : list Channel :=
  match v with
  | AppJs => Http.sharedChannels c1 c2
  | SocketMode => Socket.shared c1 c2
  end.

Definition only1_of (v : Variant) (c1 c2 : list Channel) : list Channel :=
  match v with
  | AppJs => Http.user1UniqueChannels c1 c2
  | SocketMode => Socket.u1Only c1 c2
  end.

Definition only2_of (v : Variant) (c1 c2 : list Channel) : list Channel :=
  match v with
  | AppJs => Http.user2UniqueChannels c1 c2
  | SocketMode => Socket.u2Only c1 c2
  end.

(** Alice's first page, then a refusal. *)
Definition second_page_fails : Upstream :=
  {| users_info := λ _ _, inr alice;
     users_conversations := λ _ req,
       match rq_cursor req with
       | None => inr alice_page1
       | Some _ => inl "ratelimited"
       end;
     ack_result := λ _, None;
     say_result := λ _ _, None;
     answered_next := taking_turns;
     answered_meanwhile := λ _, 1 |}.

(** * Theorems *)

(** ** The comparison *)

Section Comparison.

Lemma elem_of_idSet i (cs : list Channel) : i ∈ idSet cs ↔ i ∈ ids cs.
Proof. unfold idSet, ids. apply elem_of_list_to_set. Qed.

Lemma ids_filter_elem (P : Channel → Prop) `{!∀ c, Decision (P c)} cs i :
  i ∈ ids (filter P cs) ↔ ∃ c, c ∈ cs ∧ P c ∧ ch_id c = i.
Proof.
  unfold ids. rewrite list_elem_of_fmap. split.
  - intros (c & -> & Hc). apply list_elem_of_filter in Hc as [HP Hc]. eauto.
  - intros (c & Hc & HP & <-). exists c. split; [done|].
    apply list_elem_of_filter. done.
Qed.

Lemma ids_elem (cs : list Channel) c : c ∈ cs → ch_id c ∈ ids cs.
Proof. intros. unfold ids. by apply list_elem_of_fmap_2. Qed.

Lemma filter_in_set_all (cs : list Channel) :
  filter (λ c, ch_id c ∈ idSet cs) cs = cs.
Proof.
  assert (H : ∀ l : list Channel, (∀ c, c ∈ l → ch_id c ∈ idSet cs) →
                   filter (λ c, ch_id c ∈ idSet cs) l = l).
  { induction l as [|a l IH]; intros Hall; [done|].
    rewrite filter_cons_True by (apply Hall; left).
    f_equal. apply IH. intros c Hc. apply Hall. by right. }
  apply H. intros c Hc. apply elem_of_idSet. by apply ids_elem.
Qed.

Lemma filter_notin_set_none (cs : list Channel) :
  filter (λ c, ¬ ch_id c ∈ idSet cs) cs = [].
Proof.
  assert (H : ∀ l : list Channel, (∀ c, c ∈ l → ch_id c ∈ idSet cs) →
                   filter (λ c, ¬ ch_id c ∈ idSet cs) l = []).
  { induction l as [|a l IH]; intros Hall; [done|].
    rewrite filter_cons_False.
    - apply IH. intros c Hc. apply Hall. by right.
    - intros Hn. apply Hn, Hall. left. }
  apply H. intros c Hc. apply elem_of_idSet. by apply ids_elem.
Qed.

End Comparison.

(** C1.  For every pair of fetched channel lists, in both variants, the
    comparison satisfies the set invariant: shared together with the first
    user's unique list is the first user's list (as sets and with
    multiplicities), shared together with the second user's unique list
    covers exactly the second user's channel IDs, the three derived lists
    are pairwise disjoint by channel ID, and each derived list is a
    subsequence of the list it was filtered from.  Nothing is assumed about
    the two lists: they may overlap, be disjoint, be equal or be empty. *)
Theorem comparison_set_invariant (c1 c2 : list Channel) :
  set_invariant c1 c2
    (Http.sharedChannels c1 c2)
    (Http.user1UniqueChannels c1 c2)
    (Http.user2UniqueChannels c1 c2)
  ∧ set_invariant c1 c2
      (Socket.shared c1 c2) (Socket.u1Only c1 c2) (Socket.u2Only c1 c2).
Proof.
  assert (set_invariant c1 c2
            (filter (λ c, ch_id c ∈ idSet c2) c1)
            (filter (λ c, ¬ ch_id c ∈ idSet c2) c1)
            (filter (λ c, ¬ ch_id c ∈ idSet c1) c2)) as Hinv.
  { split.
    - intros c. rewrite !list_elem_of_filter.
      destruct (decide (ch_id c ∈ idSet c2)); tauto.
    - apply filter_app_complement.
    - intros i. rewrite !ids_filter_elem. split.
      + intros Hi. unfold ids in Hi. apply list_elem_of_fmap in Hi as (b & -> & Hb).
        destruct (decide (ch_id b ∈ idSet c1)) as [Hin|Hout].
        * left. apply elem_of_idSet in Hin. unfold ids in Hin.
          apply list_elem_of_fmap in Hin as (a & Hab & Ha).
          exists a. split; [done|]. split; [|done].
          rewrite <- Hab. apply elem_of_idSet. by apply ids_elem.
        * right. exists b. done.
      + intros [(a & Ha & Hin & <-)|(b & Hb & _ & <-)].
        * by apply elem_of_idSet.
        * by apply ids_elem.
    - intros Hsame c. rewrite !list_elem_of_filter. split.
      + intros Hc. destruct (decide (ch_id c ∈ idSet c1)) as [Hin|Hout].
        * left. apply elem_of_idSet in Hin. unfold ids in Hin.
          apply list_elem_of_fmap in Hin as (a & Hab & Ha).
          assert (a = c) as -> by (by apply Hsame).
          split; [|done]. apply elem_of_idSet. by apply ids_elem.
        * right. done.
      + intros [[Hin Hc]|[_ Hc]]; [|done].
        apply elem_of_idSet in Hin. unfold ids in Hin.
        apply list_elem_of_fmap in Hin as (b & Hcb & Hb).
        assert (c = b) as -> by (by apply Hsame). done.
    - intros i. rewrite ids_filter_elem. intros (c & _ & Hn & <-) Hi.
      apply Hn. by apply elem_of_idSet.
    - intros i. rewrite !ids_filter_elem.
      intros (a & _ & Hin & <-) (b & _ & Hn & Hab). apply Hn. by rewrite Hab.
    - intros i. rewrite !ids_filter_elem.
      intros (a & Ha & _ & <-) (b & _ & Hn & Hab). apply Hn.
      rewrite Hab. apply elem_of_idSet. by apply ids_elem.
    - intros i. rewrite !ids_filter_elem.
      intros (a & Ha & _ & <-) (b & _ & Hn & Hab). apply Hn.
      rewrite Hab. apply elem_of_idSet. by apply ids_elem.
    - apply sublist_filter.
    - apply sublist_filter.
    - apply sublist_filter. }
  split; exact Hinv.
Qed.

(** C10.  When both fetched lists are the same list, the shared list is
    that whole list and both unique lists are empty, in both variants. *)
Theorem comparison_of_equal_lists (cs : list Channel) :
  (Http.sharedChannels cs cs = cs
   ∧ Http.user1UniqueChannels cs cs = []
   ∧ Http.user2UniqueChannels cs cs = [])
  ∧ (Socket.shared cs cs = cs
     ∧ Socket.u1Only cs cs = []
     ∧ Socket.u2Only cs cs = []).
Proof.
  repeat split;
    first [ apply filter_in_set_all | apply filter_notin_set_none ].
Qed.

(** ** The Input Parser *)

Section Parser.

Lemma filter_nonempty_cons (cur : string) (l : list string) :
  filter (λ s, s ≠ EmptyString) (cur :: l)
  = flush cur ++ filter (λ s, s ≠ EmptyString) l.
Proof.
  rewrite filter_cons. unfold flush.
  destruct (decide (cur = EmptyString)) as [->|Hne].
  - rewrite decide_False by (intros H; by apply H). done.
  - rewrite decide_True by done. done.
Qed.

(** The non-empty pieces of [split(/\s+/)] are the tokens. *)
Lemma split_go_tokens (s : string) :
  ∀ in_sep cur, (in_sep = true → cur = EmptyString) →
    filter (λ t, t ≠ EmptyString) (split_go in_sep cur s)
    = spec_tokens_go cur s.
Proof.
  induction s as [|c s IH]; intros in_sep cur Hsep; simpl.
  - rewrite filter_nonempty_cons. simpl. by rewrite app_nil_r.
  - destruct (is_space c).
    + destruct in_sep.
      * rewrite (Hsep eq_refl). simpl. by apply IH.
      * rewrite filter_nonempty_cons. f_equal. by apply IH.
    + apply IH. intros [=].
Qed.

Lemma spec_tokens_trimStart (s : string) :
  spec_tokens (trimStart s) = spec_tokens s.
Proof.
  unfold spec_tokens. induction s as [|c s IH]; [done|].
  simpl. destruct (is_space c) eqn:Hc.
  - by rewrite IH.
  - simpl. by rewrite Hc.
Qed.

Lemma spec_tokens_go_trimEnd (s : string) :
  ∀ cur, spec_tokens_go cur (trimEnd s) = spec_tokens_go cur s.
Proof.
  induction s as [|c s IH]; intros cur; [done|].
  simpl. destruct (trimEnd s) as [|d r] eqn:Ht.
  - destruct (is_space c) eqn:Hc.
    + simpl. rewrite <- IH. simpl. by rewrite app_nil_r.
    + simpl. rewrite Hc. by rewrite <- IH.
  - change (spec_tokens_go cur (String c (String d r))
            = (if is_space c
               then flush cur ++ spec_tokens_go EmptyString s
               else spec_tokens_go (cur +:+ String c EmptyString) s)).
    rewrite <- !IH. reflexivity.
Qed.

Lemma spec_tokens_trim (s : string) : spec_tokens (trim s) = spec_tokens s.
Proof.
  unfold trim, spec_tokens. rewrite spec_tokens_go_trimEnd.
  apply spec_tokens_trimStart.
Qed.

Lemma split_trim_tokens (text : string) :
  filter (λ t, t ≠ EmptyString) (split_ws (trim text)) = spec_tokens text.
Proof.
  unfold split_ws. rewrite split_go_tokens by (intros [=]).
  apply spec_tokens_trim.
Qed.

(** *** The tokens are the words of the text *)

Lemma append_nil_r (s : string) : s +:+ EmptyString = s.
Proof.
  induction s as [|c s IH]; [done|].
  change (String c (s +:+ EmptyString) = String c s). by rewrite IH.
Qed.

Lemma append_assoc (s1 s2 s3 : string) :
  (s1 +:+ s2) +:+ s3 = s1 +:+ (s2 +:+ s3).
Proof.
  induction s1 as [|c s1 IH]; [done|].
  change (String c ((s1 +:+ s2) +:+ s3) = String c (s1 +:+ (s2 +:+ s3))).
  by rewrite IH.
Qed.

Lemma spec_tokens_go_blank (ws s : string) :
  blank ws → spec_tokens_go EmptyString (ws +:+ s)
             = spec_tokens_go EmptyString s.
Proof.
  unfold blank. induction ws as [|c ws IH]; simpl; [done|].
  intros H. apply andb_prop in H as [Hc Hws]. rewrite Hc. by apply IH.
Qed.

Lemma spec_tokens_go_word (t : string) :
  ∀ cur s, string_forall (λ c, negb (is_space c)) t = true →
    spec_tokens_go cur (t +:+ s) = spec_tokens_go (cur +:+ t) s.
Proof.
  induction t as [|c t IH]; intros cur s; simpl.
  - by rewrite append_nil_r.
  - intros H. apply andb_prop in H as [Hc Ht].
    apply negb_true_iff in Hc. rewrite Hc, IH by done.
    by rewrite append_assoc.
Qed.

Lemma spec_tokens_go_boundary (cur rest : string) :
  cur ≠ EmptyString → boundary rest →
  spec_tokens_go cur rest = cur :: spec_tokens rest.
Proof.
  intros Hcur Hb. unfold spec_tokens, flush.
  destruct rest as [|c rest]; simpl.
  - unfold flush. by rewrite decide_False.
  - simpl in Hb. rewrite Hb. unfold flush. by rewrite decide_False.
Qed.

(** The description determines the tokens. *)
Lemma tokens_of_unique (text : string) (toks : list string) :
  tokens_of text toks → toks = spec_tokens text.
Proof.
  induction 1 as [ws Hws|ws t rest toks Hws [Hne Ht] Hb _ IH].
  - unfold spec_tokens.
    rewrite <- (append_nil_r ws), spec_tokens_go_blank by done. done.
  - unfold spec_tokens.
    rewrite spec_tokens_go_blank, spec_tokens_go_word by done.
    rewrite spec_tokens_go_boundary by done. by rewrite IH.
Qed.

Lemma tokens_of_space (c : ascii) (s : string) (toks : list string) :
  is_space c = true → tokens_of s toks → tokens_of (String c s) toks.
Proof.
  intros Hc Htoks. destruct Htoks as [ws Hws|ws t rest toks Hws Ht Hb Hrest].
  - apply tokens_blank. unfold blank in *. simpl. by rewrite Hc.
  - change (tokens_of (String c ws +:+ t +:+ rest) (t :: toks)).
    apply tokens_word; try done. unfold blank in *. simpl. by rewrite Hc.
Qed.

Lemma string_forall_app (p : ascii → bool) (s1 s2 : string) :
  string_forall p (s1 +:+ s2) = string_forall p s1 && string_forall p s2.
Proof.
  induction s1 as [|c s1 IH]; simpl; [done|].
  by rewrite IH, andb_assoc.
Qed.

Lemma tokens_of_go (s : string) :
  ∀ cur, string_forall (λ c, negb (is_space c)) cur = true →
    tokens_of (cur +:+ s) (spec_tokens_go cur s).
Proof.
  induction s as [|c s IH]; intros cur Hcur; simpl.
  - rewrite append_nil_r. unfold flush.
    destruct (decide (cur = EmptyString)) as [->|Hne].
    + by apply tokens_blank.
    + assert (tokens_of (EmptyString +:+ cur +:+ EmptyString) [cur]) as H.
      { apply tokens_word; try done. by apply tokens_blank. }
      change (EmptyString +:+ cur +:+ EmptyString)
        with (cur +:+ EmptyString) in H.
      by rewrite append_nil_r in H.
  - destruct (is_space c) eqn:Hc.
    + specialize (IH EmptyString eq_refl). simpl in IH.
      unfold flush. destruct (decide (cur = EmptyString)) as [->|Hne].
      * simpl. by apply tokens_of_space.
      * apply (tokens_word EmptyString cur (String c s)); try done.
        by apply tokens_of_space.
    + specialize (IH (cur +:+ String c EmptyString)).
      rewrite append_assoc in IH. simpl in IH. apply IH.
      rewrite string_forall_app, Hcur. simpl. by rewrite Hc.
Qed.

(** Every text has the tokens the description asks for. *)
Lemma tokens_of_spec_tokens (text : string) :
  tokens_of text (spec_tokens text).
Proof. apply (tokens_of_go text EmptyString eq_refl). Qed.

(** *** The mention pattern *)

Lemma id_run_spec (s : string) :
  ∀ run rest, id_run s = (run, rest) →
    s = run +:+ rest ∧ string_forall is_id_char run = true.
Proof.
  induction s as [|c s IH]; intros run rest; simpl.
  - intros [= <- <-]. done.
  - destruct (is_id_char c) eqn:Hc.
    + destruct (id_run s) as [run' rest'] eqn:Hr.
      intros [= <- <-]. destruct (IH _ _ eq_refl) as [-> Hall].
      simpl. rewrite Hc. done.
    + intros [= <- <-]. done.
Qed.

Lemma id_run_app (id post : string) :
  string_forall is_id_char id = true →
  id_run (id +:+ String ">" post) = (id, String ">" post).
Proof.
  induction id as [|c id IH]; simpl; intros Hall.
  - reflexivity.
  - apply andb_prop in Hall as [Hc Hall]. rewrite Hc, (IH Hall). done.
Qed.

Lemma match_here_Some (s id : string) :
  match_here s = Some id ↔ ∃ post, mention_at s EmptyString id post.
Proof.
  unfold mention_at. split.
  - destruct s as [|a [|b r]]; try done.
    + simpl. destruct a as [[] [] [] [] [] [] [] []]; done.
    + intros H.
      assert (a = "<"%char ∧ b = "@"%char) as [-> ->].
      { destruct a as [[] [] [] [] [] [] [] []]; try done;
        destruct b as [[] [] [] [] [] [] [] []]; done. }
      simpl in H. destruct (id_run r) as [run rest] eqn:Hr.
      destruct run as [|x run]; [done|].
      destruct rest as [|g rest]; [done|].
      assert (g = ">"%char) as ->.
      { destruct g as [[] [] [] [] [] [] [] []]; done. }
      injection H as <-.
      apply id_run_spec in Hr as [-> Hall].
      exists rest. done.
  - intros (post & -> & Hne & Hall).
    change (match id_run (id +:+ String ">" post) with
            | (String a run, String ">" _) => Some (String a run)
            | _ => None
            end = Some id).
    rewrite id_run_app by done.
    destruct id; done.
Qed.

Lemma match_here_None (s : string) :
  match_here s = None → ∀ id post, ¬ mention_at s EmptyString id post.
Proof.
  intros Hn id post Hm.
  assert (match_here s = Some id) as H by (apply match_here_Some; eauto).
  congruence.
Qed.

Lemma mention_at_cons (c : ascii) (s pre id post : string) :
  mention_at (String c s) (String c pre) id post ↔ mention_at s pre id post.
Proof.
  unfold mention_at. simpl. split.
  - intros ([= ->] & ? & ?). done.
  - intros (-> & ? & ?). done.
Qed.

Lemma mention_at_tail (c : ascii) (s : string) pre id post :
  mention_at (String c s) pre id post →
  (pre = EmptyString) ∨ (∃ pre', pre = String c pre' ∧ mention_at s pre' id post).
Proof.
  destruct pre as [|d pre']; [by left|].
  intros H. right. exists pre'.
  assert (d = c) as ->.
  { destruct H as [H _]. simpl in H. by injection H as -> _. }
  split; [done|]. eapply mention_at_cons. exact H.
Qed.

Lemma regex_match_spec (s : string) : extract_spec s (regex_match s).
Proof.
  induction s as [|c s IH].
  - simpl. intros pre id post (H & _ & _).
    destruct pre as [|a pre]; simpl in H; [discriminate|discriminate].
  - cbn [regex_match]. destruct (match_here (String c s)) as [id|] eqn:Hm.
    + apply match_here_Some in Hm as [post Hm].
      exists EmptyString, post. split; [done|]. intros. simpl. lia.
    + unfold extract_spec in *. destruct (regex_match s) as [id|].
      * destruct IH as (pre & post & Hat & Hleft).
        exists (String c pre), post. split; [by apply mention_at_cons|].
        intros pre' id' post' H'.
        apply mention_at_tail in H' as H''.
        destruct H'' as [->|(p & -> & Hp)].
        -- exfalso. by eapply match_here_None.
        -- simpl. apply Hleft in Hp. lia.
      * intros pre id post H.
        apply mention_at_tail in H as H'.
        destruct H' as [->|(p & -> & Hp)].
        -- by eapply match_here_None.
        -- by eapply IH.
Qed.

Lemma extractUserId_regex (tok : string) :
  extractUserId tok = regex_match tok.
Proof. unfold extractUserId. by destruct (regex_match tok). Qed.

Lemma extractUserId_spec (tok : string) : extract_spec tok (extractUserId tok).
Proof. rewrite extractUserId_regex. apply regex_match_spec. Qed.

Lemma extractUserId_nonempty (tok id : string) :
  extractUserId tok = Some id → id ≠ EmptyString.
Proof.
  intros H. pose proof (extractUserId_spec tok) as Hs. rewrite H in Hs.
  destruct Hs as (pre & post & (_ & Hne & _) & _). done.
Qed.

Lemma omap_extract_nonempty (l : list string) :
  omap extractUserId (filter (λ t, t ≠ EmptyString) l)
  = omap extractUserId l.
Proof.
  induction l as [|t l IH]; [done|].
  destruct (decide (t = EmptyString)) as [->|Hne].
  - rewrite filter_cons_False by (intros H; by apply H).
    rewrite IH. reflexivity.
  - rewrite filter_cons_True by done.
    cbn [omap list_omap]. by rewrite IH.
Qed.

Lemma filterNotNull_extract (l : list string) :
  filterNotNull (extractUserId <$> l) = omap extractUserId l.
Proof.
  unfold filterNotNull. induction l as [|t l IH]; [done|].
  rewrite fmap_cons. cbn [omap list_omap]. rewrite IH.
  by destruct (extractUserId t).
Qed.

Lemma filterBoolean_extract (l : list string) :
  filterBoolean (extractUserId <$> l) = omap extractUserId l.
Proof.
  unfold filterBoolean. induction l as [|t l IH]; [done|].
  rewrite fmap_cons. cbn [omap list_omap]. rewrite IH.
  destruct (extractUserId t) as [id|] eqn:Hx; [|done].
  apply extractUserId_nonempty in Hx.
  destruct id; [done|]. done.
Qed.

End Parser.

(** C8.  For every command text both variants yield exactly the parse of
    the specification: the text is split on white space into its words,
    every token contributes the ID of its (leftmost) mention [<@ID>] with a
    non-empty ID of upper-case letters and digits, tokens without a mention
    are dropped, and the IDs come in token order with repetitions kept. *)
Theorem input_parser_refines_spec (text : string) :
  Http.userIds text = spec_parse text
  ∧ Socket.userIds text = spec_parse text
  ∧ tokens_of text (spec_tokens text)
  ∧ (∀ toks, tokens_of text toks → toks = spec_tokens text)
  ∧ (∀ tok, extract_spec tok (extractUserId tok)).
Proof.
  split.
  { unfold Http.userIds, Http.users, spec_parse.
    rewrite filterNotNull_extract, <- omap_extract_nonempty.
    by rewrite split_trim_tokens. }
  split.
  { unfold Socket.userIds, Socket.users, spec_parse.
    by rewrite filterBoolean_extract, split_trim_tokens. }
  split; [apply tokens_of_spec_tokens|].
  split; [apply tokens_of_unique|].
  intros tok. rewrite extractUserId_regex. apply regex_match_spec.
Qed.

(** Order is kept, the repeated ID stays, the lower-case mention and the
    plain word are dropped. *)
Example parse_order_and_duplicates :
  Http.userIds "  <@U2> hello <@U1>  <@U2> <@u3> " = ["U2"; "U1"; "U2"]
  ∧ Socket.userIds "  <@U2> hello <@U1>  <@U2> <@u3> " = ["U2"; "U1"; "U2"].
Proof. split; reflexivity. Qed.

(** ** The Channel Fetcher *)

Section Fetcher.

Variable U : Upstream.

Lemma page_cursor_Some (res : ConvResponse) (k : string) :
  page_cursor res = Some k →
  response_metadata res ≫= next_cursor = Some k ∧ truthy (Some k) = true.
Proof.
  unfold page_cursor.
  destruct (truthy (response_metadata res ≫= next_cursor)) eqn:H; [|done].
  intros Hk. rewrite Hk in H. done.
Qed.

Lemma page_cursor_None (res : ConvResponse) :
  page_cursor res = None →
  truthy (response_metadata res ≫= next_cursor) = false.
Proof.
  unfold page_cursor.
  destruct (truthy (response_metadata res ≫= next_cursor)) eqn:H; [|done].
  intros Hk. rewrite Hk in H. done.
Qed.

(** One turn of the [do ... while] loop of app.js. *)
Lemma http_fetchLoop_turn fuel userId acc cursor :
  Http.fetchLoop (S fuel) userId acc cursor
  = AwaitConversations (page_request userId cursor)
      (λ res,
         match page_cursor res with
         | Some k => Http.fetchLoop fuel userId (acc ++ channels res) (Some k)
         | None => Resolved (acc ++ channels res)
         end).
Proof.
  cbn [Http.fetchLoop]. fold (page_request userId cursor). f_equal.
  apply functional_extensionality. intros res.
  change (match response_metadata res with
          | Some metadata => next_cursor metadata
          | None => None
          end) with (response_metadata res ≫= next_cursor).
  destruct (page_cursor res) as [k|] eqn:Hk.
  - apply page_cursor_Some in Hk as [-> Ht]. by rewrite Ht.
  - apply page_cursor_None in Hk. by rewrite Hk.
Qed.

Lemma http_fetchLoop_step fuel userId acc cursor h :
  await U (Http.fetchLoop (S fuel) userId acc cursor) h =
  match users_conversations U h (page_request userId cursor) with
  | inl e => (Thrown e, [page_event userId cursor (inl e)])
  | inr res =>
      match page_cursor res with
      | Some k =>
          let '(r, es) :=
            await U (Http.fetchLoop fuel userId (acc ++ channels res) (Some k))
              (h ++ [page_event userId cursor (inr res)]) in
          (r, page_event userId cursor (inr res) :: es)
      | None =>
          (Done (acc ++ channels res), [page_event userId cursor (inr res)])
      end
  end.
Proof.
  rewrite http_fetchLoop_turn. cbn [await].
  destruct (users_conversations U h (page_request userId cursor))
    as [e|res]; [done|].
  fold (page_event userId cursor (inr res)).
  by destruct (page_cursor res).
Qed.

(** The loop of the Socket Mode variant takes the same turns. *)
Lemma socket_fetchLoop_http fuel :
  ∀ userId acc cursor,
    Socket.fetchLoop fuel userId acc cursor
    = Http.fetchLoop fuel userId acc cursor.
Proof.
  induction fuel as [|fuel IH]; intros userId acc cursor; [done|].
  rewrite http_fetchLoop_turn.
  cbn [Socket.fetchLoop]. fold (page_request userId cursor). f_equal.
  apply functional_extensionality. intros res. fold (page_cursor res).
  destruct (page_cursor res) as [k|] eqn:Hk.
  - pose proof (page_cursor_Some _ _ Hk) as [_ Ht]. by rewrite Ht, IH.
  - done.
Qed.

Lemma socket_fetchUserChannelsAsync_http fuel userId :
  Socket.fetchUserChannelsAsync fuel userId
  = Http.fetchUserChannelsAsync fuel userId.
Proof. apply socket_fetchLoop_http. Qed.

Lemma socket_fetchUserChannels_http fuel userId h :
  Socket.fetchUserChannels U fuel userId h
  = Http.fetchUserChannels U fuel userId h.
Proof.
  unfold Socket.fetchUserChannels, Http.fetchUserChannels.
  by rewrite socket_fetchUserChannelsAsync_http.
Qed.

Lemma fetchLoop_serves userId h cursor pages :
  serves U userId h cursor pages →
  ∀ fuel acc, length pages ≤ fuel →
    await U (Http.fetchLoop fuel userId acc cursor) h
    = (Done (acc ++ concat (channels <$> pages)),
       page_events userId cursor pages).
Proof.
  induction 1 as [h cursor res Hres Hk|h cursor res k pages Hres Hk _ IH];
    intros fuel acc Hfuel.
  - destruct fuel as [|fuel]; [simpl in Hfuel; lia|].
    rewrite http_fetchLoop_step, Hres, Hk. simpl.
    by rewrite app_nil_r.
  - destruct fuel as [|fuel]; [simpl in Hfuel; lia|].
    rewrite http_fetchLoop_step, Hres, Hk.
    rewrite IH by (simpl in Hfuel; lia).
    simpl. rewrite Hk, app_assoc. done.
Qed.

Lemma length_page_events userId cursor pages :
  length (page_events userId cursor pages) = length pages.
Proof.
  revert cursor. induction pages as [|res pages IH]; intros cursor; [done|].
  simpl. by rewrite IH.
Qed.

Lemma remote_calls_page_events userId cursor pages :
  remote_calls (page_events userId cursor pages)
  = page_events userId cursor pages.
Proof.
  revert cursor. induction pages as [|res pages IH]; intros cursor; [done|].
  unfold remote_calls in *. simpl. rewrite filter_cons_True by done.
  by rewrite IH.
Qed.

(** With a finite pagination the loop has one outcome for every budget
    that covers it. *)
Lemma fetchLoop_halts userId h cursor :
  halts U userId h cursor →
  ∃ n es (res : string + list Channel),
    ∀ fuel acc, n ≤ fuel →
      await U (Http.fetchLoop fuel userId acc cursor) h
      = (match res with
         | inl e => Thrown e
         | inr chans => Done (acc ++ chans)
         end, es).
Proof.
  induction 1 as [h cursor e He|h cursor res Hres Hk
                 |h cursor res k Hres Hk _ IH].
  - exists 1, [page_event userId cursor (inl e)], (inl e).
    intros [|fuel] acc Hfuel; [lia|].
    by rewrite http_fetchLoop_step, He.
  - exists 1, [page_event userId cursor (inr res)], (inr (channels res)).
    intros [|fuel] acc Hfuel; [lia|].
    by rewrite http_fetchLoop_step, Hres, Hk.
  - destruct IH as (n & es & out & IH).
    exists (S n), (page_event userId cursor (inr res) :: es),
      (match out with inl e => inl e | inr chans => inr (channels res ++ chans) end).
    intros [|fuel] acc Hfuel; [lia|].
    rewrite http_fetchLoop_step, Hres, Hk, IH by lia.
    destruct out; [done|]. by rewrite app_assoc.
Qed.

(** The loop can only end when the upstream ends the pagination. *)
Lemma fetchLoop_ends_halts fuel :
  ∀ userId acc cursor h,
    (await U (Http.fetchLoop fuel userId acc cursor) h).1 ≠ OutOfFuel →
    halts U userId h cursor.
Proof.
  induction fuel as [|fuel IH]; intros userId acc cursor h; [done|].
  rewrite http_fetchLoop_step.
  destruct (users_conversations U h (page_request userId cursor))
    as [e|res] eqn:Hres; [intros _; by eapply halts_error|].
  destruct (page_cursor res) as [k|] eqn:Hk;
    [|intros _; by eapply halts_last].
  intros Hend. eapply halts_more; [done|done|].
  apply (IH userId (acc ++ channels res)).
  destruct (await U (Http.fetchLoop fuel userId (acc ++ channels res) (Some k)) _).
  done.
Qed.

End Fetcher.

(** The budget is the only thing [repeating_upstream] lets the loop run
    out of. *)
Lemma fetchLoop_repeating fuel :
  ∀ userId acc cursor h,
    (await repeating_upstream (Http.fetchLoop fuel userId acc cursor) h).1
    = OutOfFuel.
Proof.
  induction fuel as [|fuel IH]; intros userId acc cursor h; [done|].
  rewrite http_fetchLoop_step. simpl.
  change (page_cursor _) with (Some "again").
  cbv beta iota.
  specialize (IH userId (acc ++ [mkChannel "C1" "general"]) (Some "again")
    (h ++ [page_event userId cursor
             (inr {| channels := [mkChannel "C1" "general"];
                     response_metadata :=
                       Some {| next_cursor := Some "again" |} |})])).
  destruct (await repeating_upstream (Http.fetchLoop fuel userId _ _) _)
    as [r es].
  simpl in *. done.
Qed.

(** ** Calls in flight *)

Section Flight.

Variable U : Upstream.

Lemma bind_run {A B} (m : P A) (f : A → P B) h bg a es bg' r es' bg'' :
  m h bg = (Done a, es, bg') →
  f a (h ++ es) bg' = (r, es', bg'') →
  bind m f h bg = (r, es ++ es', bg'').
Proof. intros Hm Hf. unfold bind. by rewrite Hm, Hf. Qed.

Lemma bind_thrown {A B} (m : P A) (f : A → P B) h bg e es bg' :
  m h bg = (Thrown e, es, bg') → bind m f h bg = (Thrown e, es, bg').
Proof. intros Hm. unfold bind. by rewrite Hm. Qed.

Lemma bind_starved {A B} (m : P A) (f : A → P B) h bg es bg' :
  m h bg = (OutOfFuel, es, bg') → bind m f h bg = (OutOfFuel, es, bg').
Proof. intros Hm. unfold bind. by rewrite Hm. Qed.

Lemma clean_remote (t : list Event) : clean t → remote t.
Proof. intros H. eapply Forall_impl; [exact H|]. by intros ev [? ?]. Qed.

Lemma clean_app (t1 t2 : list Event) : clean t1 → clean t2 → clean (t1 ++ t2).
Proof. intros. by apply Forall_app. Qed.

(** A reply: one event, an answer of the upstream to a remote call; a
    failure rejects the call that waited for it. *)
Lemma deliver_waiting {A} (f : Fiber A) h :
  waiting f = true →
  ∃ ev f',
    deliver U f h = (f', [ev])
    ∧ is_remote ev = true
    ∧ answer_of U ev
    ∧ match failure ev with
      | Some e => f' = Rejected e
      | None =>
          (honest f → honest f')
          ∧ (∀ n, lasts U f (S n) → lasts U f' n)
      end.
Proof.
  destruct f as [a|e| |id k|req k]; try done; intros _; cbn [deliver].
  - destruct (users_info U h id) as [e|u] eqn:Hr.
    + eexists _, _. split; [reflexivity|]. split; [done|].
      split; [by exists h|]. done.
    + eexists _, _. split; [reflexivity|]. split; [done|].
      split; [by exists h|]. simpl. split; [by intros Hk|].
      intros n Hn. by apply (Hn h).
  - destruct (users_conversations U h req) as [e|res] eqn:Hr.
    + eexists _, _. split; [reflexivity|]. split; [done|].
      split; [by exists h|]. done.
    + eexists _, _. split; [reflexivity|]. split; [done|].
      split; [by exists h|]. simpl. split; [by intros Hk|].
      intros n Hn. by apply (Hn h).
Qed.

Lemma pending_cons {A} (f : Fiber A) (fs : list (Fiber A)) :
  pending (f :: fs) = (if waiting f then 1 else 0) + pending fs.
Proof.
  unfold pending. destruct (waiting f) eqn:Hw.
  - by rewrite filter_cons_True.
  - rewrite filter_cons_False; [done|]. by rewrite Hw.
Qed.

Lemma pending_app {A} (l r : list (Fiber A)) :
  pending (l ++ r) = pending l + pending r.
Proof. unfold pending. by rewrite filter_app, length_app. Qed.

(** Serving the [i]-th request in flight changes the member that waits
    for it, and nothing when fewer requests are in flight. *)
Lemma serve_inv {A} (fs : list (Fiber A)) :
  ∀ i h,
    (serve U i fs h = (fs, []) ∧ pending fs ≤ i)
    ∨ (∃ l f r f' ev,
         fs = l ++ f :: r
         ∧ waiting f = true
         ∧ deliver U f h = (f', [ev])
         ∧ serve U i fs h = (l ++ f' :: r, [ev])).
Proof.
  induction fs as [|f fs IH]; intros i h.
  { left. split; [done|]. unfold pending. simpl. lia. }
  cbn [serve]. rewrite pending_cons.
  destruct (waiting f) eqn:Hw.
  - destruct i as [|i].
    + right. destruct (deliver_waiting f h Hw) as (ev & f' & Hd & _).
      exists [], f, fs, f', ev. rewrite Hd. done.
    + destruct (IH i h) as [[Hs Hle]|(l & g & r & g' & ev & -> & Hg & Hd & Hs)].
      * left. rewrite Hs. split; [done|lia].
      * right. exists (f :: l), g, r, g', ev. rewrite Hs. done.
  - destruct (IH i h) as [[Hs Hle]|(l & g & r & g' & ev & -> & Hg & Hd & Hs)].
    + left. rewrite Hs. split; [done|lia].
    + right. exists (f :: l), g, r, g', ev. rewrite Hs. done.
Qed.

(** With a request in flight the next reply does arrive. *)
Lemma reply_inv {A} (fs : list (Fiber A)) h :
  pending fs ≠ 0 →
  ∃ l f r f' ev,
    fs = l ++ f :: r
    ∧ waiting f = true
    ∧ deliver U f h = (f', [ev])
    ∧ reply U fs h = (l ++ f' :: r, [ev]).
Proof.
  intros Hp. unfold reply.
  destruct (serve_inv fs (answered_next U h (pending fs) `mod` pending fs) h)
    as [[_ Hle]|H]; [|done].
  pose proof (Nat.mod_upper_bound (answered_next U h (pending fs))
                (pending fs) Hp). lia.
Qed.

Lemma rejection_honest {A} (fs : list (Fiber A)) :
  Forall honest fs → rejection fs = None.
Proof.
  induction 1 as [|f fs Hf _ IH]; [done|]. by destruct f.
Qed.

Lemma rejection_here {A} (l r : list (Fiber A)) e :
  Forall honest l → rejection (l ++ Rejected e :: r) = Some e.
Proof.
  induction 1 as [|f l Hf _ IH]; [done|]. by destruct f.
Qed.

(** Without a rejected or resolved-by-all or starved member, a member
    waits. *)
Lemma pending_unsettled {A} (fs : list (Fiber A)) :
  rejection fs = None → starved fs = false → results fs = None →
  pending fs ≠ 0.
Proof.
  induction fs as [|f fs IH]; [done|].
  rewrite pending_cons.
  destruct f as [a|e| |id k|req k]; simpl; try done; try lia.
  intros Hrej Hst Hres. destruct (results fs); [done|]. by apply IH.
Qed.

Lemma settleAll_rejected {A} n (fs : list (Fiber A)) h e :
  rejection fs = Some e → settleAll U n fs h = (Thrown e, [], (n, fs)).
Proof. intros H. destruct n; simpl; by rewrite H. Qed.

Lemma settleAll_starved {A} n (fs : list (Fiber A)) h :
  rejection fs = None → starved fs = true →
  settleAll U n fs h = (OutOfFuel, [], (n, fs)).
Proof. intros H1 H2. destruct n; simpl; by rewrite H1, H2. Qed.

Lemma settleAll_fulfilled {A} n (fs : list (Fiber A)) h xs :
  rejection fs = None → starved fs = false → results fs = Some xs →
  settleAll U n fs h = (Done xs, [], (n, fs)).
Proof. intros H1 H2 H3. destruct n; simpl; by rewrite H1, H2, H3. Qed.

Lemma settleAll_out {A} (fs : list (Fiber A)) h :
  rejection fs = None → starved fs = false → results fs = None →
  settleAll U 0 fs h = (OutOfFuel, [], (0, fs)).
Proof. intros H1 H2 H3. simpl. by rewrite H1, H2, H3. Qed.

Lemma settleAll_step {A} n (fs : list (Fiber A)) h :
  rejection fs = None → starved fs = false → results fs = None →
  settleAll U (S n) fs h
  = let '(fs', ev) := reply U fs h in
    let '(o, es, rest) := settleAll U n fs' (h ++ ev) in
    (o, ev ++ es, rest).
Proof. intros H1 H2 H3. simpl. by rewrite H1, H2, H3. Qed.

(** The four ways a [Promise.all] stands. *)
Lemma settleAll_cases {A} n (fs : list (Fiber A)) h :
  (∃ e, rejection fs = Some e ∧ settleAll U n fs h = (Thrown e, [], (n, fs)))
  ∨ (rejection fs = None ∧ starved fs = true
     ∧ settleAll U n fs h = (OutOfFuel, [], (n, fs)))
  ∨ (∃ xs, rejection fs = None ∧ starved fs = false ∧ results fs = Some xs
           ∧ settleAll U n fs h = (Done xs, [], (n, fs)))
  ∨ (rejection fs = None ∧ starved fs = false ∧ results fs = None
     ∧ pending fs ≠ 0).
Proof.
  destruct (rejection fs) as [e|] eqn:Hrej.
  { left. exists e. split; [done|]. by apply settleAll_rejected. }
  destruct (starved fs) eqn:Hst.
  { right; left. split; [done|]. split; [done|]. by apply settleAll_starved. }
  destruct (results fs) as [xs|] eqn:Hres.
  { right; right; left. exists xs. repeat split; try done.
    by apply settleAll_fulfilled. }
  right; right; right. repeat split; try done. by apply pending_unsettled.
Qed.

(** The events of a [Promise.all] over honest calls: replies that all
    succeeded, but for the last when the whole is rejected, with the error
    of that reply. *)
Lemma settleAll_stage {A} n :
  ∀ (fs : list (Fiber A)) h,
    Forall honest fs →
    match settleAll U n fs h with
    | (Done _, es, _) => clean es
    | (Thrown e, es, _) =>
        ∃ pre ev, es = pre ++ [ev] ∧ clean pre
                  ∧ is_remote ev = true ∧ failure ev = Some e
    | (OutOfFuel, es, _) => clean es
    end.
Proof.
  induction n as [|n IH]; intros fs h Hfs.
  - destruct (settleAll_cases 0 fs h)
      as [(e & Hrej & _)|[(_ & _ & ->)|[(xs & _ & _ & _ & ->)
         |(Hrej & Hst & Hres & _)]]].
    + by rewrite rejection_honest in Hrej.
    + constructor.
    + constructor.
    + rewrite settleAll_out by done. constructor.
  - destruct (settleAll_cases (S n) fs h)
      as [(e & Hrej & _)|[(_ & _ & ->)|[(xs & _ & _ & _ & ->)
         |(Hrej & Hst & Hres & Hp)]]].
    + by rewrite rejection_honest in Hrej.
    + constructor.
    + constructor.
    + rewrite settleAll_step by done.
      destruct (reply_inv fs h Hp)
        as (l & f & r & f' & ev & -> & Hw & Hd & ->).
      destruct (deliver_waiting f h Hw)
        as (ev' & f'' & Hd' & Hrem & _ & Hfail).
      rewrite Hd in Hd'. injection Hd' as <- <-.
      apply Forall_app in Hfs as [Hl Hfr].
      apply Forall_cons in Hfr as [Hf Hr].
      destruct (failure ev) as [e|] eqn:Hev.
      * subst f'. rewrite settleAll_rejected with (e := e)
          by (by apply rejection_here).
        simpl. exists [], ev. split; [done|]. split; [constructor|]. done.
      * destruct Hfail as [Hhon _].
        assert (Forall honest (l ++ f' :: r)) as Hfs'.
        { apply Forall_app. split; [done|]. apply Forall_cons. auto. }
        specialize (IH (l ++ f' :: r) (h ++ [ev]) Hfs').
        destruct (settleAll U n (l ++ f' :: r) (h ++ [ev]))
          as [[[xs|e|] es] rest]; simpl.
        -- apply Forall_cons. split; [done|exact IH].
        -- destruct IH as (pre & ev' & -> & Hpre & Hrem' & Hf').
           exists (ev :: pre), ev'. split; [done|]. split; [|done].
           by apply Forall_cons.
        -- apply Forall_cons. split; [done|exact IH].
Qed.

(** Every event of a [Promise.all] is an answer of the upstream to a
    remote call, whatever the calls are. *)
Lemma settleAll_remote {A} n :
  ∀ (fs : list (Fiber A)) h,
    Forall (λ ev, is_remote ev = true ∧ answer_of U ev)
      (settleAll U n fs h).1.2.
Proof.
  induction n as [|n IH]; intros fs h.
  - destruct (settleAll_cases 0 fs h)
      as [(e & _ & ->)|[(_ & _ & ->)|[(xs & _ & _ & _ & ->)
         |(Hrej & Hst & Hres & _)]]]; try constructor.
    rewrite settleAll_out by done. constructor.
  - destruct (settleAll_cases (S n) fs h)
      as [(e & _ & ->)|[(_ & _ & ->)|[(xs & _ & _ & _ & ->)
         |(Hrej & Hst & Hres & Hp)]]]; try constructor.
    rewrite settleAll_step by done.
    destruct (reply_inv fs h Hp)
      as (l & f & r & f' & ev & -> & Hw & Hd & ->).
    destruct (deliver_waiting f h Hw)
      as (ev' & f'' & Hd' & Hrem & Hans & _).
    rewrite Hd in Hd'. injection Hd' as <- <-.
    specialize (IH (l ++ f' :: r) (h ++ [ev])).
    destruct (settleAll U n (l ++ f' :: r) (h ++ [ev])) as [[o es] rest].
    simpl in *. by apply Forall_cons.
Qed.

(** The same for one awaited call. *)
Lemma await_stage {A} (f : Fiber A) :
  ∀ h, honest f →
    match await U f h with
    | (Done _, es) => clean es
    | (Thrown e, es) =>
        ∃ pre ev, es = pre ++ [ev] ∧ clean pre
                  ∧ is_remote ev = true ∧ failure ev = Some e
    | (OutOfFuel, es) => clean es
    end.
Proof.
  induction f as [a|e| |id k IH|req k IH]; intros h Hf; cbn [await];
    try done; try constructor.
  - destruct (users_info U h id) as [e|u] eqn:Hr.
    + exists [], (EvUsersInfo id (inl e)).
      split; [done|]. split; [constructor|]. done.
    + specialize (IH u (h ++ [EvUsersInfo id (inr u)]) (Hf u)).
      destruct (await U (k u) (h ++ [EvUsersInfo id (inr u)]))
        as [[x|e|] es].
      * by apply Forall_cons.
      * destruct IH as (pre & ev & -> & Hpre & Hrem & Hfail).
        exists (EvUsersInfo id (inr u) :: pre), ev.
        split; [done|]. split; [|done]. by apply Forall_cons.
      * by apply Forall_cons.
  - destruct (users_conversations U h req) as [e|res] eqn:Hr.
    + exists [], (EvConversations req (inl e)).
      split; [done|]. split; [constructor|]. done.
    + specialize (IH res (h ++ [EvConversations req (inr res)]) (Hf res)).
      destruct (await U (k res) (h ++ [EvConversations req (inr res)]))
        as [[x|e|] es].
      * by apply Forall_cons.
      * destruct IH as (pre & ev & -> & Hpre & Hrem & Hfail).
        exists (EvConversations req (inr res) :: pre), ev.
        split; [done|]. split; [|done]. by apply Forall_cons.
      * by apply Forall_cons.
Qed.

Lemma await_remote {A} (f : Fiber A) :
  ∀ h, Forall (λ ev, is_remote ev = true ∧ answer_of U ev) (await U f h).2.
Proof.
  induction f as [a|e| |id k IH|req k IH]; intros h; cbn [await];
    try constructor.
  - destruct (users_info U h id) as [e|u] eqn:Hr.
    + apply Forall_cons. split; [|constructor]. split; [done|by exists h].
    + specialize (IH u (h ++ [EvUsersInfo id (inr u)])).
      destruct (await U (k u) (h ++ [EvUsersInfo id (inr u)])) as [o es].
      apply Forall_cons. split; [|done]. split; [done|by exists h].
  - destruct (users_conversations U h req) as [e|res] eqn:Hr.
    + apply Forall_cons. split; [|constructor]. split; [done|by exists h].
    + specialize (IH res (h ++ [EvConversations req (inr res)])).
      destruct (await U (k res) (h ++ [EvConversations req (inr res)]))
        as [o es].
      apply Forall_cons. split; [|done]. split; [done|by exists h].
Qed.

(** What is answered behind the back of the handler are remote calls. *)
Lemma advance_remote n :
  ∀ fs h, Forall (λ ev, is_remote ev = true ∧ answer_of U ev)
            (advance U n fs h).1.
Proof.
  induction n as [|n IH]; intros fs h; cbn [advance]; [constructor|].
  destruct (decide (pending fs = 0)) as [|Hp]; [constructor|].
  destruct (reply_inv fs h Hp)
    as (l & f & r & f' & ev & -> & Hw & Hd & ->).
  destruct (deliver_waiting f h Hw) as (ev' & f'' & Hd' & Hrem & Hans & _).
  rewrite Hd in Hd'. injection Hd' as <- <-.
  specialize (IH (l ++ f' :: r) (h ++ [ev])).
  destruct (advance U n (l ++ f' :: r) (h ++ [ev])) as [es fs''].
  simpl in *. by apply Forall_cons.
Qed.

Lemma advance_nothing n h : advance U n [] h = ([], []).
Proof. by destruct n. Qed.

Lemma meanwhile_remote bg h : remote (meanwhile U bg h).1.
Proof.
  unfold meanwhile.
  pose proof (advance_remote (reserve bg `min` answered_meanwhile U h)
                (inflight bg) h) as H.
  destruct (advance U _ (inflight bg) h) as [es fs]. simpl in *.
  eapply Forall_impl; [exact H|]. by intros ev [? ?].
Qed.

Lemma say_idle (m : Message) h :
  say U m h idle
  = (settled (say_result U h m), [EvSay m (say_result U h m)], idle).
Proof. unfold say. cbn. by rewrite app_nil_r. Qed.

Lemma console_error_idle (e : string) h :
  console_error U e h idle = (Done tt, [EvLog e], idle).
Proof. reflexivity. Qed.

Lemma lift_run {A} (m : M A) h bg : lift m h bg = ((m h).1, (m h).2, bg).
Proof. unfold lift. by destruct (m h). Qed.

Lemma honest_usersInfo (ids : list string) : Forall honest (usersInfo <$> ids).
Proof. apply Forall_fmap, Forall_forall. by intros id _ u. Qed.

Lemma honest_fetchLoop fuel :
  ∀ userId acc cursor, honest (Http.fetchLoop fuel userId acc cursor).
Proof.
  induction fuel as [|fuel IH]; intros userId acc cursor; [done|].
  rewrite http_fetchLoop_turn. intros res. by destruct (page_cursor res).
Qed.

End Flight.

(** ** Trace discipline of the handlers *)

Section TraceFacts.

Lemma says_app (t1 t2 : list Event) : says (t1 ++ t2) = says t1 ++ says t2.
Proof. unfold says. apply omap_app. Qed.

Lemma delivered_app (t1 t2 : list Event) :
  delivered (t1 ++ t2) = delivered t1 ++ delivered t2.
Proof. unfold delivered. apply omap_app. Qed.

Lemma failures_app (t1 t2 : list Event) :
  failures (t1 ++ t2) = failures t1 ++ failures t2.
Proof. unfold failures. apply omap_app. Qed.

Lemma remote_calls_app (t1 t2 : list Event) :
  remote_calls (t1 ++ t2) = remote_calls t1 ++ remote_calls t2.
Proof. unfold remote_calls. apply filter_app. Qed.

Lemma says_remote (t : list Event) : remote t → says t = [].
Proof.
  induction 1 as [|ev t Hev _ IH]; [done|].
  unfold says in *. cbn [omap list_omap]. rewrite IH. by destruct ev.
Qed.

Lemma delivered_remote (t : list Event) : remote t → delivered t = [].
Proof.
  induction 1 as [|ev t Hev _ IH]; [done|].
  unfold delivered in *. cbn [omap list_omap]. rewrite IH. by destruct ev.
Qed.

Lemma failures_clean (t : list Event) : clean t → failures t = [].
Proof.
  induction 1 as [|ev t [_ Hev] _ IH]; [done|].
  unfold failures in *. cbn [omap list_omap]. by rewrite Hev, IH.
Qed.

Lemma remote_not_ack (t : list Event) :
  remote t → Forall (λ ev, is_ack ev = false) t.
Proof. intros H. eapply Forall_impl; [exact H|]. by intros []. Qed.

Lemma remote_calls_remote (t : list Event) : remote t → remote_calls t = t.
Proof.
  induction 1 as [|ev t Hev _ IH]; [done|].
  unfold remote_calls in *. by rewrite filter_cons_True, IH.
Qed.

Lemma elem_of_failures (t : list Event) (e : string) :
  e ∈ failures t ↔ ∃ ev, ev ∈ t ∧ failure ev = Some e.
Proof. unfold failures. rewrite list_elem_of_omap. done. Qed.

Lemma remote_app (t1 t2 : list Event) : remote t1 → remote t2 → remote (t1 ++ t2).
Proof. intros. by apply Forall_app. Qed.

Lemma remote_one (ev : Event) : is_remote ev = true → remote [ev].
Proof. intros. by repeat constructor. Qed.

(** What is said, sent and failed in a trace that starts with the
    acknowledgment [r], goes on with the remote calls [pre] and ends with
    [tail]. *)
Lemma says_trace r (pre tail : list Event) :
  remote pre → says (EvAck r :: pre ++ tail) = says tail.
Proof.
  intros Hpre. change (says ([EvAck r] ++ pre ++ tail) = says tail).
  by rewrite !says_app, (says_remote pre Hpre).
Qed.

Lemma delivered_trace r (pre tail : list Event) :
  remote pre → delivered (EvAck r :: pre ++ tail) = delivered tail.
Proof.
  intros Hpre. change (delivered ([EvAck r] ++ pre ++ tail) = delivered tail).
  by rewrite !delivered_app, (delivered_remote pre Hpre).
Qed.

Lemma failures_trace r (pre tail : list Event) :
  failures (EvAck r :: pre ++ tail) = failures pre ++ failures tail.
Proof.
  change (failures ([EvAck r] ++ pre ++ tail) = failures pre ++ failures tail).
  by rewrite !failures_app.
Qed.

(** The same for the tail of a run in which a remote call failed. *)
Lemma says_tail (b1 b2 b3 : list Event) e m r :
  remote b1 → remote b2 → remote b3 →
  says (b1 ++ [EvLog e] ++ b2 ++ [EvSay m r] ++ b3) = [m].
Proof.
  intros H1 H2 H3.
  by rewrite !says_app, (says_remote b1), (says_remote b2), (says_remote b3).
Qed.

Lemma delivered_tail (b1 b2 b3 : list Event) e m r :
  remote b1 → remote b2 → remote b3 →
  delivered (b1 ++ [EvLog e] ++ b2 ++ [EvSay m r] ++ b3)
  = match r with None => [m] | Some _ => [] end.
Proof.
  intros H1 H2 H3.
  rewrite !delivered_app, (delivered_remote b1), (delivered_remote b2),
    (delivered_remote b3) by done.
  by destruct r.
Qed.

End TraceFacts.

Section Discipline.

Variable U : Upstream.

Lemma stage_promiseAll {A} n (ps : list (Fiber A)) :
  Forall honest ps → Stage (promiseAll U n ps).
Proof.
  intros Hps h. unfold promiseAll.
  pose proof (settleAll_stage U n ps h Hps) as H.
  destruct (settleAll U n ps h) as [[[xs|e|] es] [n' fs]].
  - by apply stage_done.
  - destruct H as (pre & ev & -> & Hpre & Hrem & Hfail).
    by apply stage_failed.
  - by apply stage_starved.
Qed.

Lemma stage_await {A} (f : Fiber A) : honest f → Stage (lift (await U f)).
Proof.
  intros Hf h. rewrite lift_run.
  pose proof (await_stage U f h Hf) as H.
  destruct (await U f h) as [[x|e|] es]; simpl.
  - by apply stage_done.
  - destruct H as (pre & ev & -> & Hpre & Hrem & Hfail).
    by apply stage_failed.
  - by apply stage_starved.
Qed.

Lemma stage_element {A} (xs : list A) (i : nat) (prop : string) :
  Stage (element xs i prop).
Proof.
  intros h. unfold element. destruct (xs !! i).
  - apply stage_done. constructor.
  - apply stage_threw. constructor.
Qed.

Lemma stage_bind {A B} (m : P A) (f : A → P B) :
  Stage m → (∀ a, Stage (f a)) → Stage (bind m f).
Proof.
  intros Hm Hf h. unfold bind.
  pose proof (Hm h) as Hinv0. inversion Hinv0 as [a pre Hpre Heq|e pre ev bg Hpre Hrem Hfail Heq
                      |e pre Hpre Heq|pre Hpre Heq].
  - pose proof (Hf a (h ++ pre)) as Hinv1. inversion Hinv1
       as [b pre' Hpre' Heq'|e pre' ev bg Hpre' Hrem Hfail Heq'
         |e pre' Hpre' Heq'|pre' Hpre' Heq'].
    + apply stage_done. by apply clean_app.
    + rewrite app_assoc. apply stage_failed; [by apply clean_app|done|done].
    + apply stage_threw. by apply clean_app.
    + apply stage_starved. by apply clean_app.
  - by apply stage_failed.
  - by apply stage_threw.
  - by apply stage_starved.
Qed.

Lemma attempt_say (m : Message) : Attempt U (say U m).
Proof.
  intros h. rewrite say_idle.
  apply (attempt_said U [] m h). constructor.
Qed.

Lemma attempt_bind {A} (m : P A) (f : A → P unit) :
  Stage m → (∀ a, Attempt U (f a)) → Attempt U (bind m f).
Proof.
  intros Hm Hf h. unfold bind.
  pose proof (Hm h) as Hinv0. inversion Hinv0 as [a pre Hpre Heq|e pre ev bg Hpre Hrem Hfail Heq
                      |e pre Hpre Heq|pre Hpre Heq].
  - pose proof (Hf a (h ++ pre)) as Hinv2. inversion Hinv2
       as [pre' msg h' Hpre' Heq'|e pre' ev bg Hpre' Hrem Hfail Heq'
         |e pre' Hpre' Heq'|pre' Hpre' Heq'].
    + rewrite app_assoc. apply attempt_said. by apply clean_app.
    + rewrite app_assoc. apply attempt_failed; [by apply clean_app|done|done].
    + apply attempt_threw. by apply clean_app.
    + apply attempt_starved. by apply clean_app.
  - by apply attempt_failed.
  - by apply attempt_threw.
  - by apply attempt_starved.
Qed.

Lemma honest_two v fuel id1 id2 :
  Forall honest
    [fetchLoop_of v fuel id1 [] None; fetchLoop_of v fuel id2 [] None].
Proof.
  destruct v; simpl; rewrite ?socket_fetchLoop_http;
    repeat constructor; apply honest_fetchLoop.
Qed.

Lemma attempt_http_tryBlock fuel text : Attempt U (Http.tryBlock U fuel text).
Proof.
  unfold Http.tryBlock.
  destruct (decide (length (Http.userIds text) = 0)); [apply attempt_say|].
  apply attempt_bind; [apply stage_promiseAll, honest_usersInfo|].
  intros userInfo.
  destruct (decide (length (Http.userIds text) = 1)).
  { apply attempt_bind; [apply stage_element|]. intros user1Info.
    apply attempt_bind; [apply stage_await, honest_fetchLoop|].
    intros chans. apply attempt_say. }
  destruct (decide (length (Http.userIds text) = 2)); [|apply attempt_say].
  apply attempt_bind; [apply stage_element|]. intros user1Info.
  apply attempt_bind; [apply stage_element|]. intros user2Info.
  apply attempt_bind; [apply stage_promiseAll, (honest_two AppJs)|].
  intros both.
  apply attempt_bind; [apply stage_element|]. intros channels1.
  apply attempt_bind; [apply stage_element|]. intros channels2.
  apply attempt_say.
Qed.

Lemma attempt_socket_tryBlock fuel text :
  Attempt U (Socket.tryBlock U fuel text).
Proof.
  unfold Socket.tryBlock.
  destruct (decide (length (Socket.userIds text) = 0
                    ∨ 2 < length (Socket.userIds text)));
    [apply attempt_say|].
  apply attempt_bind; [apply stage_promiseAll, honest_usersInfo|].
  intros userInfo.
  destruct (decide (length (Socket.userIds text) = 1)).
  { apply attempt_bind; [apply stage_element|]. intros u1.
    apply attempt_bind.
    - unfold Socket.fetchUserChannels.
      rewrite socket_fetchUserChannelsAsync_http.
      apply stage_await, honest_fetchLoop.
    - intros ch. apply attempt_say. }
  apply attempt_bind; [apply stage_element|]. intros u1.
  apply attempt_bind; [apply stage_element|]. intros u2.
  apply attempt_bind; [apply stage_promiseAll, (honest_two SocketMode)|].
  intros both.
  apply attempt_bind; [apply stage_element|]. intros c1.
  apply attempt_bind; [apply stage_element|]. intros c2.
  apply attempt_say.
Qed.

End Discipline.

(** ** The frame of the handlers: acknowledge, try, catch *)

(** Case analysis on the shape of a run. *)
Ltac run_cases Hshape :=
  inversion Hshape as [h0 e0 Hack Heq|pre m h0 Hclean Hsay Heq
                      |pre m e0 r h0 h1 Hclean Hsay Hsay' Heq
                      |pre ev e0 b1 b2 b3 r h1 Hclean Hrem Hfail
                         Hb1 Hb2 Hb3 Hsay' Heq
                      |pre e0 r h1 Hclean Hsay' Heq|pre Hclean Heq];
  try (pose proof (clean_remote _ Hclean) as Hpre).

Ltac trace_facts :=
  cbn [fst snd];
  repeat match goal with
         | |- context [EvAck ?r :: ?pre] =>
             lazymatch pre with
             | _ ++ _ => fail
             | [] => fail
             | _ => rewrite <- (app_nil_r pre)
             end
         end;
  rewrite ?says_trace, ?delivered_trace, ?failures_trace by done.

Section Frame.

Variables (U : Upstream) (body : P unit) (errorMessage : string → Message).

Lemma invocation_run (m : P unit) h o es bg :
  m h idle = (o, es, bg) →
  invocation U m h
  = (o, es ++ (advance U (reserve bg) (inflight bg) (h ++ es)).1).
Proof.
  intros Hm. unfold invocation. rewrite Hm.
  by destruct (advance U (reserve bg) (inflight bg) (h ++ es)).
Qed.

Lemma invocation_idle (m : P unit) h o es :
  m h idle = (o, es, idle) → invocation U m h = (o, es).
Proof.
  intros Hm. rewrite (invocation_run m h o es idle Hm). simpl.
  by rewrite app_nil_r.
Qed.

(** The [catch] clause, with requests in flight and without. *)
Lemma catch_run e h bg :
  ∃ b1 b2 bg' h',
    remote b1 ∧ remote b2
    ∧ (do! console_error U e in say U (errorMessage e)) h bg
      = (settled (say_result U h' (errorMessage e)),
         b1 ++ [EvLog e] ++ b2
           ++ [EvSay (errorMessage e) (say_result U h' (errorMessage e))],
         bg').
Proof.
  unfold bind, console_error, say.
  pose proof (meanwhile_remote U bg h) as H1.
  destruct (meanwhile U bg h) as [b1 bg1]. simpl in H1.
  pose proof (meanwhile_remote U bg1 (h ++ b1 ++ [EvLog e])) as H2.
  destruct (meanwhile U bg1 (h ++ b1 ++ [EvLog e])) as [b2 bg2]. simpl in H2.
  exists b1, b2, bg2, ((h ++ b1 ++ [EvLog e]) ++ b2).
  split; [done|]. split; [done|].
  by rewrite <- !app_assoc.
Qed.

Lemma catch_idle e h :
  (do! console_error U e in say U (errorMessage e)) h idle
  = (settled (say_result U (h ++ [EvLog e]) (errorMessage e)),
     [EvLog e;
      EvSay (errorMessage e) (say_result U (h ++ [EvLog e]) (errorMessage e))],
     idle).
Proof.
  eapply (bind_run _ _ _ _ tt [EvLog e]); [apply console_error_idle|].
  apply say_idle.
Qed.

Lemma frame_unacknowledged h e :
  ack_result U h = Some e →
  frame U body errorMessage h = (Thrown e, [EvAck (Some e)]).
Proof.
  intros Hack. unfold frame.
  apply invocation_idle. apply bind_thrown. unfold ack. by rewrite Hack.
Qed.

(** A run whose [try] block leaves nothing in flight. *)
Lemma frame_idle h :
  (body (h ++ [EvAck None]) idle).2 = idle →
  frame U body errorMessage h =
  match ack_result U h with
  | Some e => (Thrown e, [EvAck (Some e)])
  | None =>
      let h1 := h ++ [EvAck None] in
      match (body h1 idle).1.1 with
      | Done a => (Done a, EvAck None :: (body h1 idle).1.2)
      | Thrown e =>
          let r := say_result U ((h1 ++ (body h1 idle).1.2) ++ [EvLog e])
                     (errorMessage e) in
          (settled r,
           EvAck None
             :: (body h1 idle).1.2 ++ [EvLog e; EvSay (errorMessage e) r])
      | OutOfFuel => (OutOfFuel, EvAck None :: (body h1 idle).1.2)
      end
  end.
Proof.
  intros Hidle.
  destruct (ack_result U h) as [e|] eqn:Hack;
    [by apply frame_unacknowledged|].
  unfold frame. cbv zeta.
  destruct (body (h ++ [EvAck None]) idle) as [[[[]|e|] es] bg] eqn:Hbody;
    simpl in Hidle; subst bg; cbn [fst snd].
  - apply invocation_idle.
    eapply (bind_run _ _ _ _ _ [EvAck None]); [unfold ack; by rewrite Hack|].
    unfold tryCatch. by rewrite Hbody.
  - apply invocation_idle.
    eapply (bind_run _ _ _ _ _ [EvAck None]); [unfold ack; by rewrite Hack|].
    unfold tryCatch. rewrite Hbody, catch_idle. done.
  - apply invocation_idle.
    eapply (bind_run _ _ _ _ _ [EvAck None]); [unfold ack; by rewrite Hack|].
    unfold tryCatch. by rewrite Hbody.
Qed.

Hypothesis body_attempt : Attempt U body.

(** Every run of a handler has one of the six shapes. *)
Lemma frame_shape h :
  run_shape U errorMessage (frame U body errorMessage h).
Proof.
  destruct (ack_result U h) as [e|] eqn:Hack.
  { rewrite (frame_unacknowledged h e Hack). by econstructor. }
  pose proof (body_attempt (h ++ [EvAck None])) as Hinv3. inversion Hinv3
     as [pre m h' Hpre Heq|e pre ev bg Hpre Hrem Hfail Heq
       |e pre Hpre Heq|pre Hpre Heq].
  - rewrite frame_idle, Hack by (by rewrite <- Heq). cbv zeta.
    rewrite <- Heq. cbn [fst snd].
    destruct (say_result U h' m) as [e|] eqn:Hsay; cbn [settled].
    + set (r := say_result U _ (errorMessage e)). rewrite <- app_assoc.
      eapply run_answer_rejected; [done|exact Hsay|reflexivity].
    + by eapply run_answered.
  - unfold frame.
    destruct (catch_run e ((h ++ [EvAck None]) ++ pre ++ [ev]) bg)
      as (b1 & b2 & bg' & hs & Hb1 & Hb2 & Hcatch).
    erewrite invocation_run; last first.
    { eapply (bind_run _ _ _ _ _ [EvAck None]); [unfold ack; by rewrite Hack|].
      unfold tryCatch. rewrite <- Heq, Hcatch. reflexivity. }
    cbn [fst snd].
    match goal with
    | |- context [advance U ?n ?fs ?hh] =>
        pose proof (advance_remote U n fs hh) as Hb3;
        destruct (advance U n fs hh) as [b3 fs3]
    end.
    cbn [fst snd] in *.
    set (r := say_result U hs (errorMessage e)).
    match goal with
    | |- run_shape _ _ (_, ?t) =>
        replace t
          with (EvAck None :: pre ++ [ev] ++ b1 ++ [EvLog e] ++ b2
                  ++ [EvSay (errorMessage e) r] ++ b3)
          by (simpl; rewrite <- !app_assoc; simpl;
              rewrite <- ?app_assoc; reflexivity)
    end.
    eapply run_failed; try done.
    eapply Forall_impl; [exact Hb3|]. by intros ? [? ?].
  - rewrite frame_idle, Hack by (by rewrite <- Heq). cbv zeta.
    rewrite <- Heq. cbn [fst snd]. by eapply run_threw.
  - rewrite frame_idle, Hack by (by rewrite <- Heq). cbv zeta.
    rewrite <- Heq. cbn [fst snd]. by apply run_cut_off.
Qed.

End Frame.

(** ** The handlers *)

Section Handlers.

Variable U : Upstream.

Lemma handler_frame v fuel text :
  handler_of v U fuel text
  = frame U (tryBlock_of v U fuel text) (errorMessage_of v).
Proof. by destruct v. Qed.

Lemma attempt_tryBlock v fuel text : Attempt U (tryBlock_of v U fuel text).
Proof.
  destruct v; [apply attempt_http_tryBlock|apply attempt_socket_tryBlock].
Qed.

Lemma handler_shape v fuel text h :
  run_shape U (errorMessage_of v) (handler_of v U fuel text h).
Proof. rewrite handler_frame. apply frame_shape, attempt_tryBlock. Qed.

End Handlers.

(** ** Termination of the handlers for bounded paginations *)

Section Settling.

Variable U : Upstream.

Lemma lasts_mono {A} (f : Fiber A) :
  ∀ n m, lasts U f n → n ≤ m → lasts U f m.
Proof.
  induction f as [a|e| |id k IH|req k IH]; intros n m Hn Hle; try done.
  - destruct n as [|n]; [done|]. destruct m as [|m]; [lia|].
    simpl in *. intros h u Hu. apply (IH u n); [by apply (Hn h)|lia].
  - destruct n as [|n]; [done|]. destruct m as [|m]; [lia|].
    simpl in *. intros h res Hr. apply (IH res n); [by apply (Hn h)|lia].
Qed.

Lemma lasts_waiting {A} (f : Fiber A) n :
  waiting f = true → lasts U f n → ∃ n', n = S n'.
Proof.
  destruct f; try done; intros _ H; (destruct n; [done|eauto]).
Qed.

Lemma lasts_not_starved {A} (fs : list (Fiber A)) ns :
  Forall2 (lasts U) fs ns → starved fs = false.
Proof.
  induction 1 as [|f n fs ns Hf _ IH]; [done|].
  simpl. rewrite IH. by destruct f.
Qed.

Lemma sum_list_middle (l r : list nat) (n : nat) :
  sum_list (l ++ n :: r) = sum_list l + n + sum_list r.
Proof. induction l as [|x l IH]; simpl; lia. Qed.

(** A [Promise.all] over calls that come to an end is not cut off when
    the replies it may take cover them. *)
Lemma settleAll_lasts {A} n :
  ∀ (fs : list (Fiber A)) ns h,
    Forall2 (lasts U) fs ns → sum_list ns ≤ n →
    (settleAll U n fs h).1.1 ≠ OutOfFuel.
Proof.
  induction n as [|n IH]; intros fs ns h Hfs Hsum.
  - destruct (settleAll_cases U 0 fs h)
      as [(e & _ & ->)|[(_ & Hst & _)|[(xs & _ & _ & _ & ->)
         |(Hrej & Hst & Hres & Hp)]]]; try done.
    + by rewrite (lasts_not_starved fs ns Hfs) in Hst.
    + destruct (reply_inv U fs h Hp)
        as (l & f & r & f' & ev & -> & Hw & _).
      apply Forall2_app_inv_l in Hfs as (nl & nr & _ & Hfr & ->).
      apply Forall2_cons_inv_l in Hfr as (nf & nr' & Hf & _ & ->).
      destruct (lasts_waiting f nf Hw Hf) as [nf' ->].
      rewrite sum_list_middle in Hsum. lia.
  - destruct (settleAll_cases U (S n) fs h)
      as [(e & _ & ->)|[(_ & Hst & _)|[(xs & _ & _ & _ & ->)
         |(Hrej & Hst & Hres & Hp)]]]; try done.
    + by rewrite (lasts_not_starved fs ns Hfs) in Hst.
    + rewrite settleAll_step by done.
      destruct (reply_inv U fs h Hp)
        as (l & f & r & f' & ev & -> & Hw & Hd & ->).
      destruct (deliver_waiting U f h Hw)
        as (ev' & f'' & Hd' & _ & _ & Hfail).
      rewrite Hd in Hd'. injection Hd' as <- <-.
      apply Forall2_app_inv_l in Hfs as (nl & nr & Hl & Hfr & ->).
      apply Forall2_cons_inv_l in Hfr as (nf & nr' & Hf & Hr & ->).
      destruct (lasts_waiting f nf Hw Hf) as [nf' ->].
      rewrite sum_list_middle in Hsum.
      assert (lasts U f' nf') as Hf'.
      { destruct (failure ev); [by subst f'|]. by apply Hfail. }
      assert (Forall2 (lasts U) (l ++ f' :: r) (nl ++ nf' :: nr')) as Hfs'.
      { apply Forall2_app; [done|]. by constructor. }
      assert (sum_list (nl ++ nf' :: nr') ≤ n) as Hsum'.
      { rewrite sum_list_middle. lia. }
      specialize (IH (l ++ f' :: r) (nl ++ nf' :: nr') (h ++ [ev]) Hfs' Hsum').
      by destruct (settleAll U n (l ++ f' :: r) (h ++ [ev])) as [[o es] rest].
Qed.

Lemma await_lasts {A} (f : Fiber A) :
  ∀ n h, lasts U f n → (await U f h).1 ≠ OutOfFuel.
Proof.
  induction f as [a|e| |id k IH|req k IH]; intros n h Hn; cbn [await];
    try done.
  - destruct n as [|n]; [done|]. simpl in Hn.
    destruct (users_info U h id) as [e|u] eqn:Hr; [done|].
    specialize (IH u n (h ++ [EvUsersInfo id (inr u)]) (Hn h u Hr)).
    by destruct (await U (k u) _).
  - destruct n as [|n]; [done|]. simpl in Hn.
    destruct (users_conversations U h req) as [e|res] eqn:Hr; [done|].
    specialize (IH res n (h ++ [EvConversations req (inr res)]) (Hn h res Hr)).
    by destruct (await U (k res) _).
Qed.

(** A loop with a budget above the bound of the pagination comes to an
    end. *)
Lemma lasts_fetchLoop fuel :
  ∀ n userId acc cursor,
    paginates_within U userId cursor n → n < fuel →
    lasts U (Http.fetchLoop fuel userId acc cursor) (S n).
Proof.
  induction fuel as [|fuel IH]; intros n userId acc cursor Hn Hlt; [lia|].
  rewrite http_fetchLoop_turn. intros h res Hres.
  destruct (page_cursor res) as [k|] eqn:Hk; [|done].
  destruct n as [|n].
  - simpl in Hn. by destruct (Hn h res k Hres Hk).
  - apply IH; [|lia]. simpl in Hn. by apply (Hn h res k).
Qed.

Lemma lasts_usersInfo (ids : list string) :
  Forall2 (lasts U) (usersInfo <$> ids) (replicate (length ids) 1).
Proof. induction ids as [|id ids IH]; simpl; constructor; done. Qed.

Lemma sum_list_ones n : sum_list (replicate n 1) = n.
Proof. induction n as [|n IH]; simpl; lia. Qed.

Lemma finishing_bind {A B} (m : P A) (f : A → P B) :
  finishing m → (∀ a, finishing (f a)) → finishing (bind m f).
Proof.
  intros Hm Hf h bg. unfold bind. specialize (Hm h bg).
  destruct (m h bg) as [[[a|e|] es] bg']; simpl in *; [|done|done].
  specialize (Hf a (h ++ es) bg'). by destruct (f a (h ++ es) bg') as [[? ?] ?].
Qed.

Lemma finishing_say (m : Message) : finishing (say U m).
Proof.
  intros h bg. unfold say. destruct (meanwhile U bg h) as [es bg'].
  simpl. by destruct (say_result U (h ++ es) m).
Qed.

Lemma finishing_console_error (e : string) : finishing (console_error U e).
Proof.
  intros h bg. unfold console_error. by destruct (meanwhile U bg h).
Qed.

Lemma finishing_element {A} (xs : list A) i prop : finishing (element xs i prop).
Proof. intros h bg. unfold element. by destruct (xs !! i). Qed.

Lemma finishing_promiseAll {A} n (ps : list (Fiber A)) ns :
  Forall2 (lasts U) ps ns → sum_list ns ≤ n → finishing (promiseAll U n ps).
Proof.
  intros Hps Hsum h bg. unfold promiseAll.
  pose proof (settleAll_lasts n ps ns h Hps Hsum) as H.
  by destruct (settleAll U n ps h) as [[o es] [n' fs]].
Qed.

Lemma finishing_lookups (ids : list string) :
  finishing (promiseAll U (length ids) (usersInfo <$> ids)).
Proof.
  eapply finishing_promiseAll; [apply lasts_usersInfo|].
  by rewrite sum_list_ones.
Qed.

Lemma finishing_await {A} (f : Fiber A) n :
  lasts U f n → finishing (lift (await U f)).
Proof.
  intros Hf h bg. rewrite lift_run. simpl. by apply (await_lasts f n).
Qed.

Variable n : nat.
Hypothesis bounded : ∀ userId, paginates_within U userId None n.

Lemma finishing_tryBlock v fuel text :
  n < fuel → finishing (tryBlock_of v U fuel text).
Proof.
  intros Hfuel.
  assert (∀ userId, lasts U (Http.fetchLoop fuel userId [] None) (S n))
    as Hloop.
  { intros userId. by apply lasts_fetchLoop. }
  assert (∀ id1 id2,
            finishing (promiseAll U (fuel + fuel)
                         [Http.fetchUserChannelsAsync fuel id1;
                          Http.fetchUserChannelsAsync fuel id2])) as Hboth.
  { intros id1 id2. apply (finishing_promiseAll _ _ [S n; S n]).
    - repeat constructor; apply Hloop.
    - simpl. lia. }
  destruct v; simpl.
  - unfold Http.tryBlock.
    destruct (decide (length (Http.userIds text) = 0));
      [apply finishing_say|].
    apply finishing_bind; [apply finishing_lookups|]. intros userInfo.
    destruct (decide (length (Http.userIds text) = 1)).
    { apply finishing_bind; [apply finishing_element|]. intros u1.
      apply finishing_bind;
        [unfold Http.fetchUserChannels; apply (finishing_await _ (S n)), Hloop|].
      intros chans. apply finishing_say. }
    destruct (decide (length (Http.userIds text) = 2));
      [|apply finishing_say].
    apply finishing_bind; [apply finishing_element|]. intros u1.
    apply finishing_bind; [apply finishing_element|]. intros u2.
    apply finishing_bind; [apply Hboth|]. intros both.
    apply finishing_bind; [apply finishing_element|]. intros c1.
    apply finishing_bind; [apply finishing_element|]. intros c2.
    apply finishing_say.
  - unfold Socket.tryBlock.
    destruct (decide (length (Socket.userIds text) = 0
                      ∨ 2 < length (Socket.userIds text)));
      [apply finishing_say|].
    apply finishing_bind; [apply finishing_lookups|]. intros userInfo.
    destruct (decide (length (Socket.userIds text) = 1)).
    { apply finishing_bind; [apply finishing_element|]. intros u1.
      apply finishing_bind.
      - unfold Socket.fetchUserChannels.
        rewrite socket_fetchUserChannelsAsync_http.
        apply (finishing_await _ (S n)), Hloop.
      - intros chans. apply finishing_say. }
    apply finishing_bind; [apply finishing_element|]. intros u1.
    apply finishing_bind; [apply finishing_element|]. intros u2.
    apply finishing_bind.
    { rewrite !socket_fetchUserChannelsAsync_http. apply Hboth. }
    intros both.
    apply finishing_bind; [apply finishing_element|]. intros c1.
    apply finishing_bind; [apply finishing_element|]. intros c2.
    apply finishing_say.
Qed.

End Settling.

Section Outcomes.

Variables (U : Upstream) (body : P unit) (errorMessage : string → Message).

Lemma invocation_outcome (m : P unit) h :
  (invocation U m h).1 = (m h idle).1.1.
Proof.
  unfold invocation. destruct (m h idle) as [[o es] bg].
  by destruct (advance U (reserve bg) (inflight bg) (h ++ es)).
Qed.

(** A run is cut off only in its [try] block. *)
Lemma frame_cut_off h :
  (frame U body errorMessage h).1 = OutOfFuel →
  (body (h ++ [EvAck None]) idle).1.1 = OutOfFuel.
Proof.
  unfold frame. rewrite invocation_outcome.
  unfold bind at 1. unfold ack.
  destruct (ack_result U h) as [e|]; [done|]. cbn [settled].
  unfold tryCatch.
  destruct (body (h ++ [EvAck None]) idle) as [[[[]|e|] es] bg];
    cbn [fst snd]; [done| |done].
  pose proof (finishing_bind _ _ (finishing_console_error U e)
                (λ _, finishing_say U (errorMessage e))
                ((h ++ [EvAck None]) ++ es) bg) as H.
  destruct (bind (console_error U e) (λ _, say U (errorMessage e))
              ((h ++ [EvAck None]) ++ es) bg) as [[o es'] bg'].
  by destruct o.
Qed.

End Outcomes.

(** ** The Channel Fetcher: the claims *)

(** C3.  When the upstream serves a user N pages, every page but the last
    with a non-empty next cursor, the fetcher of either variant returns the
    channels of the N pages concatenated in page order, and its trace is
    exactly the N page requests, each presenting the cursor of the page
    before it; any budget of at least N iterations gives this result.  A
    user without channels is the case of one page with no channels: the
    result is the empty list after one request. *)
Theorem fetcher_returns_all_pages (v : Variant) (U : Upstream)
    (userId : string) (h : list Event) (pages : list ConvResponse)
    (fuel : nat) :
  serves U userId h None pages →
  length pages ≤ fuel →
  fetchUserChannels_of v U fuel userId h
  = (Done (concat (channels <$> pages)), page_events userId None pages)
  ∧ length (remote_calls (page_events userId None pages)) = length pages.
Proof.
  intros Hserves Hfuel. split.
  - destruct v; simpl; [|rewrite socket_fetchUserChannels_http];
      unfold Http.fetchUserChannels, Http.fetchUserChannelsAsync;
      by rewrite (fetchLoop_serves U userId h None pages Hserves fuel []).
  - by rewrite remote_calls_page_events, length_page_events.
Qed.

(** The user without channels: one page with no channel, one request, the
    empty list. *)
Lemma fetcher_returns_all_pages_witness :
  serves empty_upstream "U111" [] None [no_channels_page]
  ∧ length [no_channels_page] ≤ 1
  ∧ fetchUserChannels_of AppJs empty_upstream 1 "U111" []
    = (Done [], [page_event "U111" None (inr no_channels_page)]).
Proof.
  assert (serves empty_upstream "U111" [] None [no_channels_page]) as Hs.
  { apply serves_last; reflexivity. }
  assert (length [no_channels_page] ≤ 1) as Hl by (simpl; lia).
  split; [exact Hs|]. split; [exact Hl|].
  exact (proj1 (fetcher_returns_all_pages AppJs empty_upstream "U111" []
                  [no_channels_page] 1 Hs Hl)).
Defined.

(** Two pages, linked by the cursor of the first. *)
Example alice_two_pages :
  serves scenario_upstream "U111" [] None [alice_page1; alice_page2]
  ∧ ∀ v, fetchUserChannels_of v scenario_upstream 2 "U111" []
         = (Done [general; eng],
            [page_event "U111" None (inr alice_page1);
             page_event "U111" (Some "page2") (inr alice_page2)]).
Proof.
  split.
  - eapply serves_more; [reflexivity|reflexivity|].
    apply serves_last; reflexivity.
  - intros []; reflexivity.
Qed.

(** C4, as the code has it.  The pagination loop of either variant
    terminates whenever the upstream ends the pagination after finitely
    many requests, by a failure or by a page without a non-empty next
    cursor: from some budget on the loop does not run out of iterations.
    Nothing in the loop looks at the cursors it has seen before. *)
Theorem pagination_terminates_when_upstream_halts (v : Variant)
    (U : Upstream) (userId : string) (h : list Event) :
  halts U userId h None →
  ∃ n, ∀ fuel, n ≤ fuel →
    (fetchUserChannels_of v U fuel userId h).1 ≠ OutOfFuel.
Proof.
  intros Hhalts.
  destruct (fetchLoop_halts U userId h None Hhalts) as (n & es & res & Hn).
  exists n. intros fuel Hfuel.
  destruct v; simpl; [|rewrite socket_fetchUserChannels_http];
    unfold Http.fetchUserChannels, Http.fetchUserChannelsAsync; rewrite (Hn fuel [] Hfuel);
    by destruct res.
Qed.

(** A pagination that ends at once, by a refused request. *)
Lemma pagination_terminates_witness :
  halts refusing_upstream "U111" [] None
  ∧ ∃ n, ∀ fuel, n ≤ fuel →
      (fetchUserChannels_of SocketMode refusing_upstream fuel "U111" []).1
      ≠ OutOfFuel.
Proof.
  assert (halts refusing_upstream "U111" [] None) as Hh.
  { eapply halts_error. reflexivity. }
  split; [exact Hh|].
  exact (pagination_terminates_when_upstream_halts SocketMode
           refusing_upstream "U111" [] Hh).
Defined.

(** C4, as stated, fails: with an upstream that returns the same non-empty
    cursor on every page, no budget lets the loop of either variant
    finish. *)
Lemma repeating_cursor_never_terminates :
  ¬ (∃ fuel,
       (Http.fetchUserChannels repeating_upstream fuel "U111" []).1
       ≠ OutOfFuel)
  ∧ ¬ (∃ fuel,
         (Socket.fetchUserChannels repeating_upstream fuel "U111" []).1
         ≠ OutOfFuel).
Proof.
  split; intros [fuel Hfuel]; apply Hfuel.
  - apply fetchLoop_repeating.
  - rewrite socket_fetchUserChannels_http. apply fetchLoop_repeating.
Qed.

(** ** Runs of the [try] block *)

Section Runs.

Variable U : Upstream.

Lemma serve_length {A} (fs : list (Fiber A)) :
  ∀ i h, length (serve U i fs h).1 = length fs.
Proof.
  induction fs as [|f fs IH]; intros i h; [done|]. cbn [serve].
  destruct (waiting f).
  - destruct i as [|i].
    + by destruct (deliver U f h).
    + specialize (IH i h). destruct (serve U i fs h). simpl in *. by rewrite IH.
  - specialize (IH i h). destruct (serve U i fs h). simpl in *. by rewrite IH.
Qed.

Lemma results_length {A} (fs : list (Fiber A)) xs :
  results fs = Some xs → length xs = length fs.
Proof.
  revert xs. induction fs as [|f fs IH]; intros xs; simpl.
  - by intros [= <-].
  - destruct f; try done. destruct (results fs) as [ys|]; [|done].
    intros [= <-]. simpl. by rewrite (IH ys).
Qed.

(** Where a [Promise.all] ends: fulfilled with the results of its
    members, as many as there are, or rejected by one of them. *)
Lemma settleAll_end {A} n :
  ∀ (fs : list (Fiber A)) h,
    match settleAll U n fs h with
    | (Done xs, _, (_, fs')) =>
        results fs' = Some xs ∧ length xs = length fs
    | (Thrown e, _, (_, fs')) => rejection fs' = Some e
    | (OutOfFuel, _, _) => True
    end.
Proof.
  induction n as [|n IH]; intros fs h.
  - destruct (settleAll_cases U 0 fs h)
      as [(e & Hrej & ->)|[(_ & _ & ->)|[(xs & _ & _ & Hres & ->)
         |(Hrej & Hst & Hres & _)]]]; try done.
    + split; [done|]. by apply results_length.
    + by rewrite settleAll_out.
  - destruct (settleAll_cases U (S n) fs h)
      as [(e & Hrej & ->)|[(_ & _ & ->)|[(xs & _ & _ & Hres & ->)
         |(Hrej & Hst & Hres & _)]]]; try done.
    + split; [done|]. by apply results_length.
    + rewrite settleAll_step by done. unfold reply.
      pose proof (serve_length fs
                    (answered_next U h (pending fs) `mod` pending fs) h) as Hl.
      destruct (serve U _ fs h) as [fs' ev]. simpl in Hl.
      specialize (IH fs' (h ++ ev)).
      destruct (settleAll U n fs' (h ++ ev)) as [[[xs|e|] es] [n' fs'']];
        [|done|done].
      destruct IH as [? ?]. split; [done|]. congruence.
Qed.

(** *** The lookups *)

Lemma looking_start (ids : list string) :
  Forall2 (looking U) ids (usersInfo <$> ids).
Proof. induction ids; simpl; constructor; [by left|done]. Qed.

(** The lookups stay lookups, and what they emit are answers to lookups
    of the IDs. *)
Lemma settleAll_looking n :
  ∀ fs ids h,
    Forall2 (looking U) ids fs →
    Forall2 (looking U) ids (settleAll U n fs h).2.2
    ∧ Forall (λ ev, ∃ id h', id ∈ ids
                     ∧ ev = EvUsersInfo id (users_info U h' id))
        (settleAll U n fs h).1.2.
Proof.
  induction n as [|n IH]; intros fs ids h Hfs.
  - destruct (settleAll_cases U 0 fs h)
      as [(e & _ & ->)|[(_ & _ & ->)|[(xs & _ & _ & _ & ->)
         |(Hrej & Hst & Hres & _)]]]; try (split; [done|constructor]).
    rewrite settleAll_out by done. split; [done|constructor].
  - destruct (settleAll_cases U (S n) fs h)
      as [(e & _ & ->)|[(_ & _ & ->)|[(xs & _ & _ & _ & ->)
         |(Hrej & Hst & Hres & Hp)]]]; try (split; [done|constructor]).
    rewrite settleAll_step by done.
    destruct (reply_inv U fs h Hp)
      as (l & f & r & f' & ev & -> & Hw & Hd & ->).
    apply Forall2_app_inv_r in Hfs as (il & ir & Hl & Hfr & ->).
    apply Forall2_cons_inv_r in Hfr as (id & ir' & Hf & Hr & ->).
    destruct Hf as [->|[(u & h' & _ & ->)|(e & h' & _ & ->)]]; try done.
    cbn [deliver usersInfo] in Hd. injection Hd as <- <-.
    assert (looking U id
              match users_info U h id with
              | inl e => Rejected e
              | inr u => Resolved u
              end) as Hf'.
    { destruct (users_info U h id) as [e|u] eqn:Hr'.
      - right; right. by exists e, h.
      - right; left. by exists u, h. }
    assert (Forall2 (looking U) (il ++ id :: ir')
              (l ++ match users_info U h id with
                    | inl e => Rejected e
                    | inr u => Resolved u
                    end :: r)) as Hfs'.
    { apply Forall2_app; [done|]. by constructor. }
    destruct (IH _ _ (h ++ [EvUsersInfo id (users_info U h id)]) Hfs')
      as [IH1 IH2].
    destruct (settleAll U n _ (h ++ [EvUsersInfo id (users_info U h id)]))
      as [[o es] rest].
    simpl in *. split; [done|]. apply Forall_cons. split; [|done].
    exists id, h. split; [|done]. apply elem_of_app. right. left.
Qed.

(** When the [Promise.all] of the lookups is fulfilled, the upstream has
    resolved every user. *)
Lemma lookups_done_resolved n (ids : list string) h us es rest :
  settleAll U n (usersInfo <$> ids) h = (Done us, es, rest) →
  length us = length ids
  ∧ ∀ id, id ∈ ids → ∃ u h', users_info U h' id = inr u.
Proof.
  intros Hrun.
  pose proof (settleAll_end n (usersInfo <$> ids) h) as Hend.
  pose proof (settleAll_looking n _ ids h (looking_start ids)) as [Hlook _].
  rewrite Hrun in Hend, Hlook. destruct rest as [n' fs']. simpl in Hlook.
  destruct Hend as [Hres Hlen]. rewrite length_fmap in Hlen.
  split; [done|]. clear Hrun Hlen. revert us Hres.
  induction Hlook as [|id f ids' fs'' Hf _ IH]; intros us Hres id0 Hin.
  { by apply elem_of_nil in Hin. }
  simpl in Hres.
  destruct Hf as [->|[(u & h' & Hu & ->)|(e & h' & _ & ->)]]; try done.
  destruct (results fs'') as [ys|] eqn:Hys; [|done].
  apply elem_of_cons in Hin as [->|Hin]; [by exists u, h'|].
  by apply (IH ys).
Qed.

(** When the upstream resolves every user, it is fulfilled. *)
Lemma lookups_resolved_done (ids : list string) h bg :
  (∀ h' id, ∃ u, users_info U h' id = inr u) →
  ∃ us es,
    promiseAll U (length ids) (usersInfo <$> ids) h bg = (Done us, es, bg)
    ∧ length us = length ids.
Proof.
  intros Hall. unfold promiseAll.
  pose proof (finishing_lookups U ids h bg) as Hfin.
  unfold promiseAll in Hfin.
  pose proof (settleAll_stage U (length ids) _ h (honest_usersInfo ids))
    as Hstage.
  pose proof (settleAll_looking (length ids) _ ids h (looking_start ids))
    as [_ Hev].
  destruct (settleAll U (length ids) (usersInfo <$> ids) h)
    as [[[us|e|] es] [n' fs']] eqn:Hrun; simpl in *.
  - exists us, es. split; [done|].
    by apply (lookups_done_resolved _ _ _ _ _ _ Hrun).
  - destruct Hstage as (pre & ev & -> & _ & _ & Hfail).
    apply Forall_app in Hev as [_ Hev]. apply Forall_cons in Hev as [Hev _].
    destruct Hev as (id & h' & _ & ->).
    destruct (Hall h' id) as [u Hu]. rewrite Hu in Hfail. done.
  - done.
Qed.

(** One lookup. *)
Lemma reply_single {A} (f : Fiber A) h :
  waiting f = true →
  reply U [f] h = ([(deliver U f h).1], (deliver U f h).2).
Proof.
  intros Hw. unfold reply. rewrite pending_cons, Hw.
  change (pending []) with 0. rewrite Nat.mod_1_r.
  cbn [serve]. rewrite Hw. by destruct (deliver U f h).
Qed.

Lemma lookup_one_run (id : string) (u : User) h bg :
  users_info U h id = inr u →
  promiseAll U 1 [usersInfo id] h bg
  = (Done [u], [EvUsersInfo id (inr u)], bg).
Proof.
  intros Hu. unfold promiseAll.
  rewrite settleAll_step by done. rewrite reply_single by done.
  cbn [deliver usersInfo fst snd]. rewrite Hu. reflexivity.
Qed.

Lemma lookup_one_fails (id e : string) h :
  users_info U h id = inl e →
  promiseAll U 1 [usersInfo id] h idle
  = (Thrown e, [EvUsersInfo id (inl e)], idle).
Proof.
  intros Hu. unfold promiseAll.
  rewrite settleAll_step by done. rewrite reply_single by done.
  cbn [deliver usersInfo fst snd]. rewrite Hu. reflexivity.
Qed.

Lemma say_sent (m : Message) h :
  say_result U h m = None → say U m h idle = (Done tt, [EvSay m None], idle).
Proof. intros Hs. by rewrite say_idle, Hs. Qed.

Lemma element_run {A} (xs : list A) i prop x h bg :
  xs !! i = Some x → element xs i prop h bg = (Done x, [], bg).
Proof. intros Hx. unfold element. by rewrite Hx. Qed.

End Runs.

(** ** A failure at the upstream fails the run *)

Section Failing.

Variable U : Upstream.

(** A user whom the upstream never resolves rejects the [Promise.all] of
    the lookups. *)
Lemma lookups_unresolvable (ids : list string) h :
  unresolvable U ids →
  ∃ e pre ev bg,
    promiseAll U (length ids) (usersInfo <$> ids) h idle
    = (Thrown e, pre ++ [ev], bg)
    ∧ failure ev = Some e.
Proof.
  intros (id & Hin & Hid).
  pose proof (settleAll_stage U (length ids) _ h (honest_usersInfo ids))
    as Hstage.
  pose proof (finishing_lookups U ids h idle) as Hfin.
  unfold promiseAll in *.
  destruct (settleAll U (length ids) (usersInfo <$> ids) h)
    as [[[us|e|] es] [n' fs']] eqn:Hrun; simpl in *.
  - destruct (lookups_done_resolved U _ _ _ _ _ _ Hrun) as [_ Hres].
    destruct (Hres id Hin) as (u & h' & Hu).
    destruct (Hid h') as [e He]. congruence.
  - destruct Hstage as (pre & ev & -> & _ & _ & Hfail).
    by eexists e, pre, ev, _.
  - done.
Qed.

(** A loop whose first request the upstream refuses. *)
Lemma fetch_unlistable fuel userId h :
  unlistable U →
  ∃ e ev,
    await U (Http.fetchLoop (S fuel) userId [] None) h = (Thrown e, [ev])
    ∧ failure ev = Some e.
Proof.
  intros [_ Hconv]. rewrite http_fetchLoop_step.
  destruct (Hconv h (page_request userId None)) as [e ->].
  by eexists e, _.
Qed.

(** Two loops in flight: the first reply, whichever it is, is a
    refusal. *)
Lemma fetch_both_unlistable fuel id1 id2 h :
  unlistable U →
  ∃ e ev bg,
    promiseAll U (S fuel + S fuel)
      [Http.fetchUserChannelsAsync (S fuel) id1;
       Http.fetchUserChannelsAsync (S fuel) id2] h idle
    = (Thrown e, [ev], bg)
    ∧ failure ev = Some e.
Proof.
  intros [_ Hconv]. unfold promiseAll, Http.fetchUserChannelsAsync.
  rewrite !http_fetchLoop_turn.
  match goal with
  | |- context [settleAll U _ ?fs h] => set (members := fs)
  end.
  assert (Forall honest members) as Hhon.
  { repeat constructor; intros res; destruct (page_cursor res);
      try done; apply honest_fetchLoop. }
  cbn [Nat.add]. rewrite settleAll_step by done.
  destruct (reply_inv U members h) as (l & f & r & f' & ev & Hm & Hw & Hd & ->);
    [done|].
  assert (∃ e, f' = Rejected e ∧ failure ev = Some e) as (e & -> & Hfail).
  { assert (f ∈ members) as Hin.
    { rewrite Hm. apply elem_of_app. right. left. }
    subst members.
    apply elem_of_cons in Hin as [->|Hin];
      [|apply list_elem_of_singleton in Hin as ->];
      cbn [deliver] in Hd;
      match type of Hd with
      | context [users_conversations U h ?req] =>
          destruct (Hconv h req) as [e He]; rewrite He in Hd
      end;
      injection Hd as <- <-; by exists e. }
  rewrite Hm in Hhon. apply Forall_app in Hhon as [Hl _].
  rewrite (settleAll_rejected U _ _ _ e) by (by apply rejection_here).
  simpl. by eexists e, ev, _.
Qed.

(** The [try] block of either variant when it looks users up. *)
Lemma tryBlock_looking_up v fuel text :
  looked_up v (userIds_of v text) ≠ [] →
  tryBlock_of v U fuel text
  = bind (promiseAll U (length (userIds_of v text))
            (usersInfo <$> userIds_of v text))
      (λ userInfo,
         if decide (length (userIds_of v text) = 1) then
           let! u1 := element userInfo 0 "id" in
           let! ch := lift (Http.fetchUserChannels U fuel (u_id u1)) in
           say U (match v with
                  | AppJs => Http.singleReport u1 ch
                  | SocketMode => Socket.singleReport u1 ch
                  end)
         else if decide (length (userIds_of v text) = 2) then
           let! u1 := element userInfo 0 "id" in
           let! u2 := element userInfo 1 "id" in
           let! both := promiseAll U (fuel + fuel)
             [Http.fetchUserChannelsAsync fuel (u_id u1);
              Http.fetchUserChannelsAsync fuel (u_id u2)] in
           let! c1 := element both 0 "map" in
           let! c2 := element both 1 "map" in
           say U (match v with
                  | AppJs => Http.comparisonReport u1 u2 c1 c2
                  | SocketMode => Socket.comparisonReport u1 u2 c1 c2
                  end)
         else say U Http.tooManyUsers).
Proof.
  intros Hne. destruct v; unfold tryBlock_of, userIds_of, looked_up in *.
  - unfold Http.tryBlock. rewrite decide_False; [done|].
    by destruct (Http.userIds text).
  - unfold Socket.tryBlock.
    destruct (decide (2 < length (Socket.userIds text))) as [Hm|Hm]; [done|].
    assert (length (Socket.userIds text) ≠ 0) as Hz.
    { by destruct (Socket.userIds text). }
    rewrite decide_False by lia.
    assert (Socket.fetchUserChannelsAsync = Http.fetchUserChannelsAsync)
      as Hsame.
    { do 2 (apply functional_extensionality; intros).
      apply socket_fetchUserChannelsAsync_http. }
    unfold Socket.fetchUserChannels, Http.fetchUserChannels.
    rewrite Hsame.
    f_equal. apply functional_extensionality. intros userInfo.
    destruct (decide (length (Socket.userIds text) = 1)); [done|].
    by rewrite decide_True by lia.
Qed.

(** A user whom the upstream never resolves, or an upstream that refuses
    to list the channels of the users it resolved: the [try] block ends
    with a failed remote call. *)
Lemma tryBlock_fails v fuel text h :
  unresolvable U (looked_up v (userIds_of v text))
  ∨ (unlistable U ∧ 0 < fuel
     ∧ 1 ≤ length (userIds_of v text) ≤ 2) →
  ∃ e pre ev bg,
    tryBlock_of v U fuel text h idle = (Thrown e, pre ++ [ev], bg)
    ∧ failure ev = Some e.
Proof.
  intros Hfails.
  assert (looked_up v (userIds_of v text) = userIds_of v text
          ∧ userIds_of v text ≠ []) as [Hlook Hne].
  { destruct Hfails as [(id & Hin & _)|(_ & _ & Hlen)].
    - destruct v; simpl in *.
      + split; [done|]. destruct (Http.userIds text); [|done].
        by apply elem_of_nil in Hin.
      + destruct (decide (2 < length (Socket.userIds text)));
          [by apply elem_of_nil in Hin|].
        split; [done|]. destruct (Socket.userIds text); [|done].
        by apply elem_of_nil in Hin.
    - split; [|destruct (userIds_of v text); [simpl in Hlen; lia|done]].
      destruct v; simpl in *; [done|]. rewrite decide_False; [done|lia]. }
  rewrite tryBlock_looking_up by (by rewrite Hlook).
  rewrite Hlook in Hfails.
  destruct Hfails as [Hunres|(Hunl & Hfuel & Hlen)].
  { destruct (lookups_unresolvable _ h Hunres)
      as (e & pre & ev & bg & Hrun & Hf).
    exists e, pre, ev, bg. split; [|done]. by apply bind_thrown. }
  destruct (lookups_resolved_done U (userIds_of v text) h idle (proj1 Hunl))
    as (us & es & Hrun & Hus).
  destruct fuel as [|fuel]; [lia|].
  destruct (decide (length (userIds_of v text) = 1)) as [H1|H1].
  - destruct us as [|u1 [|? ?]]; simpl in Hus; try lia.
    destruct (fetch_unlistable fuel (u_id u1) ((h ++ es) ++ []) Hunl)
      as (e & ev & Hfetch & Hf).
    exists e, (es ++ []), ev, idle. split; [|done].
    rewrite <- app_assoc.
    eapply bind_run; [exact Hrun|]. cbv beta iota.
    eapply bind_run; [by apply element_run|].
    apply bind_thrown. rewrite lift_run.
    unfold Http.fetchUserChannels, Http.fetchUserChannelsAsync.
    by rewrite Hfetch.
  - destruct us as [|u1 [|u2 [|? ?]]]; simpl in Hus; try lia.
    destruct (fetch_both_unlistable fuel (u_id u1) (u_id u2)
                (((h ++ es) ++ []) ++ []) Hunl)
      as (e & ev & bg & Hfetch & Hf).
    exists e, (es ++ [] ++ []), ev, bg. split; [|done].
    rewrite <- !app_assoc.
    eapply bind_run; [exact Hrun|]. cbv beta iota.
    rewrite decide_True by lia.
    eapply bind_run; [by apply element_run|].
    eapply bind_run; [by apply element_run|].
    by apply bind_thrown.
Qed.

End Failing.

Section FrameFailing.

Variables (U : Upstream) (body : P unit) (errorMessage : string → Message).

(** A failed remote call in the [try] block is in the trace of the
    run. *)
Lemma frame_failure h e pre ev bg :
  ack_result U h = None →
  body (h ++ [EvAck None]) idle = (Thrown e, pre ++ [ev], bg) →
  ∃ tail, (frame U body errorMessage h).2 = EvAck None :: pre ++ [ev] ++ tail.
Proof.
  intros Hack Hbody. unfold frame.
  destruct (catch_run U errorMessage e ((h ++ [EvAck None]) ++ pre ++ [ev]) bg)
    as (b1 & b2 & bg' & hs & Hb1 & Hb2 & Hcatch).
  erewrite invocation_run; last first.
  { eapply (bind_run _ _ _ _ _ [EvAck None]); [unfold ack; by rewrite Hack|].
    unfold tryCatch. rewrite Hbody, Hcatch. reflexivity. }
  cbn [fst snd]. eexists. simpl. rewrite <- !app_assoc. reflexivity.
Qed.

End FrameFailing.

(** ** The handlers: the claims *)

Section FirstFailure.

(** The failures of a run in which a remote call failed start with the
    failure of that call. *)
Lemma failures_first r (pre tail : list Event) ev e :
  clean pre → failure ev = Some e →
  failures (EvAck r :: pre ++ ev :: tail) = e :: failures tail.
Proof.
  intros Hpre Hev. change (ev :: tail) with ([ev] ++ tail).
  rewrite failures_trace, (failures_clean pre Hpre), failures_app.
  unfold failures at 1. simpl. by rewrite Hev.
Qed.

(** What such a run says and sends. *)
Lemma says_failed r' (pre b1 b2 b3 : list Event) ev e m r :
  remote pre → is_remote ev = true → remote b1 → remote b2 → remote b3 →
  says (EvAck r' :: pre ++ ev :: b1 ++ EvLog e :: b2 ++ EvSay m r :: b3)
  = [m].
Proof.
  intros Hpre Hev H1 H2 H3.
  change (ev :: b1 ++ EvLog e :: b2 ++ EvSay m r :: b3)
    with ([ev] ++ (b1 ++ [EvLog e] ++ b2 ++ [EvSay m r] ++ b3)).
  rewrite says_trace, says_app, says_tail by done.
  by rewrite (says_remote [ev]) by (by apply remote_one).
Qed.

Lemma delivered_failed r' (pre b1 b2 b3 : list Event) ev e m r :
  remote pre → is_remote ev = true → remote b1 → remote b2 → remote b3 →
  delivered (EvAck r' :: pre ++ ev :: b1 ++ EvLog e :: b2 ++ EvSay m r :: b3)
  = match r with None => [m] | Some _ => [] end.
Proof.
  intros Hpre Hev H1 H2 H3.
  change (ev :: b1 ++ EvLog e :: b2 ++ EvSay m r :: b3)
    with ([ev] ++ (b1 ++ [EvLog e] ++ b2 ++ [EvSay m r] ++ b3)).
  rewrite delivered_trace, delivered_app, delivered_tail by done.
  by rewrite (delivered_remote [ev]) by (by apply remote_one).
Qed.

Lemma failures_said r (pre : list Event) (evs : list Event) :
  clean pre → Forall (λ ev, is_remote ev = false) evs →
  failures (EvAck r :: pre ++ evs) = [].
Proof.
  intros Hpre Hevs.
  rewrite failures_trace, (failures_clean pre Hpre). simpl.
  induction Hevs as [|ev evs Hev _ IH]; [done|].
  unfold failures in *. by destruct ev.
Qed.

End FirstFailure.

Section CutOff.

Variable U : Upstream.

(** One user, who resolves, and a pagination that the budget cuts off. *)
Lemma single_user_cut_off v fuel text id u h :
  userIds_of v text = [id] →
  ack_result U h = None →
  users_info U (h ++ [EvAck None]) id = inr u →
  (∀ h', (await U (Http.fetchLoop fuel (u_id u) [] None) h').1 = OutOfFuel) →
  (handler_of v U fuel text h).1 = OutOfFuel.
Proof.
  intros Hids Hack Hu Hloop.
  assert (∃ es, tryBlock_of v U fuel text (h ++ [EvAck None]) idle
                = (OutOfFuel, es, idle)) as [es Hbody].
  { rewrite tryBlock_looking_up
      by (rewrite Hids; destruct v; [done|by simpl]).
    rewrite Hids. cbn [length fmap list_fmap].
    eexists. eapply bind_run; [by apply lookup_one_run|]. cbv beta.
    rewrite decide_True by done.
    eapply bind_run; [by apply element_run|].
    apply bind_starved. rewrite lift_run.
    unfold Http.fetchUserChannels, Http.fetchUserChannelsAsync.
    rewrite Hloop. reflexivity. }
  rewrite handler_frame, frame_idle, Hack by (by rewrite Hbody).
  cbv zeta. by rewrite Hbody.
Qed.

End CutOff.



(** A refused page request is answered like a failed lookup. *)
Example fetch_failure_same_response :
  ∀ v, delivered (handler_of v refusing_upstream 1 "<@U111>" []).2
       = [errorMessage_of v "missing_scope"].
Proof. intros []; reflexivity. Qed.

(** Two requests in flight fail: the one that fails first is reported, the
    other failure is only a later event of the trace. *)
Example first_of_two_failures_reported :
  ∀ v,
    failures (handler_of v two_failures_upstream 2 "<@U111> <@U222>" []).2
    = ["missing_scope"; "ratelimited"]
    ∧ says (handler_of v two_failures_upstream 2 "<@U111> <@U222>" []).2
      = [errorMessage_of v "missing_scope"].
Proof. intros []; split; reflexivity. Qed.



(** A rejected answer is followed by the error message of the [catch]
    clause: two messages are said and one is sent. *)
Example answer_rejected_then_error_sent :
  ∀ v,
    says (handler_of v first_say_rejected 1 "<@U111>" []).2
    = [match v with
       | AppJs => Http.singleReport (mkUser "U111" (Some "U111") "U111") []
       | SocketMode => Socket.singleReport (mkUser "U111" (Some "U111") "U111") []
       end;
       errorMessage_of v "invalid_blocks"]
    ∧ delivered (handler_of v first_say_rejected 1 "<@U111>" []).2
      = [errorMessage_of v "invalid_blocks"].
Proof. intros []; split; reflexivity. Qed.


(** C9.  In either variant the trace of every invocation begins with the
    acknowledgment, and nothing after it is an acknowledgment: every user
    lookup, every page request and every [say] come later and are events
    of their own.  When the acknowledgment is rejected nothing follows
    it. *)
Theorem ack_comes_first (v : Variant) (U : Upstream) (fuel : nat)
    (command_text : string) (h : list Event) :
  ∃ r rest,
    (handler_of v U fuel command_text h).2 = EvAck r :: rest
    ∧ Forall (λ ev, is_ack ev = false) rest
    ∧ (r ≠ None → rest = []).
Proof.
  pose proof (handler_shape U v fuel command_text h) as Hshape.
  run_cases Hshape; cbn [snd]; eexists _, _; (split; [reflexivity|]).
  - split; [constructor|done].
  - split; [|done]. apply Forall_app. split.
    + by apply remote_not_ack.
    + by repeat constructor.
  - split; [|done]. apply Forall_app. split.
    + by apply remote_not_ack.
    + by repeat constructor.
  - split; [|done].
    apply Forall_app. split; [by apply remote_not_ack|].
    apply Forall_cons. split; [by destruct ev|].
    apply Forall_app. split; [by apply remote_not_ack|].
    apply Forall_cons. split; [done|].
    apply Forall_app. split; [by apply remote_not_ack|].
    apply Forall_cons. split; [done|]. by apply remote_not_ack.
  - split; [|done]. apply Forall_app. split.
    + by apply remote_not_ack.
    + by repeat constructor.
  - split; [|done]. by apply remote_not_ack.
Qed.

(** ** Validation of the number of users *)

Section Validation.

Variable U : Upstream.

Lemma say_only_no_remote_calls (m : Message)
    (errorMessage : string → Message) h :
  remote_calls (frame U (say U m) errorMessage h).2 = []
  ∧ (reliable_outbound U →
     frame U (say U m) errorMessage h
     = (Done tt, [EvAck None; EvSay m None])).
Proof.
  rewrite frame_idle by (by rewrite say_idle). cbv zeta.
  rewrite !say_idle. cbn [fst snd]. split.
  - destruct (ack_result U h); [done|].
    destruct (say_result U (h ++ [EvAck None]) m); done.
  - intros [Hack Hsay]. by rewrite Hack, Hsay.
Qed.

(** Lookups that have just been issued: none is settled. *)
Lemma lookups_unsettled (ids : list string) :
  ids ≠ [] →
  rejection (usersInfo <$> ids) = None
  ∧ starved (usersInfo <$> ids) = false
  ∧ results (usersInfo <$> ids) = None.
Proof.
  intros Hne. split; [|split].
  - clear Hne. by induction ids.
  - clear Hne. by induction ids.
  - by destruct ids.
Qed.

(** The Socket Mode variant rejects before it resolves anybody. *)
Lemma socket_usage_error_no_remote_calls fuel text h :
  length (Socket.userIds text) = 0 ∨ 2 < length (Socket.userIds text) →
  remote_calls (Socket.handler U fuel text h).2 = []
  ∧ (reliable_outbound U →
     Socket.handler U fuel text h
     = (Done tt, [EvAck None; EvSay Socket.usageHint None])).
Proof.
  intros Hlen.
  change (Socket.handler U fuel text h)
    with (frame U (Socket.tryBlock U fuel text) Socket.errorMessage h).
  unfold Socket.tryBlock. rewrite decide_True by done.
  apply say_only_no_remote_calls.
Qed.

(** So does app.js when nobody is mentioned. *)
Lemma http_no_user_no_remote_calls fuel text h :
  length (Http.userIds text) = 0 →
  remote_calls (Http.handler U fuel text h).2 = []
  ∧ (reliable_outbound U →
     Http.handler U fuel text h
     = (Done tt, [EvAck None; EvSay Http.usageHint None])).
Proof.
  intros Hlen.
  change (Http.handler U fuel text h)
    with (frame U (Http.tryBlock U fuel text) Http.errorMessage h).
  unfold Http.tryBlock. rewrite decide_True by done.
  apply say_only_no_remote_calls.
Qed.

(** What a computation has emitted stays at the head of the trace. *)
Lemma bind_trace_prefix {A B} (m : P A) (f : A → P B) h bg :
  ∃ tail, (bind m f h bg).1.2 = (m h bg).1.2 ++ tail.
Proof.
  unfold bind. destruct (m h bg) as [[[a|e|] es] bg']; cbn [fst snd].
  - destruct (f a (h ++ es) bg') as [[r es'] bg'']. by exists es'.
  - exists []. by rewrite app_nil_r.
  - exists []. by rewrite app_nil_r.
Qed.

Lemma tryCatch_trace_prefix {A} (body : P A) (handler : string → P A) h bg :
  ∃ tail, (tryCatch body handler h bg).1.2 = (body h bg).1.2 ++ tail.
Proof.
  unfold tryCatch. destruct (body h bg) as [[[a|e|] es] bg']; cbn [fst snd].
  - exists []. by rewrite app_nil_r.
  - destruct (handler e (h ++ es) bg') as [[r es'] bg'']. by exists es'.
  - exists []. by rewrite app_nil_r.
Qed.

Lemma invocation_trace_prefix (m : P unit) h :
  ∃ tail, (invocation U m h).2 = (m h idle).1.2 ++ tail.
Proof.
  unfold invocation. destruct (m h idle) as [[o es] bg].
  destruct (advance U (reserve bg) (inflight bg) (h ++ es)) as [es' fs].
  by exists es'.
Qed.

Lemma ack_then (k : unit → P unit) h :
  ack_result U h = None →
  bind (ack U) k h idle
  = ((k tt (h ++ [EvAck None]) idle).1.1,
     EvAck None :: (k tt (h ++ [EvAck None]) idle).1.2,
     (k tt (h ++ [EvAck None]) idle).2).
Proof.
  intros Hack. unfold bind, ack. rewrite Hack. cbn [settled].
  by destruct (k tt (h ++ [EvAck None]) idle) as [[? ?] ?].
Qed.

(** The first reply to the lookups of [ids]. *)
Lemma lookups_first_reply (ids : list string) h bg :
  ids ≠ [] →
  ∃ id rest,
    id ∈ ids
    ∧ (promiseAll U (length ids) (usersInfo <$> ids) h bg).1.2
      = EvUsersInfo id (users_info U h id) :: rest.
Proof.
  intros Hne. unfold promiseAll.
  destruct (lookups_unsettled ids Hne) as (Hrej & Hst & Hres).
  destruct (length ids) as [|n] eqn:Hn; [by destruct ids|].
  rewrite settleAll_step by done.
  destruct (reply_inv U (usersInfo <$> ids) h)
    as (l & f & r & f' & ev & Hm & Hw & Hd & ->);
    [by apply pending_unsettled|].
  assert (f ∈ usersInfo <$> ids) as Hin.
  { rewrite Hm. apply elem_of_app. right. left. }
  apply list_elem_of_fmap in Hin as (id & -> & Hin).
  cbn [deliver usersInfo] in Hd.
  destruct (settleAll U n (l ++ f' :: r) (h ++ [ev])) as [[o es] [n' fs']].
  exists id, es. split; [done|]. cbn [fst snd].
  destruct (users_info U h id); injection Hd as <- <-; reflexivity.
Qed.

(** With a user mentioned and the command acknowledged, app.js starts with
    a lookup, however many users are mentioned. *)
Lemma http_lookup_before_count fuel text h :
  length (Http.userIds text) ≠ 0 →
  ack_result U h = None →
  ∃ id r rest,
    id ∈ Http.userIds text
    ∧ (Http.handler U fuel text h).2 = EvAck None :: EvUsersInfo id r :: rest.
Proof.
  intros Hlen Hack.
  destruct (lookups_first_reply (Http.userIds text) (h ++ [EvAck None]) idle)
    as (id & rest & Hid & Hrun); [by destruct (Http.userIds text)|].
  exists id, (users_info U (h ++ [EvAck None]) id).
  unfold Http.handler.
  match goal with
  | |- context [invocation U (bind (ack U) ?k) h] =>
      destruct (invocation_trace_prefix (bind (ack U) k) h) as [t1 ->];
      rewrite (ack_then k h Hack)
  end.
  cbv beta. cbn [fst snd].
  match goal with
  | |- context [tryCatch ?body ?handler ?h' ?bg] =>
      destruct (tryCatch_trace_prefix body handler h' bg) as [t2 ->]
  end.
  unfold Http.tryBlock. rewrite decide_False by done.
  match goal with
  | |- context [(bind ?m ?f ?h' ?bg).1.2] =>
      destruct (bind_trace_prefix m f h' bg) as [t3 ->]
  end.
  rewrite Hrun. eexists. split; [done|]. reflexivity.
Qed.

End Validation.

(** C2 at the failing input.  With three users mentioned, and an upstream
    that resolves everybody, app.js looks up all three users before it
    answers that at most two are supported: the trace holds three remote
    calls.  The Socket Mode variant answers the same command without a
    remote call. *)
Theorem app_js_resolves_users_before_rejecting :
  length (Http.userIds "<@U111> <@U222> <@U333>") = 3
  ∧ Http.handler empty_upstream 0 "<@U111> <@U222> <@U333>" []
    = (Done tt,
       [EvAck None;
        EvUsersInfo "U111" (inr (mkUser "U111" (Some "U111") "U111"));
        EvUsersInfo "U222" (inr (mkUser "U222" (Some "U222") "U222"));
        EvUsersInfo "U333" (inr (mkUser "U333" (Some "U333") "U333"));
        EvSay Http.tooManyUsers None])
  ∧ length (remote_calls
              (Http.handler empty_upstream 0 "<@U111> <@U222> <@U333>" []).2)
    = 3
  ∧ Socket.handler empty_upstream 0 "<@U111> <@U222> <@U333>" []
    = (Done tt, [EvAck None; EvSay Socket.usageHint None]).
Proof. repeat split; reflexivity. Qed.

(** On the same path a failed lookup replaces the usage answer of app.js
    by the generic error. *)
Example app_js_third_user_unknown :
  delivered (Http.handler scenario_upstream 0 "<@U111> <@U222> <@U999>" []).2
  = [Http.errorMessage "user_not_found"].
Proof. reflexivity. Qed.

(** ** Rendering *)

Section Rendering.

Lemma join_links_nonempty (f : Channel → string) (c : Channel)
    (cs : list Channel) :
  (∀ c, f c ≠ EmptyString) →
  join nl (f <$> (c :: cs)) ≠ EmptyString.
Proof.
  intros Hf. rewrite fmap_cons. unfold join.
  specialize (Hf c). destruct (f c) as [|a s] eqn:Hc; [done|].
  destruct (f <$> cs); simpl; done.
Qed.

Lemma socket_link_nonempty c : Socket.link c ≠ EmptyString.
Proof. done. Qed.

(** The itemized lists of the Socket Mode variant: the link lines joined
    by newlines, or the placeholder when there is no channel. *)
Lemma socket_listOr (ch : list Channel) (placeholder : string) :
  Socket.listOr (join nl (Socket.link <$> ch)) placeholder
  = match ch with
    | [] => placeholder
    | _ => join nl (Socket.link <$> ch)
    end.
Proof.
  destruct ch as [|c cs]; [done|].
  unfold Socket.listOr.
  pose proof (join_links_nonempty Socket.link c cs socket_link_nonempty) as H.
  destruct (join nl (Socket.link <$> c :: cs)); done.
Qed.

Lemma socket_linksOr (xs : list Channel) (placeholder : string) :
  Socket.linksOr xs placeholder
  = match xs with
    | [] => placeholder
    | _ => join nl (Socket.link <$> xs)
    end.
Proof. by destruct xs. Qed.

(** The itemized lists of the two-user report of app.js. *)
Lemma http_sharedChannelList (shared : list Channel) :
  Http.sharedChannelList shared
  = match shared with
    | [] => "No shared channels found."
    | _ => join nl (Http.getChannelText <$> shared)
    end.
Proof. by destruct shared. Qed.

Lemma http_userUniqueList (u : User) (unique : list Channel) :
  Http.userUniqueList u unique
  = match unique with
    | [] => Http.real_name u +:+ " has no unique channels."
    | _ => join nl (Http.getChannelText <$> unique)
    end.
Proof. by destruct unique. Qed.

Lemma link_lines (c : Channel) :
  Socket.link c = channelLink c ∧ Http.getChannelText c = channelLink c.
Proof. done. Qed.

End Rendering.

(** C7 at the failing inputs.  The single-user report of app.js renders a
    channel by its name only, without its ID, and renders an empty channel
    list as nothing: the text ends after the blank line that follows the
    total.  The Socket Mode variant renders the same inputs with the link
    line and with its placeholder. *)
Theorem app_js_single_report_without_links_or_placeholder :
  Http.singleReport alice []
  = {| blocks := Some [MrkdwnSection
         ("*Here is the list of channels for Alice:*" +:+ nl +:+ nl
          +:+ "Total Channels: 0" +:+ nl +:+ nl)];
       text := "Channel list for Alice." |}
  ∧ Http.channelList [general] = "- #general"
  ∧ Socket.singleReport alice []
    = {| blocks := Some [MrkdwnSection
           ("*Channels for Alice:*" +:+ nl +:+ nl +:+ "*Total:* 0" +:+ nl
            +:+ nl +:+ "_No channels found._")];
         text := "Channel list for Alice." |}
  ∧ Socket.singleReport alice [general]
    = {| blocks := Some [MrkdwnSection
           ("*Channels for Alice:*" +:+ nl +:+ nl +:+ "*Total:* 1" +:+ nl
            +:+ nl +:+ "- <#C1|general>")];
         text := "Channel list for Alice." |}.
Proof. repeat split; reflexivity. Qed.

(** ** The scenarios of the specification *)

Example scenario_A :
  ∀ v, handler_of v scenario_upstream 0 "" []
       = (Done tt,
          [EvAck None;
           EvSay (match v with
                  | AppJs => Http.usageHint
                  | SocketMode => Socket.usageHint
                  end) None]).
Proof. intros []; reflexivity. Qed.

Example scenario_B :
  (handler_of SocketMode scenario_upstream 2 "<@U111>" []).2
  = [EvAck None;
     EvUsersInfo "U111" (inr alice);
     page_event "U111" None (inr alice_page1);
     page_event "U111" (Some "page2") (inr alice_page2);
     EvSay (Socket.singleReport alice [general; eng]) None].
Proof. reflexivity. Qed.

Example scenario_C :
  Socket.shared [general; eng] [eng; ops] = [eng]
  ∧ Socket.u1Only [general; eng] [eng; ops] = [general]
  ∧ Socket.u2Only [general; eng] [eng; ops] = [ops]
  ∧ Http.sharedChannels [general; eng] [eng; ops] = [eng]
  ∧ Http.user1UniqueChannels [general; eng] [eng; ops] = [general]
  ∧ Http.user2UniqueChannels [general; eng] [eng; ops] = [ops].
Proof. repeat split; vm_compute; reflexivity. Qed.

(** The two paginations of a comparison are in flight together: Bob's
    page arrives between Alice's two. *)
Example scenario_C_requests :
  ∀ v,
    (handler_of v scenario_upstream 2 "<@U111> <@U222>" []).1 = Done tt
    ∧ remote_calls (handler_of v scenario_upstream 2 "<@U111> <@U222>" []).2
      = [EvUsersInfo "U111" (inr alice);
         EvUsersInfo "U222" (inr bob);
         page_event "U111" None (inr alice_page1);
         page_event "U222" None (inr bob_page);
         page_event "U111" (Some "page2") (inr alice_page2)].
Proof. intros []; split; reflexivity. Qed.

Example scenario_E :
  ∀ v, delivered (handler_of v scenario_upstream 1 "<@U999>" []).2
       = [errorMessage_of v "user_not_found"].
Proof. intros []; reflexivity. Qed.

(** The lookups of a command are in flight together: the lookup of the
    second user is answered although the first has failed, and only the
    error is said. *)
Example scenario_E_both_lookups :
  ∀ v, (handler_of v scenario_upstream 1 "<@U999> <@U111>" []).2
       = [EvAck None;
          EvUsersInfo "U999" (inl "user_not_found");
          EvUsersInfo "U111" (inr alice);
          EvLog "user_not_found";
          EvSay (errorMessage_of v "user_not_found") None].
Proof. intros []; reflexivity. Qed.

(** * Further properties of the code *)

(** ** The Input Parser, further *)

Section ParserFurther.

Lemma userIds_tokens (v : Variant) (text : string) :
  userIds_of v text = omap extractUserId (spec_tokens text).
Proof.
  destruct v; simpl.
  - unfold Http.userIds, Http.users.
    rewrite filterNotNull_extract, <- omap_extract_nonempty.
    by rewrite split_trim_tokens.
  - unfold Socket.userIds, Socket.users.
    by rewrite filterBoolean_extract, split_trim_tokens.
Qed.

Lemma spec_tokens_go_separator (c : ascii) (a b : string) :
  is_space c = true →
  ∀ cur, spec_tokens_go cur (a +:+ String c b)
         = spec_tokens_go cur a ++ spec_tokens b.
Proof.
  intros Hc. induction a as [|x a IH]; intros cur.
  - change (spec_tokens_go cur (String c b)
            = spec_tokens_go cur EmptyString ++ spec_tokens b).
    simpl. by rewrite Hc.
  - change (spec_tokens_go cur (String x (a +:+ String c b))
            = spec_tokens_go cur (String x a) ++ spec_tokens b).
    simpl. destruct (is_space x).
    + by rewrite IH, app_assoc.
    + by rewrite IH.
Qed.

Lemma spec_tokens_forall (p : ascii → bool) (s : string) :
  ∀ cur, string_forall p cur = true → string_forall p s = true →
    Forall (λ t, string_forall p t = true) (spec_tokens_go cur s).
Proof.
  induction s as [|c s IH]; intros cur Hcur Hs; simpl.
  - unfold flush. destruct (decide (cur = EmptyString)); by repeat constructor.
  - simpl in Hs. apply andb_prop in Hs as [Hc Hs].
    destruct (is_space c).
    + apply Forall_app. split; [|by apply IH].
      unfold flush. destruct (decide (cur = EmptyString)); by repeat constructor.
    + apply IH; [|done]. rewrite string_forall_app, Hcur. simpl. by rewrite Hc.
Qed.

Lemma regex_match_no_open (s : string) :
  string_forall not_open s = true → regex_match s = None.
Proof.
  induction s as [|c s IH]; [done|].
  intros H. simpl in H. apply andb_prop in H as [Hc Hs].
  cbn [regex_match].
  destruct (match_here (String c s)) as [id|] eqn:Hm; [|by apply IH].
  apply match_here_Some in Hm as (post & Heq & _).
  change (String c s = String "<" (String "@" (id +:+ ">" +:+ post))) in Heq.
  injection Heq as -> _. done.
Qed.

Lemma extractUserId_no_open (tok : string) :
  string_forall not_open tok = true → extractUserId tok = None.
Proof. intros H. rewrite extractUserId_regex. by apply regex_match_no_open. Qed.

Lemma id_char_not_space (c : ascii) : is_id_char c = true → is_space c = false.
Proof. destruct c as [[] [] [] [] [] [] [] []]; vm_compute; congruence. Qed.

Lemma id_char_not_open (c : ascii) : is_id_char c = true → not_open c = true.
Proof. destruct c as [[] [] [] [] [] [] [] []]; vm_compute; congruence. Qed.

Lemma string_forall_impl (p q : ascii → bool) (s : string) :
  (∀ c, p c = true → q c = true) →
  string_forall p s = true → string_forall q s = true.
Proof.
  intros Hpq. induction s as [|c s IH]; [done|]. simpl.
  intros H. apply andb_prop in H as [Hc Hs]. by rewrite (Hpq c Hc), IH.
Qed.

Lemma mention_no_space (id : string) :
  string_forall is_id_char id = true →
  string_forall (λ c, negb (is_space c)) (mention id) = true.
Proof.
  intros Hid. unfold mention.
  change (string_forall (λ c, negb (is_space c))
            (String "<" (String "@" (id +:+ ">"))) = true).
  cbn [string_forall]. rewrite string_forall_app.
  rewrite (string_forall_impl is_id_char (λ c, negb (is_space c)) id); [done| |done].
  intros c Hc. by rewrite (id_char_not_space c Hc).
Qed.

Lemma spec_tokens_word (w : string) :
  word w → spec_tokens w = [w].
Proof.
  intros [Hne Hw]. unfold spec_tokens.
  rewrite <- (append_nil_r w) at 1.
  rewrite spec_tokens_go_word by done. simpl.
  unfold flush. by rewrite decide_False.
Qed.

Lemma extractUserId_mention (id : string) :
  valid_id id → extractUserId (mention id) = Some id.
Proof.
  intros [Hne Hid]. rewrite extractUserId_regex. unfold mention.
  assert (match_here ("<@" +:+ id +:+ ">") = Some id) as Hm.
  { apply match_here_Some. exists EmptyString. done. }
  destruct id as [|a id]; [done|].
  change ("<@" +:+ String a id +:+ ">")
    with (String "<" (String "@" (String a id +:+ ">"))) in *.
  cbn [regex_match]. by rewrite Hm.
Qed.

Lemma join_cons (sep x y : string) (l : list string) :
  join sep (x :: y :: l) = x +:+ sep +:+ join sep (y :: l).
Proof. reflexivity. Qed.

Lemma id_run_stop (id : string) (c : ascii) (s : string) :
  string_forall is_id_char id = true → is_id_char c = false →
  id_run (id +:+ String c s) = (id, String c s).
Proof.
  intros Hid Hc. induction id as [|a id IH].
  - change (id_run (String c s) = (EmptyString, String c s)).
    simpl. by rewrite Hc.
  - simpl in Hid. apply andb_prop in Hid as [Ha Hid].
    change (id_run (String a (id +:+ String c s))
            = (String a id, String c s)).
    simpl. by rewrite Ha, (IH Hid).
Qed.

End ParserFurther.

(** X1.  A command text without an opening angle bracket (the empty text,
    a blank text, plain [@names]) yields no user ID in either variant, and
    the handler answers it without a single remote call, whatever the
    upstream does. *)
Theorem text_without_bracket_no_remote_call (v : Variant) (text : string) :
  string_forall not_open text = true →
  userIds_of v text = []
  ∧ ∀ U fuel h, remote_calls (handler_of v U fuel text h).2 = [].
Proof.
  intros Htext.
  assert (userIds_of v text = []) as Hids.
  { rewrite userIds_tokens.
    pose proof (spec_tokens_forall not_open text EmptyString eq_refl Htext)
      as Htoks.
    fold (spec_tokens text) in Htoks.
    induction Htoks as [|tok toks Htok _ IH]; [done|].
    cbn [omap list_omap]. by rewrite (extractUserId_no_open tok Htok). }
  split; [done|]. intros U fuel h.
  destruct v; simpl in *.
  - apply http_no_user_no_remote_calls. by rewrite Hids.
  - apply socket_usage_error_no_remote_calls. left. by rewrite Hids.
Qed.

Lemma text_without_bracket_witness :
  string_forall not_open "  @alice  @bob " = true
  ∧ userIds_of AppJs "  @alice  @bob " = [].
Proof.
  assert (string_forall not_open "  @alice  @bob " = true) as H
    by reflexivity.
  split; [exact H|].
  exact (proj1 (text_without_bracket_no_remote_call AppJs "  @alice  @bob " H)).
Defined.

(** X2.  Parsing distributes over white space: the user IDs of two texts
    put together with a white-space character between them are the IDs of
    the first followed by the IDs of the second, in either variant. *)
Theorem userIds_of_two_texts (v : Variant) (a b : string) (c : ascii) :
  is_space c = true →
  userIds_of v (a +:+ String c b) = userIds_of v a ++ userIds_of v b.
Proof.
  intros Hc. rewrite !userIds_tokens. unfold spec_tokens at 1.
  rewrite (spec_tokens_go_separator c a b Hc EmptyString).
  apply omap_app.
Qed.

Lemma userIds_of_two_texts_witness :
  is_space " " = true
  ∧ userIds_of SocketMode ("<@U1> x" +:+ String " " "<@U2>")
    = userIds_of SocketMode "<@U1> x" ++ userIds_of SocketMode "<@U2>".
Proof.
  assert (is_space " " = true) as H by reflexivity.
  split; [exact H|].
  exact (userIds_of_two_texts SocketMode "<@U1> x" "<@U2>" " " H).
Defined.

(** X3.  Round trip: the mentions of a list of valid IDs (non-empty,
    upper-case letters and digits), joined by single spaces, parse back to
    exactly that list, in either variant; repeated IDs stay repeated. *)
Theorem userIds_of_mentions (v : Variant) (ids : list string) :
  Forall valid_id ids →
  userIds_of v (join " " (mention <$> ids)) = ids.
Proof.
  intros Hids. rewrite userIds_tokens.
  induction Hids as [|id ids [Hne Hid] Hrest IH]; [done|].
  assert (spec_tokens (mention id) = [mention id]) as Hone.
  { apply spec_tokens_word. split; [done|]. by apply mention_no_space. }
  destruct ids as [|id' ids].
  - change (join " " (mention <$> [id])) with (mention id).
    rewrite Hone. cbn [omap list_omap].
    by rewrite (extractUserId_mention id (conj Hne Hid)).
  - rewrite !fmap_cons, join_cons.
    change (" " +:+ join " " (mention id' :: (mention <$> ids)))
      with (String " " (join " " (mention id' :: (mention <$> ids)))).
    unfold spec_tokens at 1.
    rewrite (spec_tokens_go_separator " " _ _ eq_refl EmptyString).
    fold (spec_tokens (mention id)). rewrite Hone, omap_app.
    cbn [omap list_omap].
    rewrite (extractUserId_mention id (conj Hne Hid)).
    rewrite fmap_cons in IH. by rewrite IH.
Qed.

Lemma userIds_of_mentions_witness :
  Forall valid_id ["U111"; "U222"; "U111"]
  ∧ userIds_of AppJs (join " " (mention <$> ["U111"; "U222"; "U111"]))
    = ["U111"; "U222"; "U111"].
Proof.
  assert (Forall valid_id ["U111"; "U222"; "U111"]) as H.
  { repeat constructor; discriminate. }
  split; [exact H|].
  exact (userIds_of_mentions AppJs ["U111"; "U222"; "U111"] H).
Defined.

(** X4.  A mention that carries a label, [<@ID|label>], is not recognised:
    the pattern wants the closing bracket right after the ID, so the token
    yields no user ID (for a label without an opening bracket). *)
Theorem labelled_mention_not_recognised (id label : string) :
  string_forall is_id_char id = true →
  string_forall not_open label = true →
  extractUserId ("<@" +:+ id +:+ "|" +:+ label +:+ ">") = None.
Proof.
  intros Hid Hlabel. rewrite extractUserId_regex.
  change ("<@" +:+ id +:+ "|" +:+ label +:+ ">")
    with (String "<" (String "@" (id +:+ String "|" (label +:+ ">")))).
  cbn [regex_match].
  assert (match_here
            (String "<" (String "@" (id +:+ String "|" (label +:+ ">"))))
          = None) as ->.
  { cbn [match_here]. rewrite id_run_stop by done. by destruct id. }
  apply regex_match_no_open.
  cbn [string_forall]. rewrite string_forall_app.
  rewrite (string_forall_impl is_id_char not_open id id_char_not_open Hid).
  cbn [string_forall]. rewrite string_forall_app, Hlabel. reflexivity.
Qed.

Lemma labelled_mention_witness :
  string_forall is_id_char "U111" = true
  ∧ string_forall not_open "alice" = true
  ∧ extractUserId ("<@" +:+ "U111" +:+ "|" +:+ "alice" +:+ ">") = None.
Proof.
  assert (string_forall is_id_char "U111" = true) as H1 by reflexivity.
  assert (string_forall not_open "alice" = true) as H2 by reflexivity.
  split; [exact H1|]. split; [exact H2|].
  exact (labelled_mention_not_recognised "U111" "alice" H1 H2).
Defined.

(** ** The comparison, further *)

Section ComparisonFurther.

Lemma derived_lists (v : Variant) (c1 c2 : list Channel) :
  shared_of v c1 c2 = filter (λ c, ch_id c ∈ idSet c2) c1
  ∧ only1_of v c1 c2 = filter (λ c, ¬ ch_id c ∈ idSet c2) c1
  ∧ only2_of v c1 c2 = filter (λ c, ¬ ch_id c ∈ idSet c1) c2.
Proof. by destruct v. Qed.

Lemma filter_all_iff {A} (P : A → Prop) `{!∀ x, Decision (P x)} (l : list A) :
  filter P l = l ↔ Forall P l.
Proof.
  split.
  - intros Heq. apply Forall_forall. intros x Hx.
    rewrite <- Heq in Hx. by apply list_elem_of_filter in Hx as [? _].
  - induction 1 as [|x l Hx _ IH]; [done|].
    by rewrite filter_cons_True, IH.
Qed.

Lemma filter_none_iff {A} (P : A → Prop) `{!∀ x, Decision (P x)} (l : list A) :
  filter P l = [] ↔ Forall (λ x, ¬ P x) l.
Proof.
  split.
  - intros Heq. apply Forall_forall. intros x Hx HP.
    by apply (filter_nil_not_elem_of P l x).
  - induction 1 as [|x l Hx _ IH]; [done|].
    by rewrite filter_cons_False.
Qed.

Lemma all_ids_in (c1 c2 : list Channel) :
  Forall (λ c, ch_id c ∈ idSet c2) c1 ↔ ids c1 ⊆ ids c2.
Proof.
  rewrite Forall_forall. split.
  - intros H i Hi. unfold ids in Hi.
    apply list_elem_of_fmap in Hi as (c & -> & Hc).
    apply elem_of_idSet. by apply H.
  - intros H c Hc. apply elem_of_idSet, H. by apply ids_elem.
Qed.

Lemma no_id_in (c1 c2 : list Channel) :
  Forall (λ c, ¬ ch_id c ∈ idSet c2) c1 ↔ ∀ i, i ∈ ids c1 → i ∉ ids c2.
Proof.
  rewrite Forall_forall. split.
  - intros H i Hi Hi2. unfold ids in Hi.
    apply list_elem_of_fmap in Hi as (c & -> & Hc).
    apply (H c Hc). by apply elem_of_idSet.
  - intros H c Hc Hin. apply (H (ch_id c)); [by apply ids_elem|].
    by apply elem_of_idSet.
Qed.

Lemma sublist_ids_filter (P : Channel → Prop) `{!∀ c, Decision (P c)}
    (l : list Channel) :
  sublist (ids (filter P l)) (ids l).
Proof.
  induction l as [|c l IH]; [constructor|].
  rewrite filter_cons. unfold ids in *.
  destruct (decide (P c)); rewrite ?fmap_cons; by constructor.
Qed.

(** With unique IDs on both sides the shared IDs are the same whichever
    list is filtered. *)
Lemma shared_ids_permutation (c1 c2 : list Channel) :
  NoDup (ids c1) → NoDup (ids c2) →
  ids (filter (λ c, ch_id c ∈ idSet c2) c1)
  ≡ₚ ids (filter (λ c, ch_id c ∈ idSet c1) c2).
Proof.
  intros H1 H2. apply NoDup_Permutation.
  - eapply sublist_NoDup; [exact H1|apply sublist_ids_filter].
  - eapply sublist_NoDup; [exact H2|apply sublist_ids_filter].
  - intros i. rewrite !ids_filter_elem. split.
    + intros (a & Ha & Hin & <-).
      apply elem_of_idSet in Hin. unfold ids in Hin.
      apply list_elem_of_fmap in Hin as (b & Hab & Hb).
      exists b. split; [done|]. split; [|done].
      rewrite <- Hab. apply elem_of_idSet. by apply ids_elem.
    + intros (b & Hb & Hin & <-).
      apply elem_of_idSet in Hin. unfold ids in Hin.
      apply list_elem_of_fmap in Hin as (a & Hba & Ha).
      exists a. split; [done|]. split; [|done].
      rewrite <- Hba. apply elem_of_idSet. by apply ids_elem.
Qed.

End ComparisonFurther.

(** X5.  In either variant the first user has no unique channel exactly
    when every channel ID of the first list occurs in the second list, and
    exactly then the shared list is the whole first list, names and order
    included. *)
Theorem first_user_within_second (v : Variant) (c1 c2 : list Channel) :
  (only1_of v c1 c2 = [] ↔ ids c1 ⊆ ids c2)
  ∧ (shared_of v c1 c2 = c1 ↔ ids c1 ⊆ ids c2).
Proof.
  destruct (derived_lists v c1 c2) as (-> & -> & _). split.
  - rewrite filter_none_iff, <- all_ids_in, !Forall_forall.
    split; intros H c Hc.
    + destruct (decide (ch_id c ∈ idSet c2)) as [|Hn]; [done|].
      by destruct (H c Hc).
    + intros Hn. by apply Hn, H.
  - by rewrite filter_all_iff, all_ids_in.
Qed.

(** X6.  In either variant the shared list is empty exactly when no channel
    ID of the first list occurs in the second list, and then each user's
    unique list is that user's whole list. *)
Theorem nothing_shared_iff_disjoint (v : Variant) (c1 c2 : list Channel) :
  (shared_of v c1 c2 = [] ↔ ∀ i, i ∈ ids c1 → i ∉ ids c2)
  ∧ ((∀ i, i ∈ ids c1 → i ∉ ids c2) →
     only1_of v c1 c2 = c1 ∧ only2_of v c1 c2 = c2).
Proof.
  destruct (derived_lists v c1 c2) as (-> & -> & ->). split.
  - rewrite filter_none_iff, <- no_id_in, !Forall_forall.
    split; intros H c Hc.
    + intros Hin. by apply (H c Hc).
    + intros Hn. by apply (H c Hc).
  - intros Hdisj. split; apply filter_all_iff, no_id_in; [done|].
    intros i Hi2 Hi1. by apply (Hdisj i).
Qed.

(** X7.  When neither list repeats a channel ID, the shared IDs do not
    depend on which user is named first: swapping the users permutes the
    IDs of the shared list (its order and its channel names are those of
    the user named first). *)
Theorem shared_ids_do_not_depend_on_order (v : Variant)
    (c1 c2 : list Channel) :
  NoDup (ids c1) → NoDup (ids c2) →
  ids (shared_of v c1 c2) ≡ₚ ids (shared_of v c2 c1).
Proof.
  intros H1 H2.
  destruct (derived_lists v c1 c2) as (-> & _ & _).
  destruct (derived_lists v c2 c1) as (-> & _ & _).
  by apply shared_ids_permutation.
Qed.

Lemma shared_ids_order_witness :
  NoDup (ids [general; eng]) ∧ NoDup (ids [eng; ops])
  ∧ ids (shared_of AppJs [general; eng] [eng; ops])
    ≡ₚ ids (shared_of AppJs [eng; ops] [general; eng]).
Proof.
  assert (NoDup (ids [general; eng])) as H1.
  { apply (bool_decide_unpack _). vm_compute. exact I. }
  assert (NoDup (ids [eng; ops])) as H2.
  { apply (bool_decide_unpack _). vm_compute. exact I. }
  split; [exact H1|]. split; [exact H2|].
  exact (shared_ids_do_not_depend_on_order AppJs [general; eng] [eng; ops]
           H1 H2).
Defined.

(** X8.  The counts of the totals line add up for the first user always,
    and for the second user when neither list repeats a channel ID: the
    shared count (taken from the first list) plus the second user's unique
    count is the length of the second list. *)
Theorem totals_add_up (v : Variant) (c1 c2 : list Channel) :
  NoDup (ids c1) → NoDup (ids c2) →
  length (shared_of v c1 c2) + length (only1_of v c1 c2) = length c1
  ∧ length (shared_of v c1 c2) + length (only2_of v c1 c2) = length c2.
Proof.
  intros H1 H2. destruct (derived_lists v c1 c2) as (-> & -> & ->). split.
  - rewrite <- length_app.
    apply Permutation_length, filter_app_complement.
  - pose proof (Permutation_length (shared_ids_permutation c1 c2 H1 H2)) as Hlen.
    unfold ids in Hlen. rewrite !length_fmap in Hlen. rewrite Hlen.
    rewrite <- length_app.
    apply Permutation_length, filter_app_complement.
Qed.

Lemma totals_add_up_witness :
  NoDup (ids [general; eng]) ∧ NoDup (ids [eng; ops])
  ∧ length (shared_of SocketMode [general; eng] [eng; ops])
    + length (only2_of SocketMode [general; eng] [eng; ops])
    = length [eng; ops].
Proof.
  assert (NoDup (ids [general; eng])) as H1.
  { apply (bool_decide_unpack _). vm_compute. exact I. }
  assert (NoDup (ids [eng; ops])) as H2.
  { apply (bool_decide_unpack _). vm_compute. exact I. }
  split; [exact H1|]. split; [exact H2|].
  exact (proj2 (totals_add_up SocketMode [general; eng] [eng; ops] H1 H2)).
Defined.

(** Without the uniqueness the second sum can fail: a channel listed twice
    for the first user is counted twice as shared. *)
Example totals_with_a_repeated_channel :
  length (shared_of SocketMode [general; general] [general]) = 2
  ∧ length (only2_of SocketMode [general; general] [general]) = 0.
Proof. split; vm_compute; reflexivity. Qed.

(** ** The Channel Fetcher, further *)

Section FetcherFurther.

Variable U : Upstream.

Lemma fetchLoop_breaks userId h cursor pages e :
  breaks U userId h cursor pages e →
  ∀ fuel acc, length pages < fuel →
    await U (Http.fetchLoop fuel userId acc cursor) h
    = (Thrown e,
       page_events userId cursor pages
         ++ [page_event userId (cursor_after cursor pages) (inl e)]).
Proof.
  induction 1 as [h cursor e He|h cursor res k pages e Hres Hk _ IH];
    intros fuel acc Hfuel.
  - destruct fuel as [|fuel]; [simpl in Hfuel; lia|].
    by rewrite http_fetchLoop_step, He.
  - destruct fuel as [|fuel]; [simpl in Hfuel; lia|].
    rewrite http_fetchLoop_step, Hres, Hk.
    rewrite IH by (simpl in Hfuel; lia).
    simpl. by rewrite Hk.
Qed.

Lemma fetchLoop_chained fuel :
  ∀ userId acc cursor h,
    chained userId cursor
      (await U (Http.fetchLoop fuel userId acc cursor) h).2.
Proof.
  induction fuel as [|fuel IH]; intros userId acc cursor h; [done|].
  rewrite http_fetchLoop_step.
  destruct (users_conversations U h (page_request userId cursor))
    as [e|res]; simpl.
  - by exists (inl e).
  - destruct (page_cursor res) as [k|] eqn:Hk.
    + specialize (IH userId (acc ++ channels res) (Some k)
                    (h ++ [page_event userId cursor (inr res)])).
      destruct (await U
                  (Http.fetchLoop fuel userId (acc ++ channels res) (Some k))
                  _) as [r es].
      simpl in *. exists (inr res). by rewrite Hk.
    + simpl. exists (inr res). by rewrite Hk.
Qed.

End FetcherFurther.

(** X9.  When the upstream serves a user some pages, each with a non-empty
    next cursor, and then fails the next request with message [e], the
    fetcher of either variant throws [e]: the channels of the pages it
    already received are lost, and its trace is the requests for those
    pages followed by the failed request, which presents the last cursor.
    Any budget beyond the number of pages gives this result. *)
Theorem fetcher_throws_on_failed_page (v : Variant) (U : Upstream)
    (userId : string) (h : list Event) (pages : list ConvResponse)
    (e : string) (fuel : nat) :
  breaks U userId h None pages e →
  length pages < fuel →
  fetchUserChannels_of v U fuel userId h
  = (Thrown e,
     page_events userId None pages
       ++ [page_event userId (cursor_after None pages) (inl e)]).
Proof.
  intros Hbreaks Hfuel.
  destruct v; simpl; [|rewrite socket_fetchUserChannels_http];
    unfold Http.fetchUserChannels, Http.fetchUserChannelsAsync;
    by rewrite (fetchLoop_breaks U userId h None pages e Hbreaks fuel []).
Qed.

(** Alice's first page arrives, the request for the second is refused. *)
Lemma fetcher_throws_witness :
  breaks second_page_fails "U111" [] None [alice_page1] "ratelimited"
  ∧ length [alice_page1] < 2
  ∧ fetchUserChannels_of AppJs second_page_fails 2 "U111" []
    = (Thrown "ratelimited",
       [page_event "U111" None (inr alice_page1);
        page_event "U111" (Some "page2") (inl "ratelimited")]).
Proof.
  assert (breaks second_page_fails "U111" [] None [alice_page1] "ratelimited")
    as Hb.
  { eapply breaks_later; [reflexivity|reflexivity|].
    apply breaks_now. reflexivity. }
  assert (length [alice_page1] < 2) as Hl by (simpl; lia).
  split; [exact Hb|]. split; [exact Hl|].
  exact (fetcher_throws_on_failed_page AppJs second_page_fails "U111" []
           [alice_page1] "ratelimited" 2 Hb Hl).
Defined.

(** X10.  Whatever the upstream answers and however long the loop runs,
    the fetcher of either variant does nothing but page through
    [users.conversations] for the user it was given: every event is a
    request for that user with the types [public_channel,private_channel]
    and the limit 100; the first request carries no cursor, every later
    one the non-empty next cursor of the page before it; and no request
    follows a failure or a page without such a cursor. *)
Theorem fetcher_requests_are_chained (v : Variant) (U : Upstream)
    (fuel : nat) (userId : string) (h : list Event) :
  chained userId None (fetchUserChannels_of v U fuel userId h).2.
Proof.
  destruct v; simpl; [|rewrite socket_fetchUserChannels_http];
    unfold Http.fetchUserChannels, Http.fetchUserChannelsAsync;
    apply fetchLoop_chained.
Qed.

(** ** The handlers, further *)

(** X11.  When the number of user IDs makes a variant answer at once (zero
    for app.js, zero or more than two for the Socket Mode variant), the
    whole invocation is one of three runs: the acknowledgment is rejected
    and nothing else happens; or the usage hint is said; or the usage hint
    is rejected and the [catch] clause logs that and says the error
    message.  No run contains a remote call. *)
Theorem answer_at_once_runs (v : Variant) (U : Upstream) (fuel : nat)
    (command_text : string) (h : list Event) :
  rejects_at_once v (length (userIds_of v command_text)) →
  (∃ e, handler_of v U fuel command_text h = (Thrown e, [EvAck (Some e)]))
  ∨ handler_of v U fuel command_text h
    = (Done tt, [EvAck None; EvSay (usageHint_of v) None])
  ∨ (∃ e r,
       handler_of v U fuel command_text h
       = (settled r,
          [EvAck None; EvSay (usageHint_of v) (Some e); EvLog e;
           EvSay (errorMessage_of v e) r])).
Proof.
  intros Hrej.
  assert (handler_of v U fuel command_text h
          = frame U (say U (usageHint_of v)) (errorMessage_of v) h) as ->.
  { destruct v; simpl in *.
    - unfold Http.handler, frame, Http.tryBlock. by rewrite decide_True.
    - unfold Socket.handler, frame, Socket.tryBlock. by rewrite decide_True. }
  rewrite frame_idle by (by rewrite say_idle). cbv zeta.
  rewrite !say_idle. cbn [fst snd].
  destruct (ack_result U h) as [e|]; [left; by exists e|]. right.
  destruct (say_result U (h ++ [EvAck None]) (usageHint_of v)) as [e|];
    cbn [settled].
  - right. eexists e, _. reflexivity.
  - by left.
Qed.

(** The empty command. *)
Lemma answer_at_once_witness :
  rejects_at_once SocketMode (length (userIds_of SocketMode ""))
  ∧ handler_of SocketMode empty_upstream 0 "" []
    = (Done tt, [EvAck None; EvSay Socket.usageHint None]).
Proof.
  assert (rejects_at_once SocketMode (length (userIds_of SocketMode ""))) as H.
  { left. reflexivity. }
  split; [exact H|].
  destruct (answer_at_once_runs SocketMode empty_upstream 0 "" [] H)
    as [[e He]|[Hd|(e & r & He)]];
    [discriminate He|exact Hd|discriminate He].
Defined.

(** ** Whole invocations *)

Section WholeRuns.

Variable U : Upstream.

Lemma http_fetch_serves userId h pages fuel :
  serves U userId h None pages → length pages ≤ fuel →
  Http.fetchUserChannels U fuel userId h
  = (Done (concat (channels <$> pages)), page_events userId None pages).
Proof.
  intros Hs Hfuel. unfold Http.fetchUserChannels, Http.fetchUserChannelsAsync.
  by rewrite (fetchLoop_serves U userId h None pages Hs fuel []).
Qed.

Lemma http_fetch_breaks userId h pages e fuel :
  breaks U userId h None pages e → length pages < fuel →
  Http.fetchUserChannels U fuel userId h
  = (Thrown e,
     page_events userId None pages
       ++ [page_event userId (cursor_after None pages) (inl e)]).
Proof.
  intros Hb Hfuel. unfold Http.fetchUserChannels, Http.fetchUserChannelsAsync.
  by rewrite (fetchLoop_breaks U userId h None pages e Hb fuel []).
Qed.

(** The [try] block with one user who resolves: the lookup, and then the
    pagination awaited on its own. *)
Lemma single_user_tryBlock v fuel text id u h :
  userIds_of v text = [id] →
  users_info U h id = inr u →
  tryBlock_of v U fuel text h idle
  = let rest :=
      bind (lift (Http.fetchUserChannels U fuel (u_id u)))
        (λ ch, say U (singleReport_of v u ch))
        (h ++ [EvUsersInfo id (inr u)]) idle in
    (rest.1.1, EvUsersInfo id (inr u) :: rest.1.2, rest.2).
Proof.
  intros Hids Hu.
  rewrite tryBlock_looking_up by (rewrite Hids; by destruct v).
  rewrite Hids. cbn [length fmap list_fmap].
  unfold bind at 1. rewrite (lookup_one_run U id u h idle Hu).
  rewrite decide_True by done.
  unfold bind at 1. rewrite (element_run [u] 0 "id" u) by done.
  rewrite app_nil_r. cbn [app].
  assert ((λ ch, say U match v with
                       | AppJs => Http.singleReport u ch
                       | SocketMode => Socket.singleReport u ch
                       end)
          = (λ ch, say U (singleReport_of v u ch))) as ->.
  { apply functional_extensionality. intros ch. by destruct v. }
  cbv zeta.
  destruct (bind (lift (Http.fetchUserChannels U fuel (u_id u)))
              (λ ch, say U (singleReport_of v u ch))
              (h ++ [EvUsersInfo id (inr u)]) idle) as [[o es] bg].
  by destruct o.
Qed.

End WholeRuns.

(** X13.  One user mentioned, nothing rejected, the lookup answered with
    the profile [u], and the upstream serving [pages] for the ID of that
    profile: the invocation of either variant is the acknowledgment, the
    lookup of the mentioned ID, one request per page for the ID found in
    the profile, and the single-user report of [u] over the channels of
    all pages in page order. *)
Theorem single_user_invocation (v : Variant) (U : Upstream) (fuel : nat)
    (command_text : string) (h : list Event) (id : string) (u : User)
    (pages : list ConvResponse) :
  userIds_of v command_text = [id] →
  reliable_outbound U →
  users_info U (h ++ [EvAck None]) id = inr u →
  serves U (u_id u) (h ++ [EvAck None; EvUsersInfo id (inr u)]) None pages →
  length pages ≤ fuel →
  handler_of v U fuel command_text h
  = (Done tt,
     EvAck None :: EvUsersInfo id (inr u)
       :: page_events (u_id u) None pages
       ++ [EvSay (singleReport_of v u (concat (channels <$> pages))) None]).
Proof.
  intros Hids [Hack Hsay] Hu Hserves Hfuel.
  assert (tryBlock_of v U fuel command_text (h ++ [EvAck None]) idle
          = (Done tt,
             EvUsersInfo id (inr u)
               :: page_events (u_id u) None pages
               ++ [EvSay (singleReport_of v u (concat (channels <$> pages)))
                     None], idle)) as Hbody.
  { rewrite (single_user_tryBlock U v fuel command_text id u) by done.
    cbv zeta.
    erewrite bind_run; [reflexivity| |by apply say_sent].
    rewrite lift_run, <- app_assoc.
    by rewrite (http_fetch_serves U (u_id u) _ pages fuel). }
  rewrite handler_frame, frame_idle, Hack by (by rewrite Hbody).
  cbv zeta. by rewrite Hbody.
Qed.

(** Alice, with her two pages. *)
Lemma single_user_invocation_witness :
  userIds_of SocketMode "<@U111>" = ["U111"]
  ∧ reliable_outbound scenario_upstream
  ∧ users_info scenario_upstream ([] ++ [EvAck None]) "U111" = inr alice
  ∧ serves scenario_upstream (u_id alice)
      ([] ++ [EvAck None; EvUsersInfo "U111" (inr alice)]) None
      [alice_page1; alice_page2]
  ∧ length [alice_page1; alice_page2] ≤ 2
  ∧ handler_of SocketMode scenario_upstream 2 "<@U111>" []
    = (Done tt,
       EvAck None :: EvUsersInfo "U111" (inr alice)
         :: page_events (u_id alice) None [alice_page1; alice_page2]
         ++ [EvSay (Socket.singleReport alice [general; eng]) None]).
Proof.
  assert (userIds_of SocketMode "<@U111>" = ["U111"]) as H1 by reflexivity.
  assert (reliable_outbound scenario_upstream) as H2 by (split; reflexivity).
  assert (users_info scenario_upstream ([] ++ [EvAck None]) "U111" = inr alice)
    as H3 by reflexivity.
  assert (serves scenario_upstream (u_id alice)
            ([] ++ [EvAck None; EvUsersInfo "U111" (inr alice)]) None
            [alice_page1; alice_page2]) as H4.
  { eapply serves_more; [reflexivity|reflexivity|].
    apply serves_last; reflexivity. }
  assert (length [alice_page1; alice_page2] ≤ 2) as H5 by (simpl; lia).
  split; [exact H1|]. split; [exact H2|]. split; [exact H3|].
  split; [exact H4|]. split; [exact H5|].
  exact (single_user_invocation SocketMode scenario_upstream 2 "<@U111>" []
           "U111" alice [alice_page1; alice_page2] H1 H2 H3 H4 H5).
Defined.

(** X16.  One user mentioned and found, and the upstream serving [pages]
    and then failing the next page request with [e]: the invocation of
    either variant is the acknowledgment, the lookup, the page requests up
    to the failed one, the log entry and the error message carrying [e].
    The channels of the pages already received are reported nowhere. *)
Theorem failed_page_ends_the_run (v : Variant) (U : Upstream) (fuel : nat)
    (command_text : string) (h : list Event) (id : string) (u : User)
    (pages : list ConvResponse) (e : string) :
  userIds_of v command_text = [id] →
  ack_result U h = None →
  users_info U (h ++ [EvAck None]) id = inr u →
  breaks U (u_id u) (h ++ [EvAck None; EvUsersInfo id (inr u)]) None pages e →
  length pages < fuel →
  ∃ r,
    handler_of v U fuel command_text h
    = (settled r,
       EvAck None :: EvUsersInfo id (inr u)
         :: page_events (u_id u) None pages
         ++ [page_event (u_id u) (cursor_after None pages) (inl e);
             EvLog e; EvSay (errorMessage_of v e) r]).
Proof.
  intros Hids Hack Hu Hbreaks Hfuel.
  assert (tryBlock_of v U fuel command_text (h ++ [EvAck None]) idle
          = (Thrown e,
             EvUsersInfo id (inr u)
               :: page_events (u_id u) None pages
               ++ [page_event (u_id u) (cursor_after None pages) (inl e)],
             idle)) as Hbody.
  { rewrite (single_user_tryBlock U v fuel command_text id u) by done.
    cbv zeta.
    erewrite bind_thrown; [reflexivity|].
    rewrite lift_run, <- app_assoc.
    by rewrite (http_fetch_breaks U (u_id u) _ pages e fuel). }
  rewrite handler_frame, frame_idle, Hack by (by rewrite Hbody).
  cbv zeta. rewrite Hbody. cbn [fst snd].
  set (r := say_result U _ (errorMessage_of v e)).
  exists r. simpl. by rewrite <- app_assoc.
Qed.

(** Alice's first page arrives, the request for the second is refused. *)
Lemma failed_page_witness :
  userIds_of SocketMode "<@U111>" = ["U111"]
  ∧ ack_result second_page_fails [] = None
  ∧ users_info second_page_fails ([] ++ [EvAck None]) "U111" = inr alice
  ∧ breaks second_page_fails (u_id alice)
      ([] ++ [EvAck None; EvUsersInfo "U111" (inr alice)]) None
      [alice_page1] "ratelimited"
  ∧ length [alice_page1] < 2
  ∧ ∃ r,
      handler_of SocketMode second_page_fails 2 "<@U111>" []
      = (settled r,
         EvAck None :: EvUsersInfo "U111" (inr alice)
           :: page_events (u_id alice) None [alice_page1]
           ++ [page_event (u_id alice) (cursor_after None [alice_page1])
                 (inl "ratelimited");
               EvLog "ratelimited";
               EvSay (errorMessage_of SocketMode "ratelimited") r]).
Proof.
  assert (userIds_of SocketMode "<@U111>" = ["U111"]) as H1 by reflexivity.
  assert (ack_result second_page_fails [] = None) as H2 by reflexivity.
  assert (users_info second_page_fails ([] ++ [EvAck None]) "U111" = inr alice)
    as H3 by reflexivity.
  assert (breaks second_page_fails (u_id alice)
            ([] ++ [EvAck None; EvUsersInfo "U111" (inr alice)]) None
            [alice_page1] "ratelimited") as H4.
  { eapply breaks_later; [reflexivity|reflexivity|].
    apply breaks_now. reflexivity. }
  assert (length [alice_page1] < 2) as H5 by (simpl; lia).
  split; [exact H1|]. split; [exact H2|]. split; [exact H3|].
  split; [exact H4|]. split; [exact H5|].
  exact (failed_page_ends_the_run SocketMode second_page_fails 2 "<@U111>" []
           "U111" alice [alice_page1] "ratelimited" H1 H2 H3 H4 H5).
Defined.

(** ** One mention per token, one line per channel *)

Section TokensAndLines.

Lemma match_here_not_open (c : ascii) (s : string) :
  not_open c = true → match_here (String c s) = None.
Proof.
  intros Hc. destruct (match_here (String c s)) as [id|] eqn:Hm; [|done].
  apply match_here_Some in Hm as (post & Heq & _).
  change (String c s = String "<" (String "@" (id +:+ ">" +:+ post))) in Heq.
  injection Heq as -> _. done.
Qed.

Lemma lines_go_app (cur s t : string) :
  string_forall (λ a, negb (Ascii.eqb a (ascii_of_nat 10))) s = true →
  lines_go cur (s +:+ t) = lines_go (cur +:+ s) t.
Proof.
  revert cur. induction s as [|c s IH]; intros cur Hs.
  - by rewrite append_nil_r.
  - simpl in Hs. apply andb_prop in Hs as [Hc Hs].
    change (lines_go cur (String c (s +:+ t))
            = lines_go (cur +:+ String c s) t).
    cbn [lines_go]. apply negb_true_iff in Hc. rewrite Hc.
    rewrite (IH _ Hs), append_assoc. reflexivity.
Qed.

Lemma lines_join (x : string) (xs : list string) :
  Forall (λ s, string_forall (λ a, negb (Ascii.eqb a (ascii_of_nat 10))) s
               = true) (x :: xs) →
  ∀ cur, lines_go cur (join nl (x :: xs)) = (cur +:+ x) :: xs.
Proof.
  revert x. induction xs as [|y l IH]; intros x Hall cur.
  - apply Forall_cons in Hall as [Hx _].
    change (join nl [x]) with x.
    rewrite <- (append_nil_r x) at 1. rewrite (lines_go_app _ _ _ Hx).
    reflexivity.
  - apply Forall_cons in Hall as [Hx Hl].
    rewrite join_cons, (lines_go_app _ _ _ Hx).
    change (nl +:+ join nl (y :: l))
      with (String (ascii_of_nat 10) (join nl (y :: l))).
    cbn [lines_go]. rewrite Ascii.eqb_refl.
    by rewrite (IH y Hl EmptyString).
Qed.

Lemma lines_of_items (f : Channel → string) (cs : list Channel) :
  cs ≠ [] →
  Forall (λ c, string_forall (λ a, negb (Ascii.eqb a (ascii_of_nat 10))) (f c)
               = true) cs →
  lines (join nl (f <$> cs)) = f <$> cs.
Proof.
  intros Hne Hall. destruct cs as [|c cs]; [done|].
  rewrite fmap_cons. unfold lines. rewrite lines_join; [done|].
  rewrite <- fmap_cons. by apply Forall_fmap.
Qed.

Lemma channelLink_one_line (c : Channel) :
  one_line c →
  string_forall (λ a, negb (Ascii.eqb a (ascii_of_nat 10))) (channelLink c)
  = true.
Proof.
  intros [Hid Hname]. unfold channelLink.
  rewrite !string_forall_app, Hid, Hname. reflexivity.
Qed.

Lemma plainLine_one_line (c : Channel) :
  one_line c →
  string_forall (λ a, negb (Ascii.eqb a (ascii_of_nat 10)))
    ("- #" +:+ ch_name c) = true.
Proof.
  intros [_ Hname]. by rewrite string_forall_app, Hname.
Qed.

End TokensAndLines.

(** X17.  A token counts for at most one user, the first mentioned in it:
    whatever follows the first well-formed mention of a token (a second
    mention glued to it, say), and whatever text without an opening
    bracket precedes it, [extractUserId] returns the ID of that
    mention. *)
Theorem first_mention_of_a_token (pre id post : string) :
  valid_id id →
  string_forall not_open pre = true →
  extractUserId (pre +:+ mention id +:+ post) = Some id.
Proof.
  intros [Hne Hid] Hpre. rewrite extractUserId_regex.
  induction pre as [|c pre IH].
  - assert (match_here (mention id +:+ post) = Some id) as Hm.
    { apply match_here_Some. exists post. split; [|done].
      unfold mention. by rewrite !append_assoc. }
    change (EmptyString +:+ mention id +:+ post) with (mention id +:+ post).
    destruct (mention id +:+ post); cbn [regex_match]; by rewrite Hm.
  - simpl in Hpre. apply andb_prop in Hpre as [Hc Hpre].
    change (String c pre +:+ mention id +:+ post)
      with (String c (pre +:+ mention id +:+ post)).
    cbn [regex_match]. rewrite (match_here_not_open _ _ Hc). by apply IH.
Qed.

(** Two mentions glued together count for the first user only. *)
Lemma first_mention_witness :
  valid_id "U111"
  ∧ string_forall not_open "cc:" = true
  ∧ extractUserId ("cc:" +:+ mention "U111" +:+ "<@U222>") = Some "U111"
  ∧ userIds_of AppJs "<@U111><@U222>" = ["U111"].
Proof.
  assert (valid_id "U111") as H1 by (split; [discriminate|reflexivity]).
  assert (string_forall not_open "cc:" = true) as H2 by reflexivity.
  split; [exact H1|]. split; [exact H2|].
  split; [exact (first_mention_of_a_token "cc:" "U111" "<@U222>" H1 H2)|].
  reflexivity.
Defined.

(** X18.  Every itemized list of a non-empty channel list has exactly one
    line per channel, in the order of the list: the single-user list and
    the three lists of the comparison in the Socket Mode variant and the
    three lists of the comparison in app.js consist of the link lines of
    the channels, the single-user list of app.js of the lines with the
    bare names.  The number of lines is therefore the number printed as
    the total.  (IDs and names without a line break.) *)
Theorem one_line_per_channel (cs : list Channel) (placeholder : string)
    (u : User) :
  cs ≠ [] →
  Forall one_line cs →
  lines (Socket.listOr (join nl (Socket.link <$> cs)) placeholder)
  = channelLink <$> cs
  ∧ lines (Socket.linksOr cs placeholder) = channelLink <$> cs
  ∧ lines (Http.sharedChannelList cs) = channelLink <$> cs
  ∧ lines (Http.userUniqueList u cs) = channelLink <$> cs
  ∧ lines (Http.channelList cs) = (λ c, "- #" +:+ ch_name c) <$> cs
  ∧ length (lines (Http.channelList cs)) = length cs.
Proof.
  intros Hne Hall.
  assert (lines (join nl (channelLink <$> cs)) = channelLink <$> cs) as Hlinks.
  { apply lines_of_items; [done|].
    eapply Forall_impl; [exact Hall|]. apply channelLink_one_line. }
  assert (lines (Http.channelList cs) = (λ c, "- #" +:+ ch_name c) <$> cs)
    as Hplain.
  { unfold Http.channelList. apply lines_of_items; [done|].
    eapply Forall_impl; [exact Hall|]. apply plainLine_one_line. }
  rewrite socket_listOr, socket_linksOr, http_sharedChannelList,
    http_userUniqueList.
  destruct cs as [|c cs']; [done|].
  repeat split; try exact Hlinks; try exact Hplain.
  rewrite Hplain. by rewrite length_fmap.
Qed.

(** Alice's two channels. *)
Lemma one_line_per_channel_witness :
  [general; eng] ≠ []
  ∧ Forall one_line [general; eng]
  ∧ lines (Http.sharedChannelList [general; eng])
    = [channelLink general; channelLink eng].
Proof.
  assert ([general; eng] ≠ []) as H1 by discriminate.
  assert (Forall one_line [general; eng]) as H2.
  { repeat constructor. }
  split; [exact H1|]. split; [exact H2|].
  exact (proj1 (proj2 (proj2
           (one_line_per_channel [general; eng] EmptyString alice H1 H2)))).
Defined.
